(** * dhcpd-pools: the pool computation engine

    A shallow embedding of the address model (other.c), the reconciliation
    pass (analyze.c) and the sort engine (sort.c) of dhcpd-pools, with the
    properties of the specification stated and settled against it. *)

From Stdlib Require Import ZArith Lia List Sorted Ascii String Floats.
From stdpp Require Import base list sorting.
From Equations Require Import Equations.

Local Open Scope Z_scope.

(** ** C doubles that hold integers

    Every [double] of the engine (range counters, network totals, range
    sizes) holds an integer.  A binary64 operation returns the exact result
    rounded to 53 significant bits, ties to even; on integers of magnitude
    far below 2^1024 that is [rnd53] of the exact integer result.  A double
    is carried as the integer it holds. *)

Module Double.

Definition double := Z.

(** Round to nearest, ties to even, at 53 significant bits. *)
Definition rnd53 (x : Z) : double :=
  let a := Z.abs x in
  if a <? 2 ^ 53 then x
  else
    let e := Z.log2 a - 52 in
    let q := a / 2 ^ e in
    let r := a mod 2 ^ e in
    let half := 2 ^ (e - 1) in
    let q' := if r <? half then q
              else if half <? r then q + 1
              else if Z.even q then q else q + 1 in
    Z.sgn x * (q' * 2 ^ e).

Definition dadd (a b : double) : double := rnd53 (a + b).
Definition dmul (a b : double) : double := rnd53 (a * b).
(** [x++] on a double. *)
Definition dinc (a : double) : double := dadd a 1.

(** The binary64 value of a double of the model, for the quotients and
    comparisons that sort.c computes in floating point. *)
Definition to_float (x : double) : float :=
  let a := Z.abs x in
  let e := Z.max 0 (Z.log2 a - 52) in
  let f := Z.ldexp (PrimFloat.of_uint63 (Uint63.of_Z (a / 2 ^ e))) e in
  if x <? 0 then PrimFloat.opp f else f.

End Double.
Import Double.

(** ** Data model (dhcpd-pools.h) *)

(** [union ipaddr_t]: the storage cell of an address, with its two views.
    A run with the IPv4 functions reads and writes only [v4], a run with the
    IPv6 functions only the 16 bytes of [v6]. *)
Record ipaddr_t := mk_ipaddr { v4 : Z; v6 : list Z }.

Inductive dhcp_version := IPvUNKNOWN | IPv4 | IPv6.

Inductive ltype := ACTIVE | FREE | BACKUP.

(** [struct shared_network_t]; the networks form a linked list whose first
    entry is the 'all networks' summary. *)
Record shared_network_t := mk_shared_network {
  name : string;
  available : double;
  used : double;
  sn_touched : double;
  sn_backups : double
}.

(** [struct range_t]; the pointer [shared_net] is the position of the
    network in the list of networks. *)
Record range_t := mk_range {
  shared_net : nat;
  first_ip : ipaddr_t;
  last_ip : ipaddr_t;
  count : double;
  touched : double;
  backups : double
}.

(** [struct leases_t]; the links [hh.prev] and [hh.next] are given by the
    position of the lease in the ordered list of leases. *)
Record leases_t := mk_lease {
  ip : ipaddr_t;
  type : ltype;
  ethernet : option string
}.

(** [comparer_t]: a comparison of two ranges.  The comparators read the
    function pointers [ipcomp] and [get_range_size] that [set_ipv_functions]
    installed, so the address family is their first argument. *)
Definition comparer_t := dhcp_version -> range_t -> range_t -> Z.

(** [struct conf_t], the fields the engine uses.  [sorts] is the linked
    list of [struct output_sort]: one [func] per entry, [None] for NULL. *)
Record conf_t := mk_conf {
  shared_nets : list shared_network_t;
  ranges : list range_t;
  leases : list leases_t;
  ip_version : dhcp_version;
  sorts : list (option comparer_t);
  reverse_order : bool
}.

(** [state->shared_net_root]: the first entry of the list of networks. *)
Definition shared_net_root : nat := 0%nat.

Definition num_ranges (state : conf_t) : nat := length (ranges state).

(** Element [i] of a byte array; an address has 16 of them. *)
Definition byte_at (a : list Z) (i : nat) : Z := default 0 (a !! i).

(** ** Address comparison (sort.c) *)

Definition ipcomp_init (a b : ipaddr_t) : Z := 0.

Definition ipcomp_v4 (a b : ipaddr_t) : Z :=
  if v4 a <? v4 b then -1
  else if v4 b <? v4 a then 1
  else 0.

(** [memcmp] over [n] bytes: the difference of the first pair of bytes
    that differ; callers use its sign only. *)
Fixpoint memcmp (a b : list Z) (n : nat) : Z :=
  match n with
  | O => 0
  | S n' =>
      match a, b with
      | x :: a', y :: b' => if x =? y then memcmp a' b' n' else x - y
      | _, _ => 0
      end
  end.

Definition ipcomp_v6 (a b : ipaddr_t) : Z := memcmp (v6 a) (v6 b) 16.

Definition leasecomp_init (a b : leases_t) : Z := 0.

Definition leasecomp_v4 (a b : leases_t) : Z :=
  if v4 (ip a) <? v4 (ip b) then -1
  else if v4 (ip b) <? v4 (ip a) then 1
  else 0.

Definition leasecomp_v6 (a b : leases_t) : Z := memcmp (v6 (ip a)) (v6 (ip b)) 16.

(** ** Range size (other.c) *)

Definition get_range_size_init (r : range_t) : double := 0.

(** The difference is taken in [uint32_t] and then converted. *)
Definition get_range_size_v4 (r : range_t) : double :=
  (v4 (last_ip r) - v4 (first_ip r) + 1) mod 2 ^ 32.

Fixpoint get_range_size_v6_loop (r : range_t) (i n : nat) (size : double) : double :=
  match n with
  | O => size
  | S n' =>
      let size := dmul size 256 in
      let size := dadd size (byte_at (v6 (last_ip r)) i - byte_at (v6 (first_ip r)) i) in
      get_range_size_v6_loop r (S i) n' size
  end.

Definition get_range_size_v6 (r : range_t) : double :=
  dadd (get_range_size_v6_loop r 0 16 0) 1.

(** ** The function pointers set by [set_ipv_functions] (other.c) *)

Definition ipcomp (version : dhcp_version) : ipaddr_t -> ipaddr_t -> Z :=
  match version with
  | IPv4 => ipcomp_v4
  | IPv6 => ipcomp_v6
  | IPvUNKNOWN => ipcomp_init
  end.

Definition leasecomp (version : dhcp_version) : leases_t -> leases_t -> Z :=
  match version with
  | IPv4 => leasecomp_v4
  | IPv6 => leasecomp_v6
  | IPvUNKNOWN => leasecomp_init
  end.

Definition get_range_size (version : dhcp_version) : range_t -> double :=
  match version with
  | IPv4 => get_range_size_v4
  | IPv6 => get_range_size_v6
  | IPvUNKNOWN => get_range_size_init
  end.

(** ** Last address of a CIDR block (other.c)

    Both functions return the address as text ([ntop_ipaddr], [inet_ntop]),
    which [parse_cidr] reads back at once; the embedding returns the address
    the text stands for. *)

(** [mask] has passed [strtol_mask]; the shift is defined for 1..32. *)
Definition cidr_last_v4 (addr : ipaddr_t) (mask : Z) : ipaddr_t :=
  let netmask :=
    if negb (mask =? 0) then (Z.shiftl 1 (32 - mask) - 1) mod 2 ^ 32
    else 0 in
  mk_ipaddr (Z.lor (v4 addr) netmask) (v6 addr).

(** The first loop of [cidr_last_v6], [for (i = mask, j = 0; i > 0; i -= 8, j++)],
    walking the 16 bytes of [bitmask]. *)
Fixpoint cidr_last_v6_bitmask (i : Z) (bitmask : list Z) : list Z :=
  match bitmask with
  | [] => []
  | b :: rest =>
      if 0 <? i then
        (if 8 <=? i then 255 else Z.shiftl 255 (8 - i) mod 256)
          :: cidr_last_v6_bitmask (i - 8) rest
      else b :: rest
  end.

(** The second loop: [addr->v6[i] |= ~bitmask.v6[i]], stored in an
    [unsigned char]. *)
Fixpoint cidr_last_v6_or (addr bitmask : list Z) (i n : nat) : list Z :=
  match n with
  | O => addr
  | S n' =>
      let b := Z.lor (byte_at addr i) (Z.lnot (byte_at bitmask i)) mod 256 in
      cidr_last_v6_or (<[i := b]> addr) bitmask (S i) n'
  end.

Definition cidr_last_v6 (addr : ipaddr_t) (mask : Z) : ipaddr_t :=
  let bitmask := cidr_last_v6_bitmask mask (replicate 16 0) in
  mk_ipaddr (v4 addr) (cidr_last_v6_or (v6 addr) bitmask 0 16).

(** [cidr_last] is NULL until a family is set. *)
Definition cidr_last (version : dhcp_version) : option (ipaddr_t -> Z -> ipaddr_t) :=
  match version with
  | IPv4 => Some cidr_last_v4
  | IPv6 => Some cidr_last_v6
  | IPvUNKNOWN => None
  end.

(** ** Reversal of the range array (other.c) *)

(** The loop [for (j = 0; j < num_ranges; j++, i--)]; [n] counts the
    iterations left and [tmp_ranges] grows by one element each time. *)
Fixpoint flip_ranges_loop (rs : list range_t) (i n : nat) (tmp_ranges : list range_t)
  : list range_t :=
  match n with
  | O => tmp_ranges
  | S n' =>
      match rs !! i with
      | Some r => flip_ranges_loop rs (Nat.pred i) n' (tmp_ranges ++ [r])
      | None => tmp_ranges
      end
  end.

Definition set_ranges (state : conf_t) (rs : list range_t) : conf_t :=
  mk_conf (shared_nets state) rs (leases state) (ip_version state)
          (sorts state) (reverse_order state).

Definition flip_ranges (state : conf_t) : conf_t :=
  let i := (num_ranges state - 1)%nat in
  set_ranges state (flip_ranges_loop (ranges state) i (num_ranges state) []).

(** ** Reconciliation (analyze.c) *)

(** A position in the ordered list of leases: the leases before it, nearest
    first, the lease pointed at, and the leases after it.  A NULL pointer is
    [None]. *)
Definition lease_ptr := option (list leases_t * leases_t * list leases_t).

(** [state->leases], the first lease. *)
Definition leases_head (ls : list leases_t) : lease_ptr :=
  match ls with
  | [] => None
  | l :: rest => Some ([], l, rest)
  end.

(** [while (l != NULL && ipcomp(&range_p->first_ip, &l->ip) < 0) l = l->hh.prev;] *)
Fixpoint rewind (version : dhcp_version) (range_p : range_t)
    (before : list leases_t) (l : leases_t) (after : list leases_t) : lease_ptr :=
  if ipcomp version (first_ip range_p) (ip l) <? 0 then
    match before with
    | [] => None
    | p :: before' => rewind version range_p before' p (l :: after)
    end
  else Some (before, l, after).

(** The [switch (l->type)] of the counting loop. *)
Definition count_lease (range_p : range_t) (l : leases_t) : range_t :=
  match type l with
  | FREE =>
      mk_range (shared_net range_p) (first_ip range_p) (last_ip range_p)
               (count range_p) (dinc (touched range_p)) (backups range_p)
  | ACTIVE =>
      mk_range (shared_net range_p) (first_ip range_p) (last_ip range_p)
               (dinc (count range_p)) (touched range_p) (backups range_p)
  | BACKUP =>
      mk_range (shared_net range_p) (first_ip range_p) (last_ip range_p)
               (count range_p) (touched range_p) (dinc (backups range_p))
  end.

(** [for (; l != NULL && ipcomp(&l->ip, &range_p->last_ip) <= 0; l = l->hh.next)] *)
Fixpoint scan (version : dhcp_version) (range_p : range_t)
    (before : list leases_t) (l : leases_t) (after : list leases_t)
  : range_t * lease_ptr :=
  if ipcomp version (ip l) (last_ip range_p) <=? 0 then
    let range_p' :=
      if ipcomp version (ip l) (first_ip range_p) <? 0 then range_p
      else count_lease range_p l in
    match after with
    | [] => (range_p', None)
    | n :: after' => scan version range_p' (l :: before) n after'
    end
  else (range_p, Some (before, l, after)).

(** The additions to one network's totals. *)
Definition add_totals (block_size : double) (range_p : range_t)
    (n : shared_network_t) : shared_network_t :=
  mk_shared_network (name n)
    (dadd (available n) block_size)
    (dadd (used n) (count range_p))
    (dadd (sn_touched n) (touched range_p))
    (dadd (sn_backups n) (backups range_p)).

(** One iteration of the walk through the ranges. *)
Definition do_counting_range (version : dhcp_version) (ls : list leases_t)
    (range_p : range_t) (l : lease_ptr) (nets : list shared_network_t)
  : range_t * lease_ptr * list shared_network_t :=
  let l :=
    match l with
    | Some (before, c, after) => rewind version range_p before c after
    | None => None
    end in
  let l := match l with None => leases_head ls | Some _ => l end in
  let '(range_p, l) :=
    match l with
    | Some (before, c, after) => scan version range_p before c after
    | None => (range_p, None)
    end in
  let block_size := get_range_size version range_p in
  let nets := alter (add_totals block_size range_p) (shared_net range_p) nets in
  let nets :=
    if decide (shared_net range_p = shared_net_root) then nets
    else alter (add_totals block_size range_p) shared_net_root nets in
  (range_p, l, nets).

Fixpoint do_counting_loop (version : dhcp_version) (ls : list leases_t)
    (rs : list range_t) (l : lease_ptr) (nets : list shared_network_t)
  : list range_t * lease_ptr * list shared_network_t :=
  match rs with
  | [] => ([], l, nets)
  | range_p :: rs' =>
      let '(range_p', l', nets') := do_counting_range version ls range_p l nets in
      let '(rs'', l'', nets'') := do_counting_loop version ls rs' l' nets' in
      (range_p' :: rs'', l'', nets'')
  end.

Definition do_counting (state : conf_t) : conf_t :=
  let '(rs, _, nets) :=
    do_counting_loop (ip_version state) (leases state) (ranges state)
                     (leases_head (leases state)) (shared_nets state) in
  mk_conf nets rs (leases state) (ip_version state) (sorts state) (reverse_order state).

(** ** Comparators (sort.c) *)

(** [f1 < f2 ? -1 : f1 > f2 ? 1 : 0] on binary64 values. *)
Definition comp_double (f1 f2 : float) : Z :=
  if PrimFloat.ltb f1 f2 then -1
  else if PrimFloat.ltb f2 f1 then 1
  else 0.

Definition ret_percent (version : dhcp_version) (r : range_t) : float :=
  PrimFloat.div (to_float (count r)) (to_float (get_range_size version r)).

Definition ret_tc (r : range_t) : double := dadd (count r) (touched r).

Definition ret_tcperc (version : dhcp_version) (r : range_t) : float :=
  PrimFloat.div (to_float (ret_tc r)) (to_float (get_range_size version r)).

Definition comp_ip : comparer_t :=
  fun version r1 r2 => ipcomp version (first_ip r1) (first_ip r2).

Definition comp_max : comparer_t :=
  fun version r1 r2 =>
    comp_double (to_float (get_range_size version r1))
                (to_float (get_range_size version r2)).

Definition comp_cur : comparer_t :=
  fun _ r1 r2 => comp_double (to_float (count r1)) (to_float (count r2)).

Definition comp_percent : comparer_t :=
  fun version r1 r2 => comp_double (ret_percent version r1) (ret_percent version r2).

Definition comp_touched : comparer_t :=
  fun _ r1 r2 => comp_double (to_float (touched r1)) (to_float (touched r2)).

Definition comp_tc : comparer_t :=
  fun _ r1 r2 => comp_double (to_float (ret_tc r1)) (to_float (ret_tc r2)).

Definition comp_tcperc : comparer_t :=
  fun version r1 r2 => comp_double (ret_tcperc version r1) (ret_tcperc version r2).

(** [rangecomp], the comparison [prepare_data] hands to [qsort]. *)
Definition rangecomp (version : dhcp_version) (r1 r2 : range_t) : Z :=
  ipcomp version (first_ip r1) (first_ip r2).

(** The message of a call [error (status, 0, format, quote (str))]: the
    format and the string handed to [quote].  What is printed is the name
    of the program, a colon, and the format with the quoted string in the
    place of its [%s]. *)
Record error_message := mk_error_message {
  error_format : string;
  quoted : string
}.

(** What a call of [field_selector] ends in: a return value, or the
    process leaving through [error (EXIT_FAILURE, ...)] with a message. *)
Inductive selected :=
| Returned (func : option comparer_t)
| Fatal (status : Z) (message : error_message).

Definition EXIT_FAILURE : Z := 1.

Definition field_selector (c : ascii) : selected :=
  if Ascii.eqb c "n" then Returned None
  else if Ascii.eqb c "i" then Returned (Some comp_ip)
  else if Ascii.eqb c "m" then Returned (Some comp_max)
  else if Ascii.eqb c "c" then Returned (Some comp_cur)
  else if Ascii.eqb c "p" then Returned (Some comp_percent)
  else if Ascii.eqb c "t" then Returned (Some comp_touched)
  else if Ascii.eqb c "T" then Returned (Some comp_tc)
  else if Ascii.eqb c "e" then Returned (Some comp_tcperc)
  else
    let str := String c EmptyString in
    Fatal EXIT_FAILURE (mk_error_message "field_selector: unknown sort order: %s" str).

(** ** Merge sort of the range array (sort.c) *)

(** [strcmp]: the difference of the first pair of bytes that differ, the
    end of a string counting as a zero byte. *)
Fixpoint strcmp (a b : string) : Z :=
  match a, b with
  | EmptyString, EmptyString => 0
  | EmptyString, String y _ => 0 - Z.of_N (N_of_ascii y)
  | String x _, EmptyString => Z.of_N (N_of_ascii x)
  | String x a', String y b' =>
      if Ascii.eqb x y then strcmp a' b'
      else Z.of_N (N_of_ascii x) - Z.of_N (N_of_ascii y)
  end.

(** [r->shared_net->name] *)
Definition shared_net_name (state : conf_t) (r : range_t) : string :=
  match shared_nets state !! shared_net r with
  | Some n => name n
  | None => EmptyString
  end.

(** The loop of [merge] over the list [state->sorts]; the [int] it returns
    is used as a truth value only. *)
Fixpoint merge_sorts (state : conf_t) (p : list (option comparer_t))
    (left right : range_t) : bool :=
  match p with
  | [] => false
  | func :: next =>
      let ret :=
        match func with
        | None => strcmp (shared_net_name state left) (shared_net_name state right)
        | Some f => f (ip_version state) left right
        end in
      if 0 <? ret then false
      else if ret <? 0 then true
      else merge_sorts state next left right
  end.

Definition merge (state : conf_t) (left right : range_t) : bool :=
  merge_sorts state (sorts state) left right.

Definition MIN_MERGE_SIZE : nat := 8.

(** The inner loop of the insertion sort,
    [for (s_right = left - 1; 0 <= s_right; s_right--)], followed by
    [*(orig + s_right + 1) = hold]; [k] is [s_right + 1]. *)
Fixpoint insertion_shift (state : conf_t) (orig : list range_t) (hold : range_t)
    (k : nat) : list range_t :=
  match k with
  | O => <[O := hold]> orig
  | S s_right =>
      match orig !! s_right with
      | Some x =>
          if merge state x hold then <[S s_right := hold]> orig
          else insertion_shift state (<[S s_right := x]> orig) hold s_right
      | None => orig
      end
  end.

(** [for (left = 0; left < size; left++)]; [n] counts the iterations left. *)
Fixpoint insertion_loop (state : conf_t) (orig : list range_t) (left n : nat)
  : list range_t :=
  match n with
  | O => orig
  | S n' =>
      match orig !! left with
      | Some hold =>
          insertion_loop state (insertion_shift state orig hold left) (S left) n'
      | None => orig
      end
  end.

(** The three [while] loops that merge the two sorted halves of [orig]
    into [temp].  Once the first loop has ended its condition stays false,
    so the loops are the three branches below, taken in this order.  Every
    iteration writes [temp + i] and advances [i]; [n] counts the iterations
    left, [size] of them fill [temp]. *)
Fixpoint merge_loop (state : conf_t) (orig : list range_t) (half size : nat)
    (left u_right : nat) (temp : list range_t) (n : nat) : list range_t :=
  match n with
  | O => temp
  | S n' =>
      if (left <? half)%nat && (u_right <? size)%nat then
        match orig !! left, orig !! u_right with
        | Some a, Some b =>
            if merge state a b
            then merge_loop state orig half size (S left) u_right (temp ++ [a]) n'
            else merge_loop state orig half size left (S u_right) (temp ++ [b]) n'
        | _, _ => temp
        end
      else if (left <? half)%nat then
        match orig !! left with
        | Some a => merge_loop state orig half size (S left) u_right (temp ++ [a]) n'
        | None => temp
        end
      else if (u_right <? size)%nat then
        match orig !! u_right with
        | Some b => merge_loop state orig half size left (S u_right) (temp ++ [b]) n'
        | None => temp
        end
      else temp
  end.

(** [mergesort_ranges (state, orig, size, temp, root_call)] on the [size]
    elements at [orig]; the result is the content of that part of the array
    when the call returns.  The buffer [temp] is written before it is read,
    so the result does not depend on it. *)
Equations? mergesort_ranges (state : conf_t) (orig : list range_t) : list range_t
  by wf (length orig) lt :=
  mergesort_ranges state orig with decide (length orig < MIN_MERGE_SIZE)%nat := {
    | left _ => insertion_loop state orig 0 (length orig)
    | right _ =>
        let size := length orig in
        let lo := mergesort_ranges state (take (size / 2) orig) in
        let hi := mergesort_ranges state (drop (size / 2) orig) in
        merge_loop state (lo ++ hi) (size / 2) size 0 (size / 2) [] size }.
Proof.
  all: unfold MIN_MERGE_SIZE in *; change (Nat.divmod size 1 0 1).1 with (size / 2)%nat;
    subst size; pose proof (Nat.div_mod_eq (length orig) 2) as Hdiv;
    pose proof (Nat.mod_upper_bound (length orig) 2).
  - rewrite length_take. lia.
  - rewrite length_drop. lia.
Qed.

(** The sorting step of [main]: [if (state.sorts != NULL) mergesort_ranges (...)]
    and [if (state.reverse_order == 1) flip_ranges (...)]. *)
Definition sort_ranges (state : conf_t) : conf_t :=
  let state :=
    match sorts state with
    | [] => state
    | _ :: _ => set_ranges state (mergesort_ranges state (ranges state))
    end in
  if reverse_order state then flip_ranges state else state.

(** ** Addresses of a family *)

Definition is_byte (b : Z) : Prop := 0 <= b < 256.

(** An address of the family: a 32-bit number, or 16 bytes. *)
Definition wf_addr (version : dhcp_version) (a : ipaddr_t) : Prop :=
  match version with
  | IPv4 => 0 <= v4 a < 2 ^ 32
  | IPv6 => length (v6 a) = 16%nat /\ Forall is_byte (v6 a)
  | IPvUNKNOWN => True
  end.

(** ** The lease index (hash.c) *)

Module LeaseIndex.

(** Modelled from the spec: hash.c, which dhcpd-pools.h declares
    ([add_lease], [find_lease], [delete_lease], [delete_all_leases]), is
    missing.  The index is ip-keyed: two addresses are the same key when the
    comparison of the address family says so; before a family is selected
    no address is a key. *)
Definition same_key (version : dhcp_version) (a b : ipaddr_t) : bool :=
  match version with
  | IPvUNKNOWN => false
  | _ => ipcomp version a b =? 0
  end.

(** Modelled from the spec: [find (address)], the exact-key lookup of the
    missing hash.c; it returns the lease record of the address or nothing.
    The records are kept in the order of their first insertion. *)
Fixpoint find (version : dhcp_version) (index : list leases_t) (addr : ipaddr_t)
  : option leases_t :=
  match index with
  | [] => None
  | l :: rest =>
      if same_key version (ip l) addr then Some l else find version rest addr
  end.

(** Modelled from the spec: [insert_or_update (address, state)] of the
    missing hash.c; it overwrites the state of the record of the address, or
    adds a record, and does nothing before an address family is selected. *)
Fixpoint insert_or_update (version : dhcp_version) (index : list leases_t)
    (addr : ipaddr_t) (state : ltype) : list leases_t :=
  match version with
  | IPvUNKNOWN => index
  | _ =>
      match index with
      | [] => [mk_lease addr state None]
      | l :: rest =>
          if same_key version (ip l) addr
          then mk_lease (ip l) state (ethernet l) :: rest
          else l :: insert_or_update version rest addr state
      end
  end.

(** The number of records kept for [addr]. *)
Definition records_of (version : dhcp_version) (index : list leases_t)
    (addr : ipaddr_t) : nat :=
  length (filter (fun l => same_key version (ip l) addr = true) index).

(** At most one record per address of the family. *)
Definition one_per_address (version : dhcp_version) (index : list leases_t) : Prop :=
  forall addr, wf_addr version addr -> (records_of version index addr <= 1)%nat.

End LeaseIndex.

(** ** Notions the properties are stated with *)

(** The number a sequence of bytes denotes, most significant byte first. *)
Definition be_value (bytes : list Z) : Z :=
  fold_left (fun acc b => acc * 256 + b) bytes 0.

(** The number an address denotes in its family. *)
Definition addr_value (version : dhcp_version) (a : ipaddr_t) : Z :=
  match version with
  | IPv4 => v4 a
  | IPv6 => be_value (v6 a)
  | IPvUNKNOWN => 0
  end.

Definition wf_range (version : dhcp_version) (r : range_t) : Prop :=
  wf_addr version (first_ip r) /\ wf_addr version (last_ip r).

(** The number of addresses in [first_ip, last_ip]. *)
Definition addresses_in (version : dhcp_version) (r : range_t) : Z :=
  Z.max 0 (addr_value version (last_ip r) - addr_value version (first_ip r) + 1).

(** The lease's address lies in [first_ip, last_ip], by the family's comparison. *)
Definition in_range (version : dhcp_version) (r : range_t) (l : leases_t) : bool :=
  (ipcomp version (first_ip r) (ip l) <=? 0) && (ipcomp version (ip l) (last_ip r) <=? 0).

Definition ltype_eqb (a b : ltype) : bool :=
  match a, b with
  | ACTIVE, ACTIVE | FREE, FREE | BACKUP, BACKUP => true
  | _, _ => false
  end.

(** The number of leases of state [t] whose address lies in the range. *)
Definition leases_in (version : dhcp_version) (r : range_t) (t : ltype)
    (ls : list leases_t) : Z :=
  Z.of_nat (length (filter (fun l => in_range version r l && ltype_eqb (type l) t = true) ls)).

(** The lease sequence after [HASH_SORT (state->leases, leasecomp)] over an
    index with one record per address: ascending, no two leases equal. *)
Definition address_sorted (version : dhcp_version) (ls : list leases_t) : Prop :=
  StronglySorted (fun a b => leasecomp version a b < 0) ls.

(** Position [i] comes before position [j] in the array and holds [x],
    position [j] holds [y]. *)
Definition precedes (rs : list range_t) (x y : range_t) : Prop :=
  exists i j : nat, (i < j)%nat /\ rs !! i = Some x /\ rs !! j = Some y.

(** Two ranges tie under the whole chain: every comparison returns 0. *)
Definition chain_tie (state : conf_t) (x y : range_t) : Prop :=
  Forall (fun func : option comparer_t =>
            match func with
            | None => strcmp (shared_net_name state x) (shared_net_name state y) = 0
            | Some f => f (ip_version state) x y = 0
            end) (sorts state).

(** The sum of a field over a list of networks. *)
Definition total (field : shared_network_t -> double) (nets : list shared_network_t) : Z :=
  foldr (fun n acc => field n + acc) 0 nets.

(** The networks other than the first, 'all networks'. *)
Definition non_root (nets : list shared_network_t) : list shared_network_t := drop 1 nets.

(** ** The sort loops as list functions

    The loops of [mergesort_ranges] work on the array through indices.  The
    three functions below say what they compute as functions on lists; the
    loops are proved equal to them, and the properties of the sort are then
    shown on the lists. *)

(** Inserting [hold] into the part of the array before it, given nearest
    element first: [hold] goes behind the first element that [merge] puts
    before it. *)
Fixpoint insert_back (state : conf_t) (hold : range_t) (before : list range_t)
  : list range_t :=
  match before with
  | [] => [hold]
  | x :: rest =>
      if merge state x hold then hold :: x :: rest
      else x :: insert_back state hold rest
  end.

(** The insertion sort: [before] is the sorted part, nearest element first. *)
Fixpoint insert_all (state : conf_t) (before rest : list range_t) : list range_t :=
  match rest with
  | [] => rev before
  | hold :: rest' => insert_all state (insert_back state hold before) rest'
  end.

(** The merge of the two runs. *)
Fixpoint merge_runs (state : conf_t) (lo hi : list range_t) : list range_t :=
  match lo with
  | [] => hi
  | a :: lo' =>
      (fix against (hi : list range_t) : list range_t :=
         match hi with
         | [] => lo
         | b :: hi' =>
             if merge state a b then a :: merge_runs state lo' hi
             else b :: against hi'
         end) hi
  end.

(** The array in ascending and in descending order of a numeric key. *)
Definition ascending (key : range_t -> Z) : list range_t -> Prop :=
  StronglySorted (fun x y => key x <= key y).

Definition descending (key : range_t -> Z) : list range_t -> Prop :=
  StronglySorted (fun x y => key y <= key x).

(** The characters that select a comparator. *)
Definition sort_keys : list ascii := ["n"; "i"; "m"; "c"; "p"; "t"; "T"; "e"]%char.

(** ** Inputs used as examples *)

(** The IPv4 address a.b.c.d. *)
Definition ipv4 (a b c d : Z) : ipaddr_t :=
  mk_ipaddr (((a * 256 + b) * 256 + c) * 256 + d) [].

Definition example_nets : list shared_network_t :=
  [mk_shared_network "All networks" 0 0 0 0; mk_shared_network "lan" 0 0 0 0].

(** Two ranges of one shared network with equal counters. *)
Definition tie_A : range_t := mk_range 1 (ipv4 10 0 0 0) (ipv4 10 0 0 9) 0 0 0.
Definition tie_B : range_t := mk_range 1 (ipv4 10 0 1 0) (ipv4 10 0 1 9) 0 0 0.

(** [--sort=cn] over the two. *)
Definition tie_state : conf_t :=
  mk_conf example_nets [tie_A; tie_B] [] IPv4 [Some comp_cur; None] false.

(** [--sort=i --reverse] over three ranges. *)
Definition reverse_ip_state : conf_t :=
  mk_conf example_nets
    [mk_range 1 (ipv4 10 0 1 0) (ipv4 10 0 1 9) 0 0 0;
     mk_range 1 (ipv4 10 0 2 0) (ipv4 10 0 2 9) 0 0 0;
     mk_range 0 (ipv4 10 0 0 0) (ipv4 10 0 0 9) 0 0 0]
    [] IPv4 [Some comp_ip] true.

(** ** Notions for the reconciliation *)

(** The number the address of a lease denotes. *)
Definition lease_value (version : dhcp_version) (l : leases_t) : Z :=
  addr_value version (ip l).

(** A range with [a], [f] and [b] added to its three counters. *)
Definition add_counts (r : range_t) (a f b : Z) : range_t :=
  mk_range (shared_net r) (first_ip r) (last_ip r)
           (count r + a) (touched r + f) (backups r + b).

(** The range with every lease of its interval counted once, by state. *)
Definition counted (version : dhcp_version) (ls : list leases_t) (r : range_t) : range_t :=
  add_counts r (leases_in version r ACTIVE ls) (leases_in version r FREE ls)
               (leases_in version r BACKUP ls).

(** The counters are counts, and adding one per lease stays within the
    integers a double holds exactly. *)
Definition counters_fit (n : Z) (r : range_t) : Prop :=
  (0 <= count r /\ count r + n <= 2 ^ 53) /\
  (0 <= touched r /\ touched r + n <= 2 ^ 53) /\
  (0 <= backups r /\ backups r + n <= 2 ^ 53).

(** A lease pointer into the list [ls]. *)
Definition valid_ptr (ls : list leases_t) (l : lease_ptr) : Prop :=
  match l with
  | None => True
  | Some (before, c, after) => rev before ++ c :: after = ls
  end.

(** The sum of [c] over the ranges. *)
Definition range_sum (c : range_t -> Z) (rs : list range_t) : Z :=
  foldr (fun r acc => c r + acc) 0 rs.

(** The ranges that belong to the network at position [n]. *)
Definition ranges_of (n : nat) (rs : list range_t) : list range_t :=
  filter (fun r => shared_net r = n) rs.

(** All that [do_counting] adds up for the ranges, in absolute value. *)
Definition sum_of_parts (version : dhcp_version) (rs : list range_t) : Z :=
  range_sum (fun r => Z.abs (get_range_size version r) + Z.abs (count r)
                      + Z.abs (touched r) + Z.abs (backups r)) rs.

(** The totals of a network are all zero, as when it is created. *)
Definition zero_totals (n : shared_network_t) : Prop :=
  available n = 0 /\ used n = 0 /\ sn_touched n = 0 /\ sn_backups n = 0.

(** The additions of [do_counting] for one range, as a step on the networks. *)
Definition add_range (version : dhcp_version) (range_p : range_t)
    (nets : list shared_network_t) : list shared_network_t :=
  let block_size := get_range_size version range_p in
  let nets := alter (add_totals block_size range_p) (shared_net range_p) nets in
  if decide (shared_net range_p = shared_net_root) then nets
  else alter (add_totals block_size range_p) shared_net_root nets.

(** What one lease adds to the counter of state [t] of the range. *)
Definition one_lease (version : dhcp_version) (r : range_t) (t : ltype)
    (l : leases_t) : Z :=
  if in_range version r l && ltype_eqb (type l) t then 1 else 0.

(** The number of the lease's address lies between the numbers of the
    first and the last address of the range, both included. *)
Definition within (version : dhcp_version) (r : range_t) (l : leases_t) : bool :=
  (addr_value version (first_ip r) <=? lease_value version l)
  && (lease_value version l <=? addr_value version (last_ip r)).

(** The number of leases of state [t] whose address is within the range. *)
Definition leases_within (version : dhcp_version) (r : range_t) (t : ltype)
    (ls : list leases_t) : Z :=
  Z.of_nat (length (filter (fun l => within version r l && ltype_eqb (type l) t = true) ls)).

(** The lease sequence in ascending order of the numbers of the
    addresses, no address twice. *)
Definition ascending_addresses (version : dhcp_version) (ls : list leases_t) : Prop :=
  StronglySorted (fun a b => lease_value version a < lease_value version b) ls.

(** The range 10.0.0.0-10.0.0.3 with the leases 10.0.0.1 (active) and
    10.0.0.2 (free). *)
Definition counting_state : conf_t :=
  mk_conf example_nets
    [mk_range 1 (ipv4 10 0 0 0) (ipv4 10 0 0 3) 0 0 0]
    [mk_lease (ipv4 10 0 0 1) ACTIVE None; mk_lease (ipv4 10 0 0 2) FREE None]
    IPv4 [] false.

(** The ranges 10.0.0.0-10.0.0.3 and 10.0.0.8-10.0.0.11 with the leases
    10.0.0.1 (active) and 10.0.0.2 (free) in the first, 10.0.0.5 (active)
    between the two, 10.0.0.9 (backup) in the second and 10.0.0.20 (free)
    behind both. *)
Definition outside_state : conf_t :=
  mk_conf example_nets
    [mk_range 1 (ipv4 10 0 0 0) (ipv4 10 0 0 3) 0 0 0;
     mk_range 1 (ipv4 10 0 0 8) (ipv4 10 0 0 11) 0 0 0]
    [mk_lease (ipv4 10 0 0 1) ACTIVE None; mk_lease (ipv4 10 0 0 2) FREE None;
     mk_lease (ipv4 10 0 0 5) ACTIVE None; mk_lease (ipv4 10 0 0 9) BACKUP None;
     mk_lease (ipv4 10 0 0 20) FREE None]
    IPv4 [] false.

(** Two overlapping ranges and a lease sequence that holds the address
    10.0.0.5 twice, which an index keyed by address does not. *)
Definition duplicate_state : conf_t :=
  mk_conf example_nets
    [mk_range 1 (ipv4 10 0 0 1) (ipv4 10 0 0 9) 0 0 0;
     mk_range 1 (ipv4 10 0 0 5) (ipv4 10 0 0 6) 0 0 0]
    [mk_lease (ipv4 10 0 0 5) ACTIVE None; mk_lease (ipv4 10 0 0 5) FREE None;
     mk_lease (ipv4 10 0 0 20) ACTIVE None]
    IPv4 [] false.

(** The counters of a range as it is created. *)
Definition zero_counters (r : range_t) : Prop :=
  count r = 0 /\ touched r = 0 /\ backups r = 0.

(** One range that belongs to no shared network: it hangs on 'all
    networks' itself.  No leases. *)
Definition root_range_state : conf_t :=
  mk_conf example_nets
    [mk_range 0 (ipv4 10 0 0 0) (ipv4 10 0 0 3) 0 0 0]
    [] IPv4 [] false.

(** Two ranges, one of the shared network "lan" and one of no shared
    network, and three leases. *)
Definition two_ranges_state : conf_t :=
  mk_conf example_nets
    [mk_range 0 (ipv4 10 0 0 0) (ipv4 10 0 0 3) 0 0 0;
     mk_range 1 (ipv4 10 0 1 0) (ipv4 10 0 1 9) 0 0 0]
    [mk_lease (ipv4 10 0 0 1) ACTIVE None; mk_lease (ipv4 10 0 1 2) FREE None;
     mk_lease (ipv4 10 0 1 3) BACKUP None]
    IPv4 [] false.

(** The sum of the absolute values of [c] over the ranges. *)
Definition abs_sum (c : range_t -> Z) (rs : list range_t) : Z :=
  range_sum (fun r => Z.abs (c r)) rs.

(** ** Notions for the CIDR blocks *)

(** Bit [k] of an address, counted from its most significant bit. *)
Definition addr_bit4 (x : Z) (k : Z) : bool := Z.testbit x (31 - k).

Definition addr_bit6 (bytes : list Z) (k : Z) : bool :=
  Z.testbit (byte_at bytes (Z.to_nat (k / 8))) (7 - k mod 8).

(** The byte that the first loop of [cidr_last_v6] stores when [i] mask
    bits are left. *)
Definition mask_byte (i : Z) : Z :=
  if 0 <? i then (if 8 <=? i then 255 else Z.shiftl 255 (8 - i) mod 256) else 0.

(** ** Notions and inputs for the size of IPv6 ranges *)

(** The IPv6 range from the 16 bytes [first] to the 16 bytes [last]. *)
Definition range6 (first last : list Z) : range_t :=
  mk_range 0 (mk_ipaddr 0 first) (mk_ipaddr 0 last) 0 0 0.

(** The difference of the numbers that the first [i] bytes of the last
    and of the first address denote: the exact value of [size] after [i]
    iterations of the loop of [get_range_size_v6]. *)
Definition prefix_diff (r : range_t) (i : nat) : Z :=
  be_value (take i (v6 (last_ip r))) - be_value (take i (v6 (first_ip r))).

(** [get_range_size_v6] computed with Rocq's primitive binary64 numbers,
    operation by operation, to check the integer model of doubles against. *)
Fixpoint get_range_size_v6_binary64_loop (r : range_t) (i n : nat) (size : float) : float :=
  match n with
  | O => size
  | S n' =>
      let size := PrimFloat.mul size (to_float 256) in
      let size :=
        PrimFloat.add size
          (to_float (byte_at (v6 (last_ip r)) i - byte_at (v6 (first_ip r)) i)) in
      get_range_size_v6_binary64_loop r (S i) n' size
  end.

Definition get_range_size_v6_binary64 (r : range_t) : float :=
  PrimFloat.add (get_range_size_v6_binary64_loop r 0 16 (to_float 0)) (to_float 1).

(** ::/1, from :: to 7fff:ffff:ffff:ffff:ffff:ffff:ffff:ffff. *)
Definition half_range : range_t := range6 (replicate 16 0) (127 :: replicate 15 255).

(** From :: to ::20:0:0:0, that is 2^53 + 1 addresses. *)
Definition inexact_range : range_t :=
  range6 (replicate 16 0) (replicate 9 0 ++ [32] ++ replicate 6 0).

(** Two ranges from 0:0:0:ff::, the second reaching further than the first:
    to 2000:0:0:ff:: and to 2000:0:0:100::. *)
Definition shorter_range : range_t :=
  range6 (replicate 7 0 ++ [255] ++ replicate 8 0)
         ([32] ++ replicate 6 0 ++ [255] ++ replicate 8 0).

Definition longer_range : range_t :=
  range6 (replicate 7 0 ++ [255] ++ replicate 8 0)
         ([32] ++ replicate 5 0 ++ [1; 0] ++ replicate 8 0).

(** The loop invariant of [get_range_size_v6]: [size] is the exact
    difference while that is below 2^53, and at least 2^53 from then on. *)
Definition size_invariant (r : range_t) (i : nat) (size : double) : Prop :=
  (size = prefix_diff r i /\ prefix_diff r i < 2 ^ 53) \/
  (2 ^ 53 <= size /\ 2 ^ 53 <= prefix_diff r i).

(** Pairs of doubles whose sums fall on and between the integers a
    binary64 number can hold. *)
Definition rounding_samples : list (double * double) :=
  [(2 ^ 53, 1); (2 ^ 53, 2); (2 ^ 53 + 2, 1); (2 ^ 54, 2); (2 ^ 54, 3);
   (2 ^ 54 + 4, 2); (2 ^ 61, -255); (2 ^ 61, 255); (2 ^ 61 + 512, -256);
   (- 2 ^ 53, -1); (- 2 ^ 53 - 2, -1); (2 ^ 127, 1); (2 ^ 100 + 2 ^ 48, 2 ^ 47);
   (2 ^ 100 + 2 ^ 49, 2 ^ 47); (12345, 678); (2 ^ 53 - 1, 1)].

(** The whole IPv4 address space as one range. *)
Definition whole_v4 : range_t :=
  mk_range 0 (ipv4 0 0 0 0) (ipv4 255 255 255 255) 0 0 0.


(** ** The option [--sort] (dhcpd-pools.c) *)

(** What the handling of an option ends in: the state it leaves, or the
    process leaving through [error (EXIT_FAILURE, ...)]. *)
Inductive parsed :=
| Parsed (state : conf_t)
| Exited (status : Z) (message : error_message).

Definition set_sorts (state : conf_t) (p : list (option comparer_t)) : conf_t :=
  mk_conf (shared_nets state) (ranges state) (leases state) (ip_version state)
          p (reverse_order state).

(** [case 's'] of [parse_command_line_opts]: for each character of
    [optarg] an entry is put behind the last entry of [state->sorts] and
    its [func] is what [field_selector] returns for the character. *)
Fixpoint sort_option (state : conf_t) (optarg : string) : parsed :=
  match optarg with
  | EmptyString => Parsed state
  | String c rest =>
      match field_selector c with
      | Returned func => sort_option (set_sorts state (sorts state ++ [func])) rest
      | Fatal status message => Exited status message
      end
  end.

(** ** Notions for the order under a chain of comparators *)

(** The value [ret] that one entry of [state->sorts] gives in [merge]. *)
Definition sort_entry (state : conf_t) (func : option comparer_t)
    (left right : range_t) : Z :=
  match func with
  | None => strcmp (shared_net_name state left) (shared_net_name state right)
  | Some f => f (ip_version state) left right
  end.

(** The first value of the chain that is not zero, and zero if there is
    none: the comparison of two ranges key by key. *)
Fixpoint chain_compare (state : conf_t) (p : list (option comparer_t))
    (left right : range_t) : Z :=
  match p with
  | [] => 0
  | func :: next =>
      let ret := sort_entry state func left right in
      if ret =? 0 then chain_compare state next left right else ret
  end.

(** A three-way comparison is consistent on the ranges [P]: swapping the
    arguments swaps the sign, and "not after" is transitive. *)
Definition consistent (P : range_t -> Prop) (c : range_t -> range_t -> Z) : Prop :=
  (forall x y, P x -> P y -> Z.sgn (c y x) = - Z.sgn (c x y)) /\
  (forall x y z, P x -> P y -> P z -> c x y <= 0 -> c y z <= 0 -> c x z <= 0).

(** The array is in the order of the chain: [merge] puts no range before
    one that stands earlier in the array. *)
Definition ordered (state : conf_t) : list range_t -> Prop :=
  StronglySorted (fun x y => merge state y x = false).

(** A string of the model that is a C string: no character is NUL. *)
Fixpoint c_string (s : string) : bool :=
  match s with
  | EmptyString => true
  | String c s' => negb (Ascii.eqb c Ascii.zero) && c_string s'
  end.

(** None of the binary64 values that the comparators of [r] compare is a
    NaN. *)
Definition defined_keys (version : dhcp_version) (r : range_t) : Prop :=
  PrimFloat.is_nan (to_float (get_range_size version r)) = false /\
  PrimFloat.is_nan (to_float (count r)) = false /\
  PrimFloat.is_nan (ret_percent version r) = false /\
  PrimFloat.is_nan (to_float (touched r)) = false /\
  PrimFloat.is_nan (to_float (ret_tc r)) = false /\
  PrimFloat.is_nan (ret_tcperc version r) = false.

(** A range that every comparator can compare: its first address is one
    of the family, the name of its network is a C string and the keys are
    numbers. *)
Definition sortable (state : conf_t) (r : range_t) : Prop :=
  wf_addr (ip_version state) (first_ip r) /\
  c_string (shared_net_name state r) = true /\
  defined_keys (ip_version state) r.

(** The place of a binary64 value in the order of [<]: the class (-2 for
    minus infinity, -1 negative, 0 zero, 1 positive, 2 infinity), then the
    exponent and the mantissa, both negated for negative values. *)
Definition float_rank (f : spec_float) : Z * Z * Z :=
  match f with
  | S754_zero _ => (0, 0, 0)
  | S754_infinity s => (if s then -2 else 2, 0, 0)
  | S754_nan => (0, 0, 0)
  | S754_finite s m e => if s then (-1, - e, - Z.pos m) else (1, e, Z.pos m)
  end.

Definition rank_lt (a b : Z * Z * Z) : Prop :=
  a.1.1 < b.1.1 \/
  (a.1.1 = b.1.1 /\ (a.1.2 < b.1.2 \/ (a.1.2 = b.1.2 /\ a.2 < b.2))).

(** [--sort=npi --reverse] over four ranges of two networks. *)
Definition chain_state : conf_t :=
  mk_conf
    [mk_shared_network "All networks" 0 0 0 0; mk_shared_network "lan" 0 0 0 0;
     mk_shared_network "dmz" 0 0 0 0]
    [mk_range 1 (ipv4 10 0 1 0) (ipv4 10 0 1 9) 5 0 0;
     mk_range 2 (ipv4 10 0 2 0) (ipv4 10 0 2 9) 1 0 0;
     mk_range 1 (ipv4 10 0 0 0) (ipv4 10 0 0 9) 5 1 0;
     mk_range 2 (ipv4 10 0 3 0) (ipv4 10 0 3 19) 8 0 2]
    [] IPv4 [None; Some comp_percent; Some comp_ip] true.

(** ** Keywords of the lease file (other.c) *)

(** [enum prefix_t] *)
Inductive prefix_t :=
| PREFIX_LEASE
| PREFIX_BINDING_STATE_FREE
| PREFIX_BINDING_STATE_ABANDONED
| PREFIX_BINDING_STATE_EXPIRED
| PREFIX_BINDING_STATE_RELEASED
| PREFIX_BINDING_STATE_ACTIVE
| PREFIX_BINDING_STATE_BACKUP
| PREFIX_HARDWARE_ETHERNET
| NUM_OF_PREFIX.

(** A character constant, and the bytes of a string literal. *)
Definition chr (c : ascii) : Z := Z.of_N (N_of_ascii c).

Definition bytes_of (s : string) : list Z := map chr (list_ascii_of_string s).

(** A line is the buffer it is read into: [str[i]] is [byte_at str i],
    and the string in it ends before the first zero byte.  A buffer
    without a zero byte holds no string; [strlen] then counts all of it. *)
Fixpoint strlen (str : list Z) : nat :=
  match str with
  | [] => 0
  | b :: rest => if b =? 0 then 0 else S (strlen rest)
  end.

(** [!memcmp (literal, str, n)] *)
Definition starts_with (literal : string) (str : list Z) (n : nat) : bool :=
  memcmp (bytes_of literal) str n =? 0.

(** [set_ipv_functions]: the function pointers follow [ip_version]. *)
Definition set_ipv_functions (state : conf_t) (version : dhcp_version) : conf_t :=
  mk_conf (shared_nets state) (ranges state) (leases state) version
          (sorts state) (reverse_order state).

Definition xstrstr_init (state : conf_t) (str : list Z) : conf_t * prefix_t :=
  if starts_with "lease " str 6 then (set_ipv_functions state IPv4, PREFIX_LEASE)
  else if starts_with "  iaaddr " str 9 then (set_ipv_functions state IPv6, PREFIX_LEASE)
  else (state, NUM_OF_PREFIX).

(** The [switch] returns from the function or breaks: [Some] is a value
    returned from inside it. *)
Definition xstrstr_v4 (str : list Z) : prefix_t :=
  let len :=
    if (byte_at str 2 =? chr "b") || (byte_at str 2 =? chr "h") then strlen str
    else 0%nat in
  let returned :=
    if (15 <? len)%nat then
      let c := byte_at str 16 in
      if c =? chr "f" then
        if starts_with "  binding state free;" str 21
        then Some PREFIX_BINDING_STATE_FREE else None
      else if c =? chr "a" then
        if starts_with "  binding state active;" str 23
        then Some PREFIX_BINDING_STATE_ACTIVE
        else if starts_with "  binding state abandoned;" str 25
        then Some PREFIX_BINDING_STATE_ABANDONED else None
      else if c =? chr "e" then
        if starts_with "  binding state expired;" str 24
        then Some PREFIX_BINDING_STATE_EXPIRED else None
      else if c =? chr "r" then
        if starts_with "  binding state released;" str 25
        then Some PREFIX_BINDING_STATE_RELEASED else None
      else if c =? chr "b" then
        if starts_with "  binding state backup;" str 23
        then Some PREFIX_BINDING_STATE_BACKUP else None
      else if c =? chr "n" then
        if starts_with "  hardware ethernet" str 19
        then Some PREFIX_HARDWARE_ETHERNET else None
      else None
    else None in
  match returned with
  | Some prefix => prefix
  | None => if starts_with "lease " str 6 then PREFIX_LEASE else NUM_OF_PREFIX
  end.

Definition xstrstr_v6 (str : list Z) : prefix_t :=
  let len :=
    if (byte_at str 4 =? chr "b") || (byte_at str 2 =? chr "h") then strlen str
    else 0%nat in
  let returned :=
    if (17 <? len)%nat then
      let c := byte_at str 18 in
      if c =? chr "f" then
        if starts_with "    binding state free;" str 23
        then Some PREFIX_BINDING_STATE_FREE else None
      else if c =? chr "a" then
        if starts_with "    binding state active;" str 25
        then Some PREFIX_BINDING_STATE_ACTIVE
        else if starts_with "    binding state abandoned;" str 27
        then Some PREFIX_BINDING_STATE_ABANDONED else None
      else if c =? chr "e" then
        if starts_with "    binding state expired;" str 26
        then Some PREFIX_BINDING_STATE_EXPIRED else None
      else if c =? chr "r" then
        if starts_with "    binding state released;" str 27
        then Some PREFIX_BINDING_STATE_RELEASED else None
      else if c =? chr "b" then
        if starts_with "    binding state backup;" str 25
        then Some PREFIX_BINDING_STATE_BACKUP else None
      else if c =? chr "n" then
        if starts_with "  hardware ethernet" str 19
        then Some PREFIX_HARDWARE_ETHERNET else None
      else None
    else None in
  match returned with
  | Some prefix => prefix
  | None => if starts_with "  iaaddr " str 9 then PREFIX_LEASE else NUM_OF_PREFIX
  end.

(** The function pointer [xstrstr]. *)
Definition xstrstr (state : conf_t) (str : list Z) : conf_t * prefix_t :=
  match ip_version state with
  | IPv4 => (state, xstrstr_v4 str)
  | IPv6 => (state, xstrstr_v6 str)
  | IPvUNKNOWN => xstrstr_init state str
  end.

(** ** Notions for the keywords *)

(** The first keyword of a table that the line begins with; each entry is
    a keyword, the number of its bytes that count, and its value. *)
Fixpoint keyword_of (table : list (string * nat * prefix_t)) (str : list Z) : prefix_t :=
  match table with
  | [] => NUM_OF_PREFIX
  | (literal, n, prefix) :: rest =>
      if starts_with literal str n then prefix else keyword_of rest str
  end.

Definition keywords_v4 : list (string * nat * prefix_t) :=
  [("  binding state free;"%string, 21%nat, PREFIX_BINDING_STATE_FREE);
   ("  binding state active;"%string, 23%nat, PREFIX_BINDING_STATE_ACTIVE);
   ("  binding state abandoned"%string, 25%nat, PREFIX_BINDING_STATE_ABANDONED);
   ("  binding state expired;"%string, 24%nat, PREFIX_BINDING_STATE_EXPIRED);
   ("  binding state released;"%string, 25%nat, PREFIX_BINDING_STATE_RELEASED);
   ("  binding state backup;"%string, 23%nat, PREFIX_BINDING_STATE_BACKUP);
   ("  hardware ethernet"%string, 19%nat, PREFIX_HARDWARE_ETHERNET);
   ("lease "%string, 6%nat, PREFIX_LEASE)].

(** No entry for the hardware address. *)
Definition keywords_v6 : list (string * nat * prefix_t) :=
  [("    binding state free;"%string, 23%nat, PREFIX_BINDING_STATE_FREE);
   ("    binding state active;"%string, 25%nat, PREFIX_BINDING_STATE_ACTIVE);
   ("    binding state abandoned"%string, 27%nat, PREFIX_BINDING_STATE_ABANDONED);
   ("    binding state expired;"%string, 26%nat, PREFIX_BINDING_STATE_EXPIRED);
   ("    binding state released;"%string, 27%nat, PREFIX_BINDING_STATE_RELEASED);
   ("    binding state backup;"%string, 25%nat, PREFIX_BINDING_STATE_BACKUP);
   ("  iaaddr "%string, 9%nat, PREFIX_LEASE)].

(** The buffer that holds the line [s], with [n] bytes behind its end. *)
Definition line (s : string) (n : nat) : list Z := bytes_of s ++ replicate (S n) 0.

(** ** The option [--limit] (dhcpd-pools.c) *)

(** What [return_limit] ends in: the limit it returns, or the process
    leaving through [error (EXIT_FAILURE, ...)]. *)
Inductive limit :=
| Limit (value : Z)
| Illegal (status : Z).

Definition return_limit (c : ascii) : limit :=
  if (chr "0" <=? chr c) && (chr c <? chr "8") then Limit (chr c - chr "0")
  else Illegal EXIT_FAILURE.

(** [optarg[i]]; the byte behind the last character is the NUL. *)
Definition char_at (optarg : string) (i : nat) : ascii :=
  match String.get i optarg with
  | Some c => c
  | None => Ascii.zero
  end.

(** [case 'L'] of [parse_command_line_opts]: the values stored in
    [state->header_limit] and [state->number_limit]. *)
Definition limit_option (optarg : string) : option (Z * Z) :=
  match return_limit (char_at optarg 0) with
  | Limit header_limit =>
      match return_limit (char_at optarg 1) with
      | Limit number_limit => Some (header_limit, number_limit)
      | Illegal _ => None
      end
  | Illegal _ => None
  end.

(** The character of the digit [d]. *)
Definition digit (d : Z) : ascii := ascii_of_N (Z.to_N (chr "0" + d)).
(** * Properties *)

(** ** Rounding *)

Section Rounding.

Lemma rnd53_small x : Z.abs x < 2 ^ 53 -> rnd53 x = x.
Proof.
  intros H. unfold rnd53.
  destruct (Z.ltb_spec (Z.abs x) (2 ^ 53)); [reflexivity | lia].
Qed.

(** A 53-bit integer times a power of two is a double. *)
Lemma rnd53_scaled m k :
  Z.abs m < 2 ^ 53 -> 0 <= k -> rnd53 (m * 2 ^ k) = m * 2 ^ k.
Proof.
  intros Hm Hk. unfold rnd53.
  destruct (Z.ltb_spec (Z.abs (m * 2 ^ k)) (2 ^ 53)) as [|Hbig]; [reflexivity|].
  assert (Hpk : 0 < 2 ^ k) by (apply Z.pow_pos_nonneg; lia).
  rewrite Z.abs_mul, (Z.abs_eq (2 ^ k)) in * by lia.
  assert (Hm0 : 0 < Z.abs m) by nia.
  rewrite Z.log2_mul_pow2 by lia.
  assert (Hl : Z.log2 (Z.abs m) < 53) by (apply Z.log2_lt_pow2; lia).
  assert (He : 53 <= k + Z.log2 (Z.abs m)).
  { rewrite <- Z.log2_mul_pow2 by lia. apply Z.log2_le_pow2; [nia | lia]. }
  set (e := k + Z.log2 (Z.abs m) - 52) in *.
  assert (Hpe : 0 < 2 ^ e) by (apply Z.pow_pos_nonneg; lia).
  assert (Hhalf : 0 < 2 ^ (e - 1)) by (apply Z.pow_pos_nonneg; lia).
  assert (Hsplit : Z.abs m * 2 ^ k = Z.abs m * 2 ^ (k - e) * 2 ^ e).
  { rewrite <- Z.mul_assoc, <- Z.pow_add_r by lia. do 2 f_equal. lia. }
  assert (Hmod : (Z.abs m * 2 ^ k) mod 2 ^ e = 0)
    by (rewrite Hsplit; apply Z.mod_mul; lia).
  assert (Hdiv : Z.abs m * 2 ^ k / 2 ^ e = Z.abs m * 2 ^ (k - e))
    by (rewrite Hsplit; apply Z.div_mul; lia).
  rewrite Hmod, Hdiv.
  destruct (Z.ltb_spec 0 (2 ^ (e - 1))); [|lia].
  rewrite <- Hsplit, Z.sgn_mul, (Z.sgn_pos (2 ^ k)) by lia.
  rewrite Z.mul_1_r, Z.mul_assoc, (Z.mul_comm (Z.sgn m)), Z.abs_sgn. reflexivity.
Qed.

Lemma rnd53_exact x : Z.abs x <= 2 ^ 53 -> rnd53 x = x.
Proof.
  intros H. destruct (Z.eq_dec (Z.abs x) (2 ^ 53)) as [E|E].
  - destruct (Z.abs_spec x) as [[_ Hx]|[_ Hx]].
    + replace x with (2 ^ 52 * 2 ^ 1) by lia. apply rnd53_scaled; lia.
    + replace x with (- 2 ^ 52 * 2 ^ 1) by lia. apply rnd53_scaled; lia.
  - apply rnd53_small. lia.
Qed.

(** Rounding does not go below a power of two that the argument reaches. *)
Lemma rnd53_ge_pow2 x n : 53 <= n -> 2 ^ n <= x -> 2 ^ n <= rnd53 x.
Proof.
  intros Hn Hx. unfold rnd53.
  assert (H53 : 2 ^ 53 <= 2 ^ n) by (apply Z.pow_le_mono_r; lia).
  rewrite (Z.abs_eq x) by lia.
  destruct (Z.ltb_spec x (2 ^ 53)); [lia|].
  assert (Hlog : n <= Z.log2 x) by (apply Z.log2_le_pow2; lia).
  set (e := Z.log2 x - 52).
  assert (Hpe : 0 < 2 ^ e) by (apply Z.pow_pos_nonneg; lia).
  assert (Hq : 2 ^ 52 <= x / 2 ^ e).
  { apply Z.div_le_lower_bound; [lia|].
    rewrite Z.mul_comm, <- Z.pow_add_r by lia.
    replace (52 + e) with (Z.log2 x) by lia.
    apply Z.log2_spec. lia. }
  assert (Hq' : x / 2 ^ e <=
    (if x mod 2 ^ e <? 2 ^ (e - 1) then x / 2 ^ e
     else if 2 ^ (e - 1) <? x mod 2 ^ e then x / 2 ^ e + 1
     else if Z.even (x / 2 ^ e) then x / 2 ^ e else x / 2 ^ e + 1)).
  { repeat match goal with |- context [if ?b then _ else _] => destruct b end; lia. }
  rewrite Z.sgn_pos, Z.mul_1_l by lia.
  assert (2 ^ n <= 2 ^ Z.log2 x) by (apply Z.pow_le_mono_r; lia).
  assert (2 ^ Z.log2 x = 2 ^ 52 * 2 ^ e).
  { rewrite <- Z.pow_add_r by lia. f_equal. lia. }
  nia.
Qed.

Lemma dadd_exact a b : Z.abs (a + b) <= 2 ^ 53 -> dadd a b = a + b.
Proof. apply rnd53_exact. Qed.

Lemma dinc_exact a : 0 <= a < 2 ^ 53 -> dinc a = a + 1.
Proof. intros H. apply dadd_exact. lia. Qed.

(** On the samples the rounding of the model is that of primitive
    binary64 addition. *)
Lemma rnd53_binary64_samples :
  Forall (fun p => PrimFloat.eqb (PrimFloat.add (to_float p.1) (to_float p.2))
                                 (to_float (dadd p.1 p.2)) = true)
         rounding_samples.
Proof. repeat constructor. Qed.

End Rounding.

(** ** The sort loops compute the list functions *)

Section SortLoops.

Variable state : conf_t.

Lemma insert_back_length hold before :
  length (insert_back state hold before) = S (length before).
Proof.
  induction before as [|x rest IH]; simpl; [reflexivity|].
  destruct (merge state x hold); simpl; [reflexivity | now rewrite IH].
Qed.

(** The array is [before], a free slot, and [post]; the shifting loop
    started at the slot leaves [hold] inserted into [before]. *)
Lemma insertion_shift_spec before slot post hold :
  insertion_shift state (before ++ slot :: post) hold (length before)
  = rev (insert_back state hold (rev before)) ++ post.
Proof.
  revert slot post. induction before as [|x before IH] using rev_ind; intros slot post.
  - reflexivity.
  - rewrite length_app, Nat.add_1_r. simpl insertion_shift.
    rewrite <- app_assoc. simpl app.
    rewrite (list_lookup_middle before (slot :: post) x (length before) eq_refl).
    rewrite rev_app_distr. simpl rev. simpl insert_back.
    destruct (merge state x hold).
    + simpl rev. rewrite rev_involutive.
      change (before ++ x :: slot :: post) with (before ++ [x] ++ slot :: post).
      rewrite app_assoc.
      rewrite (insert_app_r_alt (before ++ [x]) (slot :: post) (S (length before)))
        by (rewrite length_app; simpl; lia).
      replace (S (length before) - length (before ++ [x]))%nat with 0%nat
        by (rewrite length_app; simpl; lia).
      simpl. now rewrite <- !app_assoc.
    + rewrite (insert_app_r_alt before (x :: slot :: post) (S (length before))) by lia.
      replace (S (length before) - length before)%nat with 1%nat by lia.
      simpl. rewrite IH. simpl rev. now rewrite <- app_assoc.
Qed.

Lemma insertion_loop_spec rest : forall before,
  insertion_loop state (before ++ rest) (length before) (length rest)
  = insert_all state (rev before) rest.
Proof.
  induction rest as [|hold rest IH]; intros before; simpl.
  - now rewrite app_nil_r, rev_involutive.
  - rewrite (list_lookup_middle before rest hold (length before) eq_refl).
    rewrite insertion_shift_spec.
    specialize (IH (rev (insert_back state hold (rev before)))).
    rewrite length_rev, insert_back_length, length_rev, rev_involutive in IH.
    exact IH.
Qed.

Lemma merge_runs_nil_r lo : merge_runs state lo [] = lo.
Proof. now destruct lo. Qed.

Lemma merge_runs_cons a lo b hi :
  merge_runs state (a :: lo) (b :: hi)
  = if merge state a b then a :: merge_runs state lo (b :: hi)
    else b :: merge_runs state (a :: lo) hi.
Proof. reflexivity. Qed.

(** The merge loops, started anywhere in the two runs, append the merge
    of what is left of them. *)
Lemma merge_loop_spec lo hi : forall n i j temp,
  (i <= length lo)%nat -> (j <= length hi)%nat ->
  n = ((length lo - i) + (length hi - j))%nat ->
  merge_loop state (lo ++ hi) (length lo) (length lo + length hi)
             i (length lo + j) temp n
  = temp ++ merge_runs state (drop i lo) (drop j hi).
Proof.
  induction n as [|n IH]; intros i j temp Hi Hj Hn.
  - simpl. rewrite (drop_ge lo), (drop_ge hi) by lia. simpl. now rewrite app_nil_r.
  - simpl merge_loop.
    destruct (Nat.ltb_spec i (length lo)) as [Hil|Hil];
      destruct (Nat.ltb_spec (length lo + j) (length lo + length hi)) as [Hjl|Hjl];
      simpl andb; cbv iota.
    + destruct (lookup_lt_is_Some_2 lo i Hil) as [a Ha].
      destruct (lookup_lt_is_Some_2 hi j ltac:(lia)) as [b Hb].
      rewrite (lookup_app_l lo hi i) by lia. rewrite Ha.
      rewrite (lookup_app_r lo hi (length lo + j)) by lia.
      replace (length lo + j - length lo)%nat with j by lia. rewrite Hb.
      rewrite (drop_S lo a i Ha), (drop_S hi b j Hb), merge_runs_cons.
      destruct (merge state a b).
      * rewrite IH by lia. rewrite <- app_assoc. simpl.
        now rewrite (drop_S hi b j Hb).
      * replace (S (length lo + j)) with (length lo + S j)%nat by lia.
        rewrite IH by lia. rewrite <- app_assoc. simpl.
        now rewrite (drop_S lo a i Ha).
    + destruct (lookup_lt_is_Some_2 lo i Hil) as [a Ha].
      rewrite (lookup_app_l lo hi i) by lia. rewrite Ha.
      rewrite IH by lia. rewrite <- app_assoc. simpl.
      rewrite (drop_S lo a i Ha), (drop_ge hi j) by lia.
      now rewrite !merge_runs_nil_r.
    + destruct (lookup_lt_is_Some_2 hi j ltac:(lia)) as [b Hb].
      rewrite (lookup_app_r lo hi (length lo + j)) by lia.
      replace (length lo + j - length lo)%nat with j by lia. rewrite Hb.
      replace (S (length lo + j)) with (length lo + S j)%nat by lia.
      rewrite IH by lia. rewrite <- app_assoc. simpl.
      rewrite (drop_S hi b j Hb), (drop_ge lo i) by lia. reflexivity.
    + lia.
Qed.

Lemma insert_back_perm hold before :
  insert_back state hold before ≡ₚ hold :: before.
Proof.
  induction before as [|x rest IH]; simpl; [reflexivity|].
  destruct (merge state x hold); [reflexivity|].
  rewrite IH. apply Permutation_swap.
Qed.

Lemma insert_all_perm rest : forall before,
  insert_all state before rest ≡ₚ before ++ rest.
Proof.
  induction rest as [|hold rest IH]; intros before; simpl.
  - rewrite app_nil_r. symmetry. apply Permutation_rev.
  - rewrite IH, insert_back_perm. apply Permutation_middle.
Qed.

Lemma merge_runs_perm lo : forall hi, merge_runs state lo hi ≡ₚ lo ++ hi.
Proof.
  induction lo as [|a lo IHlo]; intros hi; [reflexivity|].
  induction hi as [|b hi IHhi].
  - now rewrite merge_runs_nil_r, app_nil_r.
  - rewrite merge_runs_cons. destruct (merge state a b).
    + now rewrite IHlo.
    + rewrite IHhi. apply (Permutation_middle (a :: lo) hi b).
Qed.

End SortLoops.

(** ** The merge sort as a whole *)

Section MergeSort.

Variable state : conf_t.

Lemma insertion_sort_spec orig :
  insertion_loop state orig 0 (length orig) = insert_all state [] orig.
Proof. apply (insertion_loop_spec state orig []). Qed.

Lemma merge_step_spec lo hi :
  merge_loop state (lo ++ hi) (length lo) (length lo + length hi) 0 (length lo) []
             (length lo + length hi)
  = merge_runs state lo hi.
Proof.
  pose proof (merge_loop_spec state lo hi (length lo + length hi) 0 0 []) as H.
  rewrite Nat.add_0_r in H. rewrite H by lia. reflexivity.
Qed.

Lemma half_lengths (orig : list range_t) :
  length (take (length orig / 2) orig) = (length orig / 2)%nat /\
  (length (take (length orig / 2) orig) + length (drop (length orig / 2) orig)
   = length orig)%nat.
Proof.
  pose proof (Nat.div_mod_eq (length orig) 2).
  rewrite length_take, length_drop. lia.
Qed.

Lemma mergesort_ranges_perm orig : mergesort_ranges state orig ≡ₚ orig.
Proof.
  funelim (mergesort_ranges state orig).
  - rewrite insertion_sort_spec. apply (insert_all_perm state orig []).
  - destruct (half_lengths orig) as [Hl Hs].
    set (lo := mergesort_ranges state (take (length orig / 2) orig)) in *.
    set (hi := mergesort_ranges state (drop (length orig / 2) orig)) in *.
    assert (Hlo : length lo = (length orig / 2)%nat)
      by (rewrite <- Hl; apply Permutation_length; assumption).
    assert (Hhi : (length lo + length hi = length orig)%nat).
    { rewrite <- Hs. f_equal; apply Permutation_length; assumption. }
    rewrite <- Hlo, <- Hhi, merge_step_spec, merge_runs_perm.
    rewrite H, H0. now rewrite take_drop.
Qed.

(** [mergesort_ranges] in terms of the list functions. *)
Lemma mergesort_ranges_lists orig :
  mergesort_ranges state orig =
  if decide (length orig < MIN_MERGE_SIZE)%nat then insert_all state [] orig
  else merge_runs state (mergesort_ranges state (take (length orig / 2) orig))
                        (mergesort_ranges state (drop (length orig / 2) orig)).
Proof.
  funelim (mergesort_ranges state orig); rewrite Heq.
  - apply insertion_sort_spec.
  - clear H H0 Heq. destruct (half_lengths orig) as [Hl Hs].
    pose proof (Permutation_length (mergesort_ranges_perm (take (length orig / 2) orig))) as Hlo.
    pose proof (Permutation_length (mergesort_ranges_perm (drop (length orig / 2) orig))) as Hhi.
    set (lo := mergesort_ranges state (take (length orig / 2) orig)) in *.
    set (hi := mergesort_ranges state (drop (length orig / 2) orig)) in *.
    replace (length orig / 2)%nat with (length lo) at 1 2 by lia.
    replace (length orig) with (length lo + length hi)%nat at 1 2 by lia.
    apply merge_step_spec.
Qed.

End MergeSort.

(** ** Addresses as numbers *)

Section AddressOrder.

Lemma be_value_acc bytes : forall acc,
  fold_left (fun acc b => acc * 256 + b) bytes acc
  = acc * 256 ^ Z.of_nat (length bytes) + be_value bytes.
Proof.
  unfold be_value. induction bytes as [|b bytes IH]; intros acc.
  - simpl. lia.
  - cbn [fold_left length]. rewrite IH, (IH (0 * 256 + b)).
    rewrite Nat2Z.inj_succ, Z.pow_succ_r by lia. lia.
Qed.

Lemma be_value_cons b bytes :
  be_value (b :: bytes) = b * 256 ^ Z.of_nat (length bytes) + be_value bytes.
Proof. unfold be_value at 1. cbn [fold_left]. rewrite be_value_acc. lia. Qed.

Lemma be_value_snoc bytes b : be_value (bytes ++ [b]) = be_value bytes * 256 + b.
Proof. unfold be_value. now rewrite fold_left_app. Qed.

Lemma be_value_bound bytes :
  Forall is_byte bytes -> 0 <= be_value bytes < 256 ^ Z.of_nat (length bytes).
Proof.
  induction 1 as [|b bytes Hb _ IH].
  - cbn. lia.
  - rewrite be_value_cons. cbn [length].
    rewrite Nat2Z.inj_succ, Z.pow_succ_r by lia. unfold is_byte in Hb. nia.
Qed.

(** [memcmp] orders equally long byte sequences as the numbers they denote. *)
Lemma memcmp_sgn n : forall a b,
  length a = n -> length b = n -> Forall is_byte a -> Forall is_byte b ->
  Z.sgn (memcmp a b n) = Z.sgn (be_value a - be_value b).
Proof.
  induction n as [|n IH]; intros a b La Lb Ha Hb.
  - destruct a, b; try discriminate. reflexivity.
  - destruct a as [|x a], b as [|y b]; try discriminate.
    inversion Ha as [|? ? Hx Ha']; inversion Hb as [|? ? Hy Hb']; subst.
    injection La as La. injection Lb as Lb.
    cbn [memcmp]. rewrite !be_value_cons, La, Lb.
    pose proof (be_value_bound a Ha') as Ba. pose proof (be_value_bound b Hb') as Bb.
    rewrite La in Ba. rewrite Lb in Bb.
    destruct (Z.eqb_spec x y) as [->|Hne].
    + rewrite (IH a b) by assumption. f_equal. lia.
    + assert (0 < 256 ^ Z.of_nat n) by (apply Z.pow_pos_nonneg; lia).
      destruct (Z.lt_total x y) as [Hlt|[Heq|Hgt]]; [|contradiction|].
      * rewrite !Z.sgn_neg; [reflexivity | nia | lia].
      * rewrite !Z.sgn_pos; [reflexivity | nia | lia].
Qed.

(** In every family the comparison has the sign of the difference of the
    numbers the two addresses denote. *)
Lemma ipcomp_sgn version a b :
  wf_addr version a -> wf_addr version b ->
  Z.sgn (ipcomp version a b) = Z.sgn (addr_value version a - addr_value version b).
Proof.
  destruct version; cbn [ipcomp wf_addr addr_value].
  - reflexivity.
  - intros _ _. unfold ipcomp_v4.
    destruct (Z.ltb_spec (v4 a) (v4 b)); [rewrite (Z.sgn_neg (v4 a - v4 b)) by lia; reflexivity|].
    destruct (Z.ltb_spec (v4 b) (v4 a)); [rewrite (Z.sgn_pos (v4 a - v4 b)) by lia; reflexivity|].
    replace (v4 a - v4 b) with 0 by lia. reflexivity.
  - intros [La Ha] [Lb Hb]. now apply memcmp_sgn.
Qed.

Lemma ipcomp_lt version a b :
  wf_addr version a -> wf_addr version b ->
  ipcomp version a b < 0 <-> addr_value version a < addr_value version b.
Proof. intros Ha Hb. pose proof (ipcomp_sgn version a b Ha Hb). lia. Qed.

Lemma ipcomp_le version a b :
  wf_addr version a -> wf_addr version b ->
  ipcomp version a b <= 0 <-> addr_value version a <= addr_value version b.
Proof. intros Ha Hb. pose proof (ipcomp_sgn version a b Ha Hb). lia. Qed.

Lemma leasecomp_ipcomp version a b :
  leasecomp version a b = ipcomp version (ip a) (ip b).
Proof. now destruct version. Qed.

End AddressOrder.

(** ** The sort puts the ranges in order

    For a chain under which [merge] is "strictly smaller" for some numeric
    key, on ranges satisfying [P]. *)

Section Sortedness.

Variable state : conf_t.
Variable key : range_t -> Z.
Variable P : range_t -> Prop.
Hypothesis merge_key :
  forall x y, P x -> P y -> (merge state x y = true <-> key x < key y).


Lemma descending_rev l : descending key l -> ascending key (rev l).
Proof.
  induction 1 as [|x l Hl IH Hx]; simpl; [constructor|].
  apply StronglySorted_app_2; [|assumption|repeat constructor].
  intros x1 x2 H1 H2. apply list_elem_of_singleton in H2 as ->.
  rewrite list_elem_of_In, <- in_rev, <- list_elem_of_In in H1.
  rewrite Forall_forall in Hx. now apply Hx.
Qed.

Lemma ascending_rev l : ascending key l -> descending key (rev l).
Proof.
  induction 1 as [|x l Hl IH Hx]; simpl; [constructor|].
  apply StronglySorted_app_2; [|assumption|repeat constructor].
  intros x1 x2 H1 H2. apply list_elem_of_singleton in H2 as ->.
  rewrite list_elem_of_In, <- in_rev, <- list_elem_of_In in H1.
  rewrite Forall_forall in Hx. now apply Hx.
Qed.

Lemma insert_back_descending hold before :
  P hold -> Forall P before -> descending key before ->
  descending key (insert_back state hold before).
Proof.
  intros Hh HP Hd. induction Hd as [|x rest Hrest IH Hx]; simpl.
  - repeat constructor.
  - inversion HP as [|? ? Px HP']; subst.
    destruct (merge state x hold) eqn:Hm.
    + apply merge_key in Hm; [|assumption..].
      constructor; [now constructor|].
      constructor; [lia|]. eapply Forall_impl; [exact Hx|]. simpl. intros; lia.
    + assert (key hold <= key x).
      { destruct (Z.lt_ge_cases (key x) (key hold)) as [Hlt|]; [|lia].
        apply merge_key in Hlt; [congruence | assumption..]. }
      constructor; [now apply IH|].
      rewrite insert_back_perm. now constructor.
Qed.

Lemma insert_all_ascending rest : forall before,
  Forall P before -> Forall P rest -> descending key before ->
  ascending key (insert_all state before rest).
Proof.
  induction rest as [|hold rest IH]; intros before Hb Hr Hd; simpl.
  - now apply descending_rev.
  - inversion Hr; subst. apply IH; [|assumption|].
    + rewrite insert_back_perm. now constructor.
    + now apply insert_back_descending.
Qed.

Lemma merge_runs_ascending lo : forall hi,
  Forall P lo -> Forall P hi -> ascending key lo -> ascending key hi ->
  ascending key (merge_runs state lo hi).
Proof.
  induction lo as [|a lo IHlo]; intros hi Plo Phi Hlo Hhi; [assumption|].
  induction hi as [|b hi IHhi]; [now rewrite merge_runs_nil_r|].
  rewrite merge_runs_cons.
  inversion Plo as [|? ? Pa Plo']; inversion Phi as [|? ? Pb Phi']; subst.
  inversion Hlo as [|? ? Hlo' Ha]; inversion Hhi as [|? ? Hhi' Hb]; subst.
  destruct (merge state a b) eqn:Hm.
  - apply merge_key in Hm; [|assumption..].
    constructor; [now apply IHlo|].
    rewrite merge_runs_perm. apply Forall_app. split; [assumption|].
    constructor; [lia|]. eapply Forall_impl; [exact Hb|]. simpl. intros; lia.
  - assert (key b <= key a).
    { destruct (Z.lt_ge_cases (key a) (key b)) as [Hlt|]; [|lia].
      apply merge_key in Hlt; [congruence | assumption..]. }
    constructor; [now apply IHhi|].
    rewrite merge_runs_perm. apply Forall_app. split; [|assumption].
    constructor; [lia|]. eapply Forall_impl; [exact Ha|]. simpl. intros; lia.
Qed.

Lemma mergesort_ranges_ascending orig :
  Forall P orig -> ascending key (mergesort_ranges state orig).
Proof.
  remember (length orig) as n eqn:Hn. revert orig Hn.
  induction n as [n IH] using lt_wf_ind. intros orig Hn HP.
  rewrite mergesort_ranges_lists. destruct (decide _) as [Hs|Hs].
  - apply insert_all_ascending; [constructor | assumption | constructor].
  - unfold MIN_MERGE_SIZE in Hs. destruct (half_lengths orig) as [Hl Hd].
    assert (Forall P (take (length orig / 2) orig)) by now apply Forall_take.
    assert (Forall P (drop (length orig / 2) orig)) by now apply Forall_drop.
    pose proof (Nat.div_mod_eq (length orig) 2).
    pose proof (Nat.mod_upper_bound (length orig) 2).
    apply merge_runs_ascending.
    + now rewrite mergesort_ranges_perm.
    + now rewrite mergesort_ranges_perm.
    + eapply IH; [|reflexivity|assumption]. lia.
    + eapply IH; [|reflexivity|assumption]. lia.
Qed.

End Sortedness.

(** ** Reversal *)

Section Flip.

Lemma flip_ranges_loop_spec (rs : list range_t) : forall n tmp,
  (n <= length rs)%nat ->
  flip_ranges_loop rs (n - 1) n tmp = tmp ++ rev (take n rs).
Proof.
  induction n as [|n IH]; intros tmp Hn.
  - simpl. now rewrite app_nil_r.
  - cbn [flip_ranges_loop]. replace (S n - 1)%nat with n by lia.
    destruct (lookup_lt_is_Some_2 rs n ltac:(lia)) as [r Hr]. rewrite Hr.
    replace (Nat.pred n) with (n - 1)%nat by lia.
    rewrite IH by lia. rewrite (take_S_r rs n r Hr), rev_app_distr.
    simpl. now rewrite <- app_assoc.
Qed.

Lemma flip_ranges_rev state :
  ranges (flip_ranges state) = rev (ranges state).
Proof.
  unfold flip_ranges, num_ranges. cbn [ranges set_ranges].
  rewrite flip_ranges_loop_spec by lia. now rewrite firstn_all.
Qed.

End Flip.

(** ** Ties under the sort *)

Section Ties.

Variable state : conf_t.

Lemma chain_tie_merge x y : chain_tie state x y -> merge state x y = false.
Proof.
  unfold chain_tie, merge. induction 1 as [|func p Hf _ IH]; [reflexivity|].
  cbn [merge_sorts]. destruct func; rewrite Hf; exact IH.
Qed.

Lemma insert_back_tie hold before :
  (forall x, x ∈ before -> merge state x hold = false) ->
  insert_back state hold before = before ++ [hold].
Proof.
  induction before as [|x rest IH]; intros H; simpl; [reflexivity|].
  rewrite (H x) by constructor. f_equal. apply IH.
  intros z Hz. apply H. now constructor.
Qed.

Lemma insert_all_tie rest : forall before,
  (forall x y, x ∈ before ++ rest -> y ∈ before ++ rest -> merge state x y = false) ->
  insert_all state before rest = rev rest ++ rev before.
Proof.
  induction rest as [|hold rest IH]; intros before H; simpl; [reflexivity|].
  rewrite insert_back_tie.
  - rewrite IH.
    + rewrite rev_app_distr. simpl. now rewrite <- app_assoc.
    + intros x y Hx Hy. rewrite <- app_assoc in Hx, Hy. now apply H.
  - intros x Hx. apply H; rewrite elem_of_app; [now left|right; constructor].
Qed.

Lemma merge_runs_tie lo : forall hi,
  (forall a b, a ∈ lo -> b ∈ hi -> merge state a b = false) ->
  merge_runs state lo hi = hi ++ lo.
Proof.
  destruct lo as [|a lo]; intros hi H; [now rewrite app_nil_r|].
  induction hi as [|b hi IH]; [reflexivity|].
  rewrite merge_runs_cons, (H a b) by constructor.
  simpl. f_equal. apply IH. intros x y Hx Hy. apply H; [assumption|now constructor].
Qed.

Lemma mergesort_ranges_tie orig :
  (forall x y, x ∈ orig -> y ∈ orig -> merge state x y = false) ->
  mergesort_ranges state orig = rev orig.
Proof.
  remember (length orig) as n eqn:Hn. revert orig Hn.
  induction n as [n IH] using lt_wf_ind. intros orig Hn H.
  rewrite mergesort_ranges_lists. destruct (decide _) as [Hs|Hs].
  - rewrite insert_all_tie by assumption. simpl. now rewrite app_nil_r.
  - unfold MIN_MERGE_SIZE in Hs. destruct (half_lengths orig) as [Hl Hd].
    pose proof (Nat.div_mod_eq (length orig) 2).
    pose proof (Nat.mod_upper_bound (length orig) 2).
    assert (Hin : forall x, x ∈ take (length orig / 2) orig \/
                            x ∈ drop (length orig / 2) orig -> x ∈ orig).
    { intros x Hx. rewrite <- (take_drop (length orig / 2) orig), elem_of_app.
      exact Hx. }
    rewrite (IH (length (take (length orig / 2) orig))), (IH (length (drop (length orig / 2) orig)));
      try reflexivity; try lia.
    + rewrite merge_runs_tie.
      * rewrite <- rev_app_distr. now rewrite take_drop.
      * intros a b Ha Hb. rewrite list_elem_of_In, <- in_rev, <- list_elem_of_In in Ha, Hb.
        apply H; apply Hin; auto.
    + intros x y Hx Hy. apply H; apply Hin; auto.
    + intros x y Hx Hy. apply H; apply Hin; auto.
Qed.

End Ties.

(** ** The sort engine *)


(** C7: a character that is not one of the sort keys n, i, m, c, p, t, T, e
    makes [field_selector] leave through a fatal error and return nothing;
    each sort key returns its comparator, and the NULL returned for n makes
    [merge] compare the names of the shared networks. *)
Theorem field_selector_keys :
  (forall c, ~ In c sort_keys ->
     exists message, field_selector c = Fatal EXIT_FAILURE message) /\
  field_selector "n" = Returned None /\
  field_selector "i" = Returned (Some comp_ip) /\
  field_selector "m" = Returned (Some comp_max) /\
  field_selector "c" = Returned (Some comp_cur) /\
  field_selector "p" = Returned (Some comp_percent) /\
  field_selector "t" = Returned (Some comp_touched) /\
  field_selector "T" = Returned (Some comp_tc) /\
  field_selector "e" = Returned (Some comp_tcperc) /\
  (forall state left right,
     sorts state = [None] ->
     merge state left right
     = (strcmp (shared_net_name state left) (shared_net_name state right) <? 0)).
Proof.
  split; [|repeat split].
  - intros c Hc.
    destruct c as [[] [] [] [] [] [] [] []];
      try (eexists; reflexivity); exfalso; apply Hc; simpl; tauto.
  - intros state left right Hs. unfold merge. rewrite Hs. cbn [merge_sorts].
    destruct (Z.ltb_spec 0 (strcmp (shared_net_name state left) (shared_net_name state right)));
      destruct (Z.ltb_spec (strcmp (shared_net_name state left) (shared_net_name state right)) 0);
      try reflexivity; lia.
Qed.

Lemma field_selector_keys_witness :
  ~ In "x"%char sort_keys /\
  exists message, field_selector "x" = Fatal EXIT_FAILURE message.
Proof.
  assert (H : ~ In "x"%char sort_keys).
  { simpl. intros [H|[H|[H|[H|[H|[H|[H|[H|[]]]]]]]]]; discriminate H. }
  split; [exact H | exact (proj1 field_selector_keys "x"%char H)].
Defined.

(** C10: whatever the chain of comparators, the array after
    [mergesort_ranges] is a permutation of the array before it: no range is
    lost, duplicated or changed. *)
Theorem mergesort_ranges_permutation state orig :
  mergesort_ranges state orig ≡ₚ orig.
Proof. apply mergesort_ranges_perm. Qed.

Lemma precedes_rev rs x y : precedes rs x y -> precedes (rev rs) y x.
Proof.
  intros (i & j & Hij & Hx & Hy).
  pose proof (lookup_lt_Some _ _ _ Hx) as Hi. pose proof (lookup_lt_Some _ _ _ Hy) as Hj.
  exists (length rs - S j)%nat, (length rs - S i)%nat.
  rewrite rev_alt. change (rev_append rs []) with (reverse rs).
  rewrite !reverse_lookup by lia.
  replace (length rs - S (length rs - S j))%nat with j by lia.
  replace (length rs - S (length rs - S i))%nat with i by lia.
  split; [lia|]. now split.
Qed.

(** C1 (what the code does): ranges that tie under the whole chain come
    out of [mergesort_ranges] in the reverse of their order before the sort.
    [merge] returns 0 on a tie, so the insertion loop moves [hold] in front
    of its equals and the merge loops take the element of the right run. *)
Theorem mergesort_ranges_reverses_ties state orig :
  (forall x y, x ∈ orig -> y ∈ orig -> chain_tie state x y) ->
  mergesort_ranges state orig = rev orig /\
  (forall x y, precedes orig x y -> precedes (mergesort_ranges state orig) y x) /\
  (forall a lo b hi,
     chain_tie state a b ->
     merge_runs state (a :: lo) (b :: hi) = b :: merge_runs state (a :: lo) hi).
Proof.
  intros H.
  assert (E : mergesort_ranges state orig = rev orig).
  { apply mergesort_ranges_tie.
    intros x y Hx Hy. apply chain_tie_merge. now apply H. }
  split; [exact E|]. split.
  - intros x y Hxy. rewrite E. now apply precedes_rev.
  - intros a lo b hi Hab. now rewrite merge_runs_cons, (chain_tie_merge state a b Hab).
Qed.

Lemma mergesort_ranges_reverses_ties_witness :
  mergesort_ranges tie_state [tie_A; tie_B] = [tie_B; tie_A].
Proof.
  refine (proj1 (mergesort_ranges_reverses_ties tie_state [tie_A; tie_B] _)).
  intros x y Hx Hy. apply list_elem_of_In in Hx, Hy. simpl in Hx, Hy.
  destruct Hx as [<-|[<-|[]]], Hy as [<-|[<-|[]]]; repeat constructor.
Defined.

(** The key of the comparator [comp_ip]: the number the first address denotes. *)
Lemma merge_comp_ip state x y :
  sorts state = [Some comp_ip] ->
  wf_range (ip_version state) x -> wf_range (ip_version state) y ->
  merge state x y = true <->
  addr_value (ip_version state) (first_ip x) < addr_value (ip_version state) (first_ip y).
Proof.
  intros Hs [Hx _] [Hy _]. unfold merge. rewrite Hs. cbn [merge_sorts]. unfold comp_ip.
  rewrite <- (ipcomp_lt _ _ _ Hx Hy).
  destruct (Z.ltb_spec 0 (ipcomp (ip_version state) (first_ip x) (first_ip y)));
    destruct (Z.ltb_spec (ipcomp (ip_version state) (first_ip x) (first_ip y)) 0);
    split; intros; try reflexivity; try discriminate; lia.
Qed.

Lemma flip_ranges_set state :
  flip_ranges state = set_ranges state (rev (ranges state)).
Proof.
  unfold flip_ranges, num_ranges.
  rewrite flip_ranges_loop_spec by lia. now rewrite firstn_all.
Qed.

Lemma flip_ranges_involutive state : flip_ranges (flip_ranges state) = state.
Proof.
  rewrite !flip_ranges_set. destruct state as [nets rs ls v s r].
  unfold set_ranges. cbn. now rewrite rev_involutive.
Qed.

(** C8: sorting by the ip key and then reversing leaves the array, a
    rearrangement of the ranges, in descending order of first address; and
    reversing twice gives back the array. *)
Theorem sort_ip_reverse_descending state :
  (sorts state = [Some comp_ip] -> reverse_order state = true ->
   Forall (wf_range (ip_version state)) (ranges state) ->
   ranges (sort_ranges state) ≡ₚ ranges state /\
   descending (fun r => addr_value (ip_version state) (first_ip r))
              (ranges (sort_ranges state))) /\
  flip_ranges (flip_ranges state) = state.
Proof.
  split; [|apply flip_ranges_involutive].
  intros Hs Hr Hwf. unfold sort_ranges. rewrite Hs.
  destruct state as [nets rs ls v s r]. cbn [sorts reverse_order ranges ip_version] in *.
  subst s r. cbn [set_ranges reverse_order shared_nets leases ip_version sorts ranges].
  rewrite flip_ranges_rev. cbn [ranges].
  set (state := mk_conf nets rs ls v [Some comp_ip] true).
  split.
  - rewrite <- Permutation_rev. apply mergesort_ranges_perm.
  - apply ascending_rev.
    apply (mergesort_ranges_ascending state _ (wf_range v)); [|assumption].
    intros x y Hx Hy. now apply (merge_comp_ip state x y).
Qed.

Lemma sort_ip_reverse_descending_witness :
  ranges (sort_ranges reverse_ip_state) ≡ₚ ranges reverse_ip_state /\
  descending (fun r => addr_value IPv4 (first_ip r)) (ranges (sort_ranges reverse_ip_state)).
Proof.
  apply (proj1 (sort_ip_reverse_descending reverse_ip_state)).
  - reflexivity.
  - reflexivity.
  - repeat constructor; vm_compute; intuition discriminate.
Defined.

(** ** Reconciliation: one range *)

Section CountingRange.

Variable version : dhcp_version.

Lemma ipcomp_ltb a b :
  wf_addr version a -> wf_addr version b ->
  (ipcomp version a b <? 0) = (addr_value version a <? addr_value version b).
Proof.
  intros Ha Hb. pose proof (ipcomp_lt version a b Ha Hb).
  destruct (Z.ltb_spec (ipcomp version a b) 0);
    destruct (Z.ltb_spec (addr_value version a) (addr_value version b)); lia.
Qed.

Lemma ipcomp_leb a b :
  wf_addr version a -> wf_addr version b ->
  (ipcomp version a b <=? 0) = (addr_value version a <=? addr_value version b).
Proof.
  intros Ha Hb. pose proof (ipcomp_le version a b Ha Hb).
  destruct (Z.leb_spec (ipcomp version a b) 0);
    destruct (Z.leb_spec (addr_value version a) (addr_value version b)); lia.
Qed.

Lemma in_range_value r l :
  wf_range version r -> wf_addr version (ip l) ->
  in_range version r l
  = (addr_value version (first_ip r) <=? lease_value version l)
    && (lease_value version l <=? addr_value version (last_ip r)).
Proof.
  intros [Hf Hl] Hw. unfold in_range, lease_value.
  now rewrite !ipcomp_leb.
Qed.

Lemma leases_in_nil r t : leases_in version r t [] = 0.
Proof. reflexivity. Qed.

Lemma leases_in_cons r t l ls :
  leases_in version r t (l :: ls)
  = (if in_range version r l && ltype_eqb (type l) t then 1 else 0)
    + leases_in version r t ls.
Proof.
  unfold leases_in. rewrite filter_cons.
  destruct (in_range version r l && ltype_eqb (type l) t) eqn:E.
  - rewrite decide_True by reflexivity. cbn [length]. lia.
  - rewrite decide_False by discriminate. lia.
Qed.

Lemma leases_in_app r t l1 l2 :
  leases_in version r t (l1 ++ l2)
  = leases_in version r t l1 + leases_in version r t l2.
Proof.
  induction l1 as [|l l1 IH]; [reflexivity|].
  cbn [app]. rewrite !leases_in_cons, IH. lia.
Qed.

Lemma leases_in_none r t ls :
  Forall (fun l => in_range version r l = false) ls -> leases_in version r t ls = 0.
Proof.
  induction 1 as [|l ls Hl _ IH]; [reflexivity|].
  rewrite leases_in_cons, Hl, IH. reflexivity.
Qed.

Lemma leases_in_bounds r1 r2 t ls :
  first_ip r1 = first_ip r2 -> last_ip r1 = last_ip r2 ->
  leases_in version r1 t ls = leases_in version r2 t ls.
Proof.
  intros Hf Hl. induction ls as [|l ls IH]; [reflexivity|].
  rewrite !leases_in_cons, IH. unfold in_range. now rewrite Hf, Hl.
Qed.

Lemma add_counts_zero r : add_counts r 0 0 0 = r.
Proof. destruct r. unfold add_counts. cbn. now rewrite !Z.add_0_r. Qed.

Lemma add_counts_add r a f b a' f' b' :
  add_counts (add_counts r a f b) a' f' b' = add_counts r (a + a') (f + f') (b + b').
Proof. unfold add_counts. cbn. now rewrite !Z.add_assoc. Qed.

(** Counting one lease adds one to the counter of its state. *)
Lemma count_lease_exact r l :
  counters_fit 1 r ->
  count_lease r l
  = add_counts r (if ltype_eqb (type l) ACTIVE then 1 else 0)
                 (if ltype_eqb (type l) FREE then 1 else 0)
                 (if ltype_eqb (type l) BACKUP then 1 else 0).
Proof.
  intros [[? ?] [[? ?] [? ?]]]. unfold count_lease, add_counts.
  destruct (type l); cbn [ltype_eqb]; rewrite dinc_exact by lia;
    now rewrite !Z.add_0_r.
Qed.

End CountingRange.

Lemma counters_fit_step n rng a f b :
  counters_fit (n + 1) rng -> 0 <= n ->
  0 <= a <= 1 -> 0 <= f <= 1 -> 0 <= b <= 1 ->
  counters_fit n (add_counts rng a f b).
Proof. unfold counters_fit, add_counts. cbn. lia. Qed.

Lemma counters_fit_le n m rng : counters_fit n rng -> m <= n -> counters_fit m rng.
Proof. unfold counters_fit. lia. Qed.

Section Scan.

Variable version : dhcp_version.
Variable r : range_t.
Hypothesis r_wf : wf_range version r.

Lemma one_lease_bounds t l : 0 <= one_lease version r t l <= 1.
Proof. unfold one_lease. destruct (_ && _); lia. Qed.

(** One pass of the body of the counting loop for a lease that is not
    beyond the range. *)
Lemma scan_body rng c :
  first_ip rng = first_ip r -> last_ip rng = last_ip r ->
  wf_addr version (ip c) -> lease_value version c <= (addr_value version (last_ip r)) ->
  counters_fit 1 rng ->
  (if ipcomp version (ip c) (first_ip rng) <? 0 then rng else count_lease rng c)
  = add_counts rng (one_lease version r ACTIVE c) (one_lease version r FREE c)
                   (one_lease version r BACKUP c).
Proof.
  intros Hf Hl Hc HcL Hfit. destruct r_wf as [Hwf Hwl].
  rewrite Hf, ipcomp_ltb by assumption.
  unfold one_lease. rewrite in_range_value by assumption.
  change (addr_value version (ip c)) with (lease_value version c).
  destruct (Z.ltb_spec (lease_value version c) (addr_value version (first_ip r))) as [Hlt|Hge].
  - destruct (Z.leb_spec (addr_value version (first_ip r)) (lease_value version c)); [lia|].
    cbn [andb]. now rewrite add_counts_zero.
  - destruct (Z.leb_spec (addr_value version (first_ip r)) (lease_value version c)); [|lia].
    destruct (Z.leb_spec (lease_value version c) (addr_value version (last_ip r))); [|lia].
    cbn [andb]. now apply count_lease_exact.
Qed.

Lemma beyond_range c after :
  Forall (fun l => wf_addr version (ip l)) (c :: after) ->
  StronglySorted (fun a b => lease_value version a < lease_value version b) (c :: after) ->
  (addr_value version (last_ip r)) < lease_value version c ->
  Forall (fun l => in_range version r l = false) (c :: after).
Proof.
  intros Hw Hs HcL. inversion Hs as [|? ? _ Hlt]; subst.
  rewrite Forall_forall in Hlt. rewrite Forall_forall in Hw. apply Forall_forall.
  intros x Hx. rewrite in_range_value by (try assumption; now apply Hw).
  assert ((addr_value version (last_ip r)) < lease_value version x).
  { apply elem_of_cons in Hx as [->|Hx]; [assumption|]. specialize (Hlt x Hx). lia. }
  destruct (Z.leb_spec (lease_value version x) (addr_value version (last_ip r))); [lia|]. apply andb_false_r.
Qed.

Lemma leases_in_one t c ls :
  leases_in version r t (c :: ls) = one_lease version r t c + leases_in version r t ls.
Proof. apply leases_in_cons. Qed.

Lemma scan_spec : forall after before c rng,
  first_ip rng = first_ip r -> last_ip rng = last_ip r ->
  Forall (fun l => wf_addr version (ip l)) (c :: after) ->
  StronglySorted (fun a b => lease_value version a < lease_value version b) (c :: after) ->
  counters_fit (Z.of_nat (length (c :: after))) rng ->
  exists l',
    scan version rng before c after
    = (add_counts rng (leases_in version r ACTIVE (c :: after))
                      (leases_in version r FREE (c :: after))
                      (leases_in version r BACKUP (c :: after)), l')
    /\ valid_ptr (rev before ++ c :: after) l'.
Proof.
  destruct r_wf as [Hwf Hwl].
  induction after as [|n after IH]; intros before c rng Hf Hl Hw Hs Hfit;
    pose proof (beyond_range c _ Hw Hs) as Hout;
    inversion Hw as [|? ? Hc Hw']; inversion Hs as [|? ? Hs' Hlt]; subst;
    cbn [scan]; rewrite Hl, ipcomp_leb by assumption;
    change (addr_value version (ip c)) with (lease_value version c);
    destruct (Z.leb_spec (lease_value version c) (addr_value version (last_ip r))) as [HcL|HcL].
  - rewrite scan_body by assumption.
    exists None. split; [|exact I].
    now rewrite !leases_in_one, !leases_in_nil, !Z.add_0_r.
  - eexists. split; [now rewrite !leases_in_none, add_counts_zero by auto|].
    reflexivity.
  - rewrite scan_body; try assumption.
    + destruct (IH (c :: before) n
                (add_counts rng (one_lease version r ACTIVE c) (one_lease version r FREE c)
                   (one_lease version r BACKUP c)))
        as (l' & Hscan & Hvalid); try assumption.
      * apply counters_fit_step; try apply one_lease_bounds; [|lia].
        eapply counters_fit_le; [exact Hfit|]. cbn [length]. lia.
      * exists l'. split.
        -- rewrite Hscan, add_counts_add. now rewrite !(leases_in_one _ c).
        -- cbn [rev] in Hvalid. now rewrite <- app_assoc in Hvalid.
    + eapply counters_fit_le; [exact Hfit|]. cbn [length]. lia.
  - eexists. split; [now rewrite !leases_in_none, add_counts_zero by auto|].
    reflexivity.
Qed.

End Scan.

Lemma leases_head_spec ls :
  match leases_head ls with
  | Some (before, c, after) => before = [] /\ c :: after = ls
  | None => ls = []
  end.
Proof. destruct ls; cbn; auto. Qed.

Section CountRange.

Variable version : dhcp_version.
Variable ls : list leases_t.
Hypothesis ls_wf : Forall (fun l => wf_addr version (ip l)) ls.
Hypothesis ls_sorted :
  StronglySorted (fun a b => lease_value version a < lease_value version b) ls.

Variable r : range_t.
Hypothesis r_wf : wf_range version r.
Hypothesis r_fit : counters_fit (Z.of_nat (length ls)) r.

(** The rewind stops at a lease that is not behind the first address of
    the range, or runs off the front of the list. *)
Lemma rewind_spec : forall before c after,
  rev before ++ c :: after = ls ->
  match rewind version r before c after with
  | None => True
  | Some (before', c', after') =>
      rev before' ++ c' :: after' = ls /\
      lease_value version c' <= addr_value version (first_ip r)
  end.
Proof.
  destruct r_wf as [Hwf _].
  induction before as [|p before IH]; intros c after Hz; cbn [rewind];
    (assert (Hc : wf_addr version (ip c));
     [pose proof ls_wf as Hw; rewrite Forall_forall in Hw; apply Hw;
      rewrite <- Hz, elem_of_app; right; constructor|]);
    rewrite ipcomp_ltb by assumption;
    change (addr_value version (ip c)) with (lease_value version c);
    destruct (Z.ltb_spec (addr_value version (first_ip r)) (lease_value version c));
    try (split; [assumption|lia]); try exact I.
  apply IH. cbn [rev] in Hz. now rewrite <- app_assoc in Hz.
Qed.

(** The counting loop started at a lease that has only leases before the
    range behind it counts the range. *)
Lemma scan_from before c after :
  rev before ++ c :: after = ls ->
  Forall (fun l => in_range version r l = false) before ->
  exists l',
    scan version r before c after = (counted version ls r, l') /\ valid_ptr ls l'.
Proof.
  intros Hz Hb.
  assert (Hw : Forall (fun l => wf_addr version (ip l)) (c :: after)).
  { pose proof ls_wf as H. rewrite <- Hz in H. now apply Forall_app in H as [_ ?]. }
  assert (Hs : StronglySorted (fun a b => lease_value version a < lease_value version b)
                              (c :: after)).
  { pose proof ls_sorted as H. rewrite <- Hz in H.
    now apply StronglySorted_app_1_r in H. }
  assert (Hfit : counters_fit (Z.of_nat (length (c :: after))) r).
  { eapply counters_fit_le; [exact r_fit|]. rewrite <- Hz, length_app. lia. }
  destruct (scan_spec version r r_wf after before c r eq_refl eq_refl Hw Hs Hfit)
    as (l' & Hscan & Hvalid).
  exists l'. split; [|now rewrite Hz in Hvalid].
  rewrite Hscan. unfold counted. rewrite <- Hz, !leases_in_app.
  rewrite !(leases_in_none version r _ (rev before)); [reflexivity|..];
    apply Forall_forall; intros x Hx;
    rewrite list_elem_of_In, <- in_rev, <- list_elem_of_In in Hx;
    rewrite Forall_forall in Hb; now apply Hb.
Qed.

Lemma scan_from_head :
  exists l',
    match leases_head ls with
    | Some (before, c, after) => scan version r before c after
    | None => (r, None)
    end = (counted version ls r, l') /\ valid_ptr ls l'.
Proof.
  pose proof (leases_head_spec ls) as H.
  destruct (leases_head ls) as [[[before c] after]|].
  - destruct H as [-> H]. apply scan_from; [exact H | constructor].
  - exists None. split; [|exact I]. unfold counted.
    now rewrite H, !leases_in_nil, add_counts_zero.
Qed.

(** The leases behind a lease that is not beyond the first address are
    outside the range. *)
Lemma behind_range before c after :
  rev before ++ c :: after = ls ->
  lease_value version c <= addr_value version (first_ip r) ->
  Forall (fun l => in_range version r l = false) before.
Proof.
  intros Hz Hle.
  pose proof ls_sorted as Hs. pose proof ls_wf as Hw. rewrite <- Hz in Hs, Hw.
  apply Forall_forall. intros x Hx.
  assert (Hx' : x ∈ rev before)
    by now rewrite list_elem_of_In, <- in_rev, <- list_elem_of_In.
  pose proof (StronglySorted_app_1_elem_of _ _ _ x c Hs Hx' ltac:(constructor)) as Hlt.
  cbv beta in Hlt.
  rewrite in_range_value; [|assumption|].
  - destruct (Z.leb_spec (addr_value version (first_ip r)) (lease_value version x));
      [lia|reflexivity].
  - apply Forall_app in Hw as [Hwb _]. rewrite Forall_forall in Hwb. now apply Hwb.
Qed.

(** One iteration of the walk: the range comes out counted, and the
    totals of its network and of 'all networks' receive it. *)
Lemma do_counting_range_spec l nets :
  valid_ptr ls l ->
  exists l',
    do_counting_range version ls r l nets
    = (counted version ls r, l', add_range version (counted version ls r) nets)
    /\ valid_ptr ls l'.
Proof.
  intros Hl. unfold do_counting_range.
  destruct scan_from_head as (lh & Hhead & Hvh).
  destruct l as [[[before c] after]|].
  - pose proof (rewind_spec before c after Hl) as Hr.
    destruct (rewind version r before c after) as [[[before' c'] after']|].
    + destruct Hr as [Hz Hle].
      destruct (scan_from before' c' after' Hz (behind_range _ _ _ Hz Hle))
        as (l' & Hs & Hv).
      rewrite Hs. exists l'. split; [reflexivity | assumption].
    + rewrite Hhead. exists lh. split; [reflexivity | assumption].
  - rewrite Hhead. exists lh. split; [reflexivity | assumption].
Qed.

End CountRange.

(** ** Reconciliation: the walk through the ranges *)

Lemma address_sorted_values version ls :
  Forall (fun l => wf_addr version (ip l)) ls ->
  address_sorted version ls ->
  StronglySorted (fun a b => lease_value version a < lease_value version b) ls.
Proof.
  intros Hw Hs. induction Hs as [|c ls Hs IH Hc]; [constructor|].
  inversion Hw as [|? ? Hwc Hw']; subst.
  constructor; [now apply IH|].
  rewrite Forall_forall in Hc, Hw'. apply Forall_forall. intros x Hx.
  specialize (Hc x Hx). rewrite leasecomp_ipcomp in Hc.
  now apply ipcomp_lt in Hc; [|assumption|apply Hw'].
Qed.

Lemma do_counting_loop_spec version ls :
  Forall (fun l => wf_addr version (ip l)) ls ->
  address_sorted version ls ->
  forall rs l nets,
    Forall (wf_range version) rs ->
    Forall (counters_fit (Z.of_nat (length ls))) rs ->
    valid_ptr ls l ->
    exists l' nets',
      do_counting_loop version ls rs l nets
      = (map (counted version ls) rs, l', nets') /\ valid_ptr ls l'.
Proof.
  intros Hw Hs. pose proof (address_sorted_values version ls Hw Hs) as Hv.
  induction rs as [|r rs IH]; intros l nets Hwf Hfit Hl.
  - exists l, nets. split; [reflexivity|assumption].
  - inversion Hwf; inversion Hfit; subst. cbn [do_counting_loop map].
    destruct (do_counting_range_spec version ls Hw Hv r ltac:(assumption)
                ltac:(assumption) l nets Hl) as (l1 & Hr & Hl1).
    rewrite Hr.
    destruct (IH l1 (add_range version (counted version ls r) nets))
      as (l2 & nets2 & Hloop & Hl2); try assumption.
    rewrite Hloop. exists l2, nets2. split; [reflexivity|assumption].
Qed.

Lemma do_counting_ranges state :
  Forall (wf_range (ip_version state)) (ranges state) ->
  Forall (fun l => wf_addr (ip_version state) (ip l)) (leases state) ->
  address_sorted (ip_version state) (leases state) ->
  Forall (counters_fit (Z.of_nat (length (leases state)))) (ranges state) ->
  ranges (do_counting state)
  = map (counted (ip_version state) (leases state)) (ranges state).
Proof.
  intros Hwf Hw Hs Hfit. unfold do_counting.
  destruct (do_counting_loop_spec _ _ Hw Hs (ranges state)
              (leases_head (leases state)) (shared_nets state) Hwf Hfit)
    as (l' & nets' & Hloop & _).
  - pose proof (leases_head_spec (leases state)) as H.
    destruct (leases_head (leases state)) as [[[b c] a]|]; [|exact I].
    destruct H as [-> H]. exact H.
  - now rewrite Hloop.
Qed.

(** Every lease of the interval is counted by exactly one of the three counters. *)
Lemma one_lease_states version r l :
  one_lease version r ACTIVE l + one_lease version r FREE l + one_lease version r BACKUP l
  = if in_range version r l then 1 else 0.
Proof. unfold one_lease. destruct (in_range version r l), (type l); reflexivity. Qed.

(** Leases at distinct addresses from [lo] on fill at most the addresses
    of the interval that are not below [lo]. *)
Lemma leases_in_interval version r :
  wf_range version r ->
  forall ls lo,
    Forall (fun l => wf_addr version (ip l)) ls ->
    StronglySorted (fun a b => lease_value version a < lease_value version b) ls ->
    Forall (fun l => lo <= lease_value version l) ls ->
    leases_in version r ACTIVE ls + leases_in version r FREE ls
      + leases_in version r BACKUP ls
    <= Z.max 0 (addr_value version (last_ip r)
                - Z.max lo (addr_value version (first_ip r)) + 1).
Proof.
  intros Hr. induction ls as [|c ls IH]; intros lo Hw Hs Hlo.
  - rewrite !leases_in_nil. lia.
  - inversion Hw as [|? ? Hc Hw']; inversion Hs as [|? ? Hs' Hlt];
      inversion Hlo as [|? ? Hloc _]; subst.
    specialize (IH (lease_value version c + 1) Hw' Hs').
    rewrite !leases_in_one.
    pose proof (one_lease_states version r c) as Hone.
    rewrite in_range_value in Hone by assumption.
    assert (Hnext : Forall (fun l => lease_value version c + 1 <= lease_value version l) ls).
    { eapply Forall_impl; [exact Hlt|]. cbv beta. intros; lia. }
    specialize (IH Hnext).
    destruct (Z.leb_spec (addr_value version (first_ip r)) (lease_value version c));
      destruct (Z.leb_spec (lease_value version c) (addr_value version (last_ip r)));
      cbn [andb] in Hone; lia.
Qed.

Lemma leases_in_addresses version r ls :
  wf_range version r ->
  Forall (fun l => wf_addr version (ip l)) ls ->
  StronglySorted (fun a b => lease_value version a < lease_value version b) ls ->
  leases_in version r ACTIVE ls + leases_in version r FREE ls
    + leases_in version r BACKUP ls
  <= addresses_in version r.
Proof.
  intros Hr Hw Hs. unfold addresses_in. destruct ls as [|c ls].
  - rewrite !leases_in_nil. lia.
  - pose proof (leases_in_interval version r Hr (c :: ls) (lease_value version c) Hw Hs) as H.
    inversion Hs as [|? ? _ Hlt]; subst.
    assert (Hlo : Forall (fun l => lease_value version c <= lease_value version l) (c :: ls)).
    { constructor; [lia|]. eapply Forall_impl; [exact Hlt|]. cbv beta. intros; lia. }
    specialize (H Hlo). lia.
Qed.

(** The ranges keep their network and their bounds. *)
Lemma counted_bounds version ls r :
  shared_net (counted version ls r) = shared_net r /\
  first_ip (counted version ls r) = first_ip r /\
  last_ip (counted version ls r) = last_ip r.
Proof. now unfold counted, add_counts. Qed.

(** ** The counters after the reconciliation *)

(** On addresses of the family, the comparisons of the code select the
    leases whose number is within the numbers of the bounds. *)
Lemma leases_in_within version r t ls :
  wf_range version r -> Forall (fun l => wf_addr version (ip l)) ls ->
  leases_in version r t ls = leases_within version r t ls.
Proof.
  intros Hr Hw. unfold leases_in, leases_within. f_equal. f_equal.
  induction Hw as [|l ls Hl _ IH]; [reflexivity|].
  rewrite !filter_cons, IH. unfold within.
  rewrite (in_range_value version r l Hr Hl). reflexivity.
Qed.

Lemma ascending_addresses_sorted version ls :
  Forall (fun l => wf_addr version (ip l)) ls ->
  ascending_addresses version ls -> address_sorted version ls.
Proof.
  intros Hw Hs. induction Hs as [|c ls Hs IH Hc]; [constructor|].
  inversion Hw as [|? ? Hwc Hw']; subst.
  constructor; [now apply IH|].
  rewrite Forall_forall in Hc, Hw'. apply Forall_forall. intros x Hx.
  rewrite leasecomp_ipcomp. apply ipcomp_lt; [assumption | now apply Hw' |].
  now apply Hc.
Qed.

(** C2: over a lease sequence in ascending order of address, one lease per
    address, [do_counting] leaves every range with its counters increased
    by the number of leases whose address lies in [first_ip, last_ip], each
    counted once: the active ones in [count], the free ones in [touched],
    the backup ones in [backups].  The interval is that of the numbers the
    addresses denote, whatever the comparison of the code says; a lease
    below the first address or above the last adds to no counter. *)
Theorem do_counting_counts state :
  Forall (wf_range (ip_version state)) (ranges state) ->
  Forall (fun l => wf_addr (ip_version state) (ip l)) (leases state) ->
  ascending_addresses (ip_version state) (leases state) ->
  Forall (counters_fit (Z.of_nat (length (leases state)))) (ranges state) ->
  ranges (do_counting state)
  = map (fun r =>
           add_counts r (leases_within (ip_version state) r ACTIVE (leases state))
                        (leases_within (ip_version state) r FREE (leases state))
                        (leases_within (ip_version state) r BACKUP (leases state)))
        (ranges state)
  /\ forall r l t,
       lease_value (ip_version state) l < addr_value (ip_version state) (first_ip r) \/
       addr_value (ip_version state) (last_ip r) < lease_value (ip_version state) l ->
       forall ls, leases_within (ip_version state) r t (l :: ls)
                  = leases_within (ip_version state) r t ls.
Proof.
  intros Hwf Hw Hs Hfit. split.
  - rewrite do_counting_ranges;
      [|assumption|assumption|now apply ascending_addresses_sorted|assumption].
    apply map_ext_in. intros r Hr. unfold counted.
    rewrite Forall_forall in Hwf. apply list_elem_of_In, Hwf in Hr.
    now rewrite !leases_in_within.
  - intros r l t Hout ls. unfold leases_within. rewrite filter_cons.
    rewrite decide_False; [reflexivity|].
    unfold within.
    destruct (Z.leb_spec (addr_value (ip_version state) (first_ip r))
                         (lease_value (ip_version state) l));
      destruct (Z.leb_spec (lease_value (ip_version state) l)
                           (addr_value (ip_version state) (last_ip r)));
      cbn [andb]; try discriminate; lia.
Qed.

Lemma do_counting_counts_witness :
  ranges (do_counting outside_state)
  = [mk_range 1 (ipv4 10 0 0 0) (ipv4 10 0 0 3) 1 1 0;
     mk_range 1 (ipv4 10 0 0 8) (ipv4 10 0 0 11) 0 0 1].
Proof.
  refine (proj1 (do_counting_counts outside_state _ _ _ _)).
  - repeat constructor; vm_compute; intuition discriminate.
  - repeat constructor; vm_compute; intuition discriminate.
  - repeat constructor.
  - repeat constructor; vm_compute; intuition discriminate.
Defined.

(** Why the lease sequence has to be free of repeated addresses: the
    rewind for the second range stops at the second lease of 10.0.0.5, and
    the active lease before it is not counted. *)
Remark do_counting_repeated_address :
  map (fun r => (count r, touched r, backups r)) (ranges (do_counting duplicate_state))
  = [(1, 1, 0); (0, 1, 0)]
  /\ map (fun r => leases_in IPv4 r ACTIVE (leases duplicate_state))
         (ranges duplicate_state) = [1; 1].
Proof. split; reflexivity. Qed.

(** [get_range_size_v4] is the number of addresses unless the range is the
    whole address space, where the 32-bit difference wraps to 0. *)
Lemma get_range_size_v4_addresses r :
  wf_range IPv4 r -> v4 (first_ip r) <= v4 (last_ip r) ->
  addresses_in IPv4 r < 2 ^ 32 ->
  get_range_size_v4 r = addresses_in IPv4 r.
Proof.
  intros [Hf Hl] Hle Hlt. unfold get_range_size_v4, addresses_in in *.
  cbn [addr_value wf_addr] in *. rewrite Z.mod_small by lia. lia.
Qed.

Remark get_range_size_v4_whole :
  get_range_size_v4 whole_v4 = 0 /\ addresses_in IPv4 whole_v4 = 2 ^ 32.
Proof. split; reflexivity. Qed.

(** C4: with one lease per address, after [do_counting] the three
    counters of a range together do not exceed the number of addresses in
    [first_ip, last_ip]. *)
Theorem do_counting_no_overcount state :
  Forall (wf_range (ip_version state)) (ranges state) ->
  Forall (fun l => wf_addr (ip_version state) (ip l)) (leases state) ->
  address_sorted (ip_version state) (leases state) ->
  Forall zero_counters (ranges state) ->
  Z.of_nat (length (leases state)) <= 2 ^ 53 ->
  Forall (fun r => count r + touched r + backups r <= addresses_in (ip_version state) r)
         (ranges (do_counting state)).
Proof.
  intros Hwf Hw Hs Hzero Hlen.
  rewrite do_counting_ranges; try assumption.
  - apply Forall_map. rewrite Forall_forall in Hwf, Hzero. apply Forall_forall.
    intros r Hr. destruct (Hzero r Hr) as (Hc & Ht & Hb).
    pose proof (leases_in_addresses (ip_version state) r (leases state) (Hwf r Hr) Hw
                  (address_sorted_values _ _ Hw Hs)) as H.
    unfold addresses_in, counted, add_counts in *. cbn. lia.
  - eapply Forall_impl; [exact Hzero|]. intros r (Hc & Ht & Hb).
    unfold counters_fit. lia.
Qed.

Lemma do_counting_no_overcount_witness :
  Forall (fun r => count r + touched r + backups r <= addresses_in IPv4 r)
         (ranges (do_counting counting_state)).
Proof.
  apply (do_counting_no_overcount counting_state).
  - repeat constructor; vm_compute; intuition discriminate.
  - repeat constructor; vm_compute; intuition discriminate.
  - repeat constructor.
  - repeat constructor.
  - vm_compute. discriminate.
Defined.

(** ** Reconciliation: the totals of the networks *)

Lemma count_lease_keeps r l :
  shared_net (count_lease r l) = shared_net r /\
  first_ip (count_lease r l) = first_ip r /\
  last_ip (count_lease r l) = last_ip r.
Proof. unfold count_lease. now destruct (type l). Qed.

Lemma scan_keeps version : forall after r before c,
  shared_net (scan version r before c after).1 = shared_net r /\
  first_ip (scan version r before c after).1 = first_ip r /\
  last_ip (scan version r before c after).1 = last_ip r.
Proof.
  induction after as [|n after IH]; intros r before c; cbn [scan];
    destruct (ipcomp version (ip c) (last_ip r) <=? 0); cbn [fst]; auto;
    destruct (ipcomp version (ip c) (first_ip r) <? 0); cbn [fst]; auto;
    try apply count_lease_keeps.
  destruct (IH (count_lease r c) (c :: before) n) as (H1 & H2 & H3).
  destruct (count_lease_keeps r c) as (K1 & K2 & K3).
  rewrite H1, H2, H3. auto.
Qed.

(** An iteration of the walk keeps the network and the bounds of the
    range, and passes the range it leaves to the totals. *)
Lemma do_counting_range_nets version ls r l nets :
  let '(r', _, nets') := do_counting_range version ls r l nets in
  nets' = add_range version r' nets /\ shared_net r' = shared_net r.
Proof.
  unfold do_counting_range.
  set (l2 := match match l with
                   | Some (before, c, after) => rewind version r before c after
                   | None => None
                   end with
             | None => leases_head ls
             | Some _ => _
             end).
  destruct l2 as [[[before c] after]|].
  - pose proof (scan_keeps version after r before c) as (H & _).
    destruct (scan version r before c after) as [r' l']. cbn [fst] in H.
    split; [reflexivity|assumption].
  - split; reflexivity.
Qed.

Lemma do_counting_loop_nets version ls : forall rs l nets,
  let '(rs', _, nets') := do_counting_loop version ls rs l nets in
  nets' = fold_left (fun ns r' => add_range version r' ns) rs' nets /\
  map shared_net rs' = map shared_net rs.
Proof.
  induction rs as [|r rs IH]; intros l nets; cbn [do_counting_loop].
  - split; reflexivity.
  - pose proof (do_counting_range_nets version ls r l nets) as H1.
    destruct (do_counting_range version ls r l nets) as [[r' l'] nets1].
    destruct H1 as [-> Hsn].
    specialize (IH l' (add_range version r' nets)).
    destruct (do_counting_loop version ls rs l' (add_range version r' nets))
      as [[rs' l''] nets2].
    destruct IH as [-> Hmap]. cbn [fold_left map]. now rewrite Hsn, Hmap.
Qed.

Lemma range_sum_app c rs1 rs2 :
  range_sum c (rs1 ++ rs2) = range_sum c rs1 + range_sum c rs2.
Proof.
  unfold range_sum. induction rs1 as [|r rs1 IH]; cbn [app foldr]; lia.
Qed.

Lemma range_sum_le c1 c2 rs :
  (forall r, c1 r <= c2 r) -> range_sum c1 rs <= range_sum c2 rs.
Proof.
  intros H. unfold range_sum. induction rs as [|r rs IH]; cbn [foldr]; [lia|].
  specialize (H r). lia.
Qed.

Lemma total_alter f (g : shared_network_t -> shared_network_t) : forall nets i n,
  nets !! i = Some n ->
  total f (alter g i nets) = total f nets - f n + f (g n).
Proof.
  unfold total. induction nets as [|x nets IH]; intros i n Hi; [discriminate|].
  destruct i as [|i]; cbn in *.
  - injection Hi as ->. lia.
  - rewrite (IH i n Hi). lia.
Qed.

Lemma ranges_of_app n rs1 rs2 :
  ranges_of n (rs1 ++ rs2) = ranges_of n rs1 ++ ranges_of n rs2.
Proof. apply filter_app. Qed.

Lemma total_zero f nets : Forall (fun n => f n = 0) nets -> total f nets = 0.
Proof.
  unfold total. induction 1 as [|n tl Hn _ IH]; cbn [foldr]; [reflexivity|].
  rewrite Hn, IH. reflexivity.
Qed.

(** One field [f] of the totals, to which [do_counting] adds [c] of each
    range. *)
Section Totals.

Variable version : dhcp_version.
Variable f : shared_network_t -> double.
Variable c : range_t -> double.
Hypothesis f_add : forall r n,
  f (add_totals (get_range_size version r) r n) = dadd (f n) (c r).

Lemma abs_sum_nonneg rs : 0 <= abs_sum c rs.
Proof.
  unfold abs_sum, range_sum. induction rs as [|r rs IH]; cbn [foldr]; lia.
Qed.

Lemma add_range_cons r root tl :
  add_range version r (root :: tl)
  = add_totals (get_range_size version r) r root
      :: match shared_net r with
         | O => tl
         | S m => alter (add_totals (get_range_size version r) r) m tl
         end.
Proof.
  unfold add_range, shared_net_root. destruct (shared_net r) as [|m]; reflexivity.
Qed.

(** After the ranges [rs]: the total of 'all networks' is the sum over the
    other networks plus what the ranges of 'all networks' itself brought. *)
Lemma totals_invariant root0 tl0 : forall rs,
  f root0 = 0 -> Forall (fun n => f n = 0) tl0 ->
  Forall (fun r => (shared_net r < S (length tl0))%nat) rs ->
  abs_sum c rs <= 2 ^ 53 ->
  exists root tl,
    fold_left (fun ns r' => add_range version r' ns) rs (root0 :: tl0) = root :: tl /\
    length tl = length tl0 /\
    f root = total f tl + range_sum c (ranges_of shared_net_root rs) /\
    Z.abs (f root) <= abs_sum c rs /\
    Forall (fun n => Z.abs (f n) <= abs_sum c rs) tl.
Proof.
  intros rs Hroot Htl. induction rs as [|r rs IH] using rev_ind; intros Hsn Hfit.
  - exists root0, tl0. split; [reflexivity|]. split; [reflexivity|].
    unfold abs_sum, ranges_of. rewrite ?filter_nil, (total_zero f tl0 Htl), Hroot.
    cbn [range_sum foldr].
    repeat split; try reflexivity.
    eapply Forall_impl; [exact Htl|]. cbv beta. intros n Hn. now rewrite Hn.
  - apply Forall_app in Hsn as [Hsn Hr]. inversion Hr as [|? ? Hr' _]; subst.
    unfold abs_sum in Hfit. rewrite range_sum_app in Hfit. fold (abs_sum c rs) in Hfit.
    cbn [range_sum foldr] in Hfit. pose proof (abs_sum_nonneg rs) as Hpos.
    destruct IH as (root & tl & Hfold & Hlen & Hrel & Hbr & Hbt); [assumption|lia|].
    assert (Hsum : abs_sum c (rs ++ [r]) = abs_sum c rs + Z.abs (c r)).
    { unfold abs_sum. rewrite range_sum_app. cbn [range_sum foldr]. lia. }
    assert (Hexact : forall n, Z.abs (f n) <= abs_sum c rs ->
      f (add_totals (get_range_size version r) r n) = f n + c r).
    { intros n Hn. rewrite f_add. apply dadd_exact. lia. }
    rewrite fold_left_app. cbn [fold_left]. rewrite Hfold, add_range_cons.
    rewrite ranges_of_app, range_sum_app.
    eexists _, _. split; [reflexivity|]. rewrite Hsum, (Hexact root Hbr).
    destruct (shared_net r) as [|m] eqn:Esn.
    + repeat split; try assumption.
      * unfold ranges_of at 2. rewrite filter_cons, decide_True by assumption.
        rewrite filter_nil. cbn [range_sum foldr]. lia.
      * lia.
      * eapply Forall_impl; [exact Hbt|]. cbv beta. intros; lia.
    + destruct (lookup_lt_is_Some_2 tl m ltac:(lia)) as [n Hn].
      assert (Hbn : Z.abs (f n) <= abs_sum c rs).
      { rewrite Forall_forall in Hbt. apply Hbt. eapply list_elem_of_lookup_2; eauto. }
      repeat split.
      * now rewrite length_alter.
      * rewrite (total_alter f _ tl m n Hn), (Hexact n Hbn).
        unfold ranges_of at 2. rewrite filter_cons, decide_False
          by (unfold shared_net_root; lia).
        rewrite filter_nil. cbn [range_sum foldr]. lia.
      * lia.
      * apply Forall_forall. intros x Hx.
        apply list_elem_of_lookup in Hx as [i Hi].
        destruct (decide (i = m)) as [->|Hne].
        -- rewrite list_lookup_alter, Hn in Hi. cbn in Hi.
           rewrite decide_True in Hi by reflexivity. injection Hi as <-.
           rewrite (Hexact n Hbn). lia.
        -- rewrite list_lookup_alter_ne in Hi by congruence.
           rewrite Forall_forall in Hbt.
           specialize (Hbt x (list_elem_of_lookup_2 _ _ _ Hi)). lia.
Qed.

End Totals.

Lemma abs_sum_parts version (c : range_t -> double) rs :
  (forall r, Z.abs (c r) <= Z.abs (get_range_size version r) + Z.abs (count r)
                            + Z.abs (touched r) + Z.abs (backups r)) ->
  abs_sum c rs <= sum_of_parts version rs.
Proof. intros H. now apply range_sum_le. Qed.

Lemma do_counting_nets state :
  shared_nets (do_counting state)
  = fold_left (fun ns r' => add_range (ip_version state) r' ns)
              (ranges (do_counting state)) (shared_nets state)
  /\ map shared_net (ranges (do_counting state)) = map shared_net (ranges state).
Proof.
  unfold do_counting.
  pose proof (do_counting_loop_nets (ip_version state) (leases state) (ranges state)
                (leases_head (leases state)) (shared_nets state)) as H.
  destruct (do_counting_loop _ _ _ _ _) as [[rs' l'] nets']. exact H.
Qed.

(** C3 (as the code has it): after [do_counting], started with all totals
    zero, each of the four totals of 'all networks' is the sum of that
    total over the other networks plus what the ranges that belong to 'all
    networks' itself contribute; the sums are exact as long as all that is
    added up stays within 2^53. *)
Theorem do_counting_root_totals state :
  Forall zero_totals (shared_nets state) ->
  Forall (fun r => (shared_net r < length (shared_nets state))%nat) (ranges state) ->
  sum_of_parts (ip_version state) (ranges (do_counting state)) <= 2 ^ 53 ->
  forall root, shared_nets (do_counting state) !! shared_net_root = Some root ->
    let own := ranges_of shared_net_root (ranges (do_counting state)) in
    let others := non_root (shared_nets (do_counting state)) in
    available root
      = total available others + range_sum (get_range_size (ip_version state)) own /\
    used root = total used others + range_sum count own /\
    sn_touched root = total sn_touched others + range_sum touched own /\
    sn_backups root = total sn_backups others + range_sum backups own.
Proof.
  intros Hzero Hsn Hfit root Hroot own others. subst own others.
  destruct (do_counting_nets state) as [Hnets Hmap].
  set (rs' := ranges (do_counting state)) in *.
  assert (Hsn' : Forall (fun r => (shared_net r < length (shared_nets state))%nat) rs').
  { apply (Forall_fmap shared_net (fun n => (n < length (shared_nets state))%nat)).
    unfold fmap, list_fmap. fold (map shared_net rs'). rewrite Hmap.
    now apply (Forall_fmap shared_net (fun n => (n < length (shared_nets state))%nat)). }
  rewrite Hnets in *. clear Hnets.
  destruct (shared_nets state) as [|root0 tl0].
  { exfalso. clear -Hsn' Hroot. destruct rs' as [|r rs]; [discriminate|].
    inversion Hsn'; subst. cbn in *. lia. }
  inversion Hzero as [|? ? (Ha & Hu & Ht & Hb) Hz]; subst.
  cbn [length] in Hsn'.
  assert (Hall : forall (f : shared_network_t -> double) (c : range_t -> double),
    (forall r n, f (add_totals (get_range_size (ip_version state) r) r n) = dadd (f n) (c r)) ->
    f root0 = 0 -> Forall (fun n => f n = 0) tl0 ->
    (forall r, Z.abs (c r) <= Z.abs (get_range_size (ip_version state) r) + Z.abs (count r)
                              + Z.abs (touched r) + Z.abs (backups r)) ->
    f root = total f (non_root (fold_left (fun ns r' => add_range (ip_version state) r' ns)
                                          rs' (root0 :: tl0)))
             + range_sum c (ranges_of shared_net_root rs')).
  { intros f c Hf Hf0 Hftl Hc.
    destruct (totals_invariant (ip_version state) f c Hf root0 tl0 rs' Hf0 Hftl Hsn')
      as (rt & tl & Hfold & _ & Hrel & _).
    - pose proof (abs_sum_parts (ip_version state) c rs' Hc). lia.
    - rewrite Hfold in Hroot |- *. injection Hroot as <-. exact Hrel. }
  repeat split.
  - apply Hall; [reflexivity|assumption| |intros; lia].
    eapply Forall_impl; [exact Hz|]. now intros n (? & _).
  - apply Hall; [reflexivity|assumption| |intros; lia].
    eapply Forall_impl; [exact Hz|]. now intros n (_ & ? & _).
  - apply Hall; [reflexivity|assumption| |intros; lia].
    eapply Forall_impl; [exact Hz|]. now intros n (_ & _ & ? & _).
  - apply Hall; [reflexivity|assumption| |intros; lia].
    eapply Forall_impl; [exact Hz|]. now intros n (_ & _ & _ & ?).
Qed.

Lemma do_counting_root_totals_witness :
  exists root,
    shared_nets (do_counting two_ranges_state) !! shared_net_root = Some root /\
    available root = 10 + 4 /\ used root = 0 + 1 /\
    sn_touched root = 1 + 0 /\ sn_backups root = 1 + 0.
Proof.
  eexists. split; [reflexivity|].
  refine (do_counting_root_totals two_ranges_state _ _ _ _ eq_refl).
  - repeat constructor.
  - repeat constructor.
  - vm_compute. discriminate.
Defined.

(** C3 as stated fails for a range that belongs to no shared network:
    its size is in the total of 'all networks' and in no other. *)
Lemma do_counting_root_totals_counterexample :
  exists root,
    shared_nets (do_counting root_range_state) !! shared_net_root = Some root /\
    available root = 4 /\
    total available (non_root (shared_nets (do_counting root_range_state))) = 0 /\
    available root
    <> total available (non_root (shared_nets (do_counting root_range_state))).
Proof. eexists. repeat split. discriminate. Qed.

(** ** The lease index *)

Section LeaseIndexFacts.

Import LeaseIndex.

Variable version : dhcp_version.
Hypothesis version_set : version <> IPvUNKNOWN.

Lemma memcmp_refl n : forall a, memcmp a a n = 0.
Proof.
  induction n as [|n IH]; intros [|x a]; cbn [memcmp]; try reflexivity.
  now rewrite Z.eqb_refl.
Qed.

Lemma same_key_refl a : same_key version a a = true.
Proof.
  destruct version; [contradiction| |]; cbn [same_key ipcomp].
  - unfold ipcomp_v4. now rewrite Z.ltb_irrefl.
  - unfold ipcomp_v6. now rewrite memcmp_refl.
Qed.

Lemma same_key_value a b :
  wf_addr version a -> wf_addr version b ->
  same_key version a b = true <-> addr_value version a = addr_value version b.
Proof.
  intros Ha Hb. pose proof (ipcomp_sgn version a b Ha Hb) as H.
  assert (Hz : ipcomp version a b = 0 <-> addr_value version a = addr_value version b).
  { rewrite <- Z.sgn_null_iff, H, Z.sgn_null_iff. lia. }
  unfold same_key. destruct version; [contradiction| |]; now rewrite Z.eqb_eq.
Qed.

Lemma insert_or_update_unfold index addr state :
  insert_or_update version index addr state
  = match index with
    | [] => [mk_lease addr state None]
    | l :: rest =>
        if same_key version (ip l) addr
        then mk_lease (ip l) state (ethernet l) :: rest
        else l :: insert_or_update version rest addr state
    end.
Proof. destruct version; [contradiction| |]; destruct index; reflexivity. Qed.

(** The second write leaves the index as if the first had not happened. *)
Lemma insert_or_update_twice index addr s1 s2 :
  insert_or_update version (insert_or_update version index addr s1) addr s2
  = insert_or_update version index addr s2.
Proof.
  induction index as [|l rest IH].
  - rewrite (insert_or_update_unfold [] addr s1), !insert_or_update_unfold.
    cbn [ip]. now rewrite same_key_refl.
  - rewrite (insert_or_update_unfold (l :: rest) addr s1),
      (insert_or_update_unfold (l :: rest) addr s2).
    destruct (same_key version (ip l) addr) eqn:E;
      rewrite insert_or_update_unfold; cbn [ip]; rewrite E; [reflexivity|].
    now rewrite IH.
Qed.

Lemma find_insert_or_update index addr state :
  exists l,
    find version (insert_or_update version index addr state) addr = Some l /\
    type l = state /\ same_key version (ip l) addr = true.
Proof.
  induction index as [|l rest IH]; rewrite insert_or_update_unfold.
  - eexists. cbn [find ip]. rewrite same_key_refl. split; [reflexivity|].
    split; [reflexivity|apply same_key_refl].
  - destruct (same_key version (ip l) addr) eqn:E; cbn [find ip]; rewrite E.
    + eexists. split; [reflexivity|]. now split.
    + exact IH.
Qed.

Lemma records_of_cons l index addr :
  records_of version (l :: index) addr
  = ((if same_key version (ip l) addr then 1 else 0) + records_of version index addr)%nat.
Proof.
  unfold records_of. rewrite filter_cons.
  destruct (same_key version (ip l) addr).
  - now rewrite decide_True.
  - now rewrite decide_False.
Qed.

(** A write adds a record only when the address had none. *)
Lemma records_of_insert_or_update index addr state other :
  records_of version (insert_or_update version index addr state) other
  = (records_of version index other
     + match find version index addr with
       | Some _ => 0
       | None => if same_key version addr other then 1 else 0
       end)%nat.
Proof.
  induction index as [|l rest IH]; rewrite insert_or_update_unfold.
  - rewrite records_of_cons. cbn [ip find]. lia.
  - cbn [find]. destruct (same_key version (ip l) addr) eqn:E.
    + rewrite !records_of_cons. cbn [ip]. lia.
    + rewrite !records_of_cons, IH. lia.
Qed.

Lemma find_none index addr :
  find version index addr = None ->
  Forall (fun l => same_key version (ip l) addr = false) index.
Proof.
  induction index as [|l rest IH]; cbn [find]; intros H; [constructor|].
  destruct (same_key version (ip l) addr) eqn:E; [discriminate|].
  constructor; [assumption|now apply IH].
Qed.

Lemma records_of_none index addr :
  Forall (fun l => same_key version (ip l) addr = false) index ->
  records_of version index addr = 0%nat.
Proof.
  induction 1 as [|l rest Hl _ IH]; [reflexivity|].
  now rewrite records_of_cons, Hl, IH.
Qed.

(** Writing keeps the index at one record per address. *)
Lemma insert_or_update_one_per_address index addr state :
  Forall (fun l => wf_addr version (ip l)) index -> wf_addr version addr ->
  (forall other, wf_addr version other -> (records_of version index other <= 1)%nat) ->
  forall other, wf_addr version other ->
    (records_of version (insert_or_update version index addr state) other <= 1)%nat.
Proof.
  intros Hw Ha Hone other Ho. rewrite records_of_insert_or_update.
  specialize (Hone other Ho).
  destruct (find version index addr) eqn:Ef; [lia|].
  destruct (same_key version addr other) eqn:Ek; [|lia].
  rewrite records_of_none; [lia|].
  apply find_none in Ef. rewrite Forall_forall in Ef, Hw. apply Forall_forall.
  intros l Hl. specialize (Ef l Hl). specialize (Hw l Hl).
  apply same_key_value in Ek; [|assumption..].
  destruct (same_key version (ip l) other) eqn:El; [|reflexivity].
  apply same_key_value in El; [|assumption..].
  rewrite <- Ef. symmetry. apply same_key_value; [assumption..|]. congruence.
Qed.

End LeaseIndexFacts.

(** C6: writing [s1] and then [s2] for one address leaves an index in
    which [find] returns a lease of state [s2], the address has exactly one
    record, and nothing tells that [s1] was ever written: the index is the
    one a single write of [s2] gives, and it still has at most one record
    for every address of the family. *)
Theorem insert_or_update_last_write_wins version index addr s1 s2 :
  version <> IPvUNKNOWN ->
  wf_addr version addr ->
  Forall (fun l => wf_addr version (ip l)) index ->
  LeaseIndex.one_per_address version index ->
  let index' :=
    LeaseIndex.insert_or_update version
      (LeaseIndex.insert_or_update version index addr s1) addr s2 in
  (exists l, LeaseIndex.find version index' addr = Some l /\ type l = s2) /\
  LeaseIndex.records_of version index' addr = 1%nat /\
  index' = LeaseIndex.insert_or_update version index addr s2 /\
  LeaseIndex.one_per_address version index'.
Proof.
  intros Hv Ha Hw Hone index'. subst index'.
  rewrite insert_or_update_twice by assumption.
  destruct (find_insert_or_update version Hv index addr s2) as (l & Hf & Ht & _).
  split; [now exists l|]. split; [|split; [reflexivity|]].
  - rewrite records_of_insert_or_update by assumption.
    specialize (Hone addr Ha). rewrite same_key_refl by assumption.
    destruct (LeaseIndex.find version index addr) eqn:Ef.
    + assert (LeaseIndex.records_of version index addr <> 0)%nat; [|lia].
      clear -Ef. induction index as [|x rest IH]; [discriminate|].
      cbn [LeaseIndex.find] in Ef. unfold LeaseIndex.records_of. rewrite filter_cons.
      destruct (LeaseIndex.same_key version (ip x) addr) eqn:E.
      * now rewrite decide_True.
      * rewrite decide_False by discriminate. now apply IH.
    + now rewrite (records_of_none version index addr (find_none version index addr Ef)).
  - intros other Ho.
    now apply (insert_or_update_one_per_address version Hv index addr s2).
Qed.

Lemma insert_or_update_last_write_wins_witness :
  let index :=
    [mk_lease (mk_ipaddr 0 (replicate 15 0 ++ [1])) ACTIVE None;
     mk_lease (mk_ipaddr 0 (replicate 15 0 ++ [2])) BACKUP None] in
  let addr := mk_ipaddr 0 (replicate 15 0 ++ [2]) in
  let index' :=
    LeaseIndex.insert_or_update IPv6
      (LeaseIndex.insert_or_update IPv6 index addr FREE) addr ACTIVE in
  (exists l, LeaseIndex.find IPv6 index' addr = Some l /\ type l = ACTIVE) /\
  LeaseIndex.records_of IPv6 index' addr = 1%nat /\
  index' = LeaseIndex.insert_or_update IPv6 index addr ACTIVE /\
  LeaseIndex.one_per_address IPv6 index'.
Proof.
  assert (Hbytes : forall b : Z, 0 <= b < 256 ->
            wf_addr IPv6 (mk_ipaddr 0 (replicate 15 0 ++ [b]))).
  { intros b Hb. split; [reflexivity|]. repeat constructor; unfold is_byte; lia. }
  apply (insert_or_update_last_write_wins IPv6
           [mk_lease (mk_ipaddr 0 (replicate 15 0 ++ [1])) ACTIVE None;
            mk_lease (mk_ipaddr 0 (replicate 15 0 ++ [2])) BACKUP None]
           (mk_ipaddr 0 (replicate 15 0 ++ [2])) FREE ACTIVE).
  - discriminate.
  - apply Hbytes. lia.
  - apply List.Forall_cons; [apply Hbytes; lia|].
    apply List.Forall_cons; [apply Hbytes; lia|]. apply List.Forall_nil.
  - intros other Ho.
    change (le (LeaseIndex.records_of IPv6
                  (LeaseIndex.insert_or_update IPv6
                     (LeaseIndex.insert_or_update IPv6 []
                        (mk_ipaddr 0 (replicate 15 0 ++ [1])) ACTIVE)
                     (mk_ipaddr 0 (replicate 15 0 ++ [2])) BACKUP) other) 1%nat).
    apply insert_or_update_one_per_address;
      [discriminate
      | apply List.Forall_cons; [apply Hbytes; lia | apply List.Forall_nil]
      | apply Hbytes; lia | | exact Ho].
    intros other' Ho'.
    apply insert_or_update_one_per_address;
      [discriminate | apply List.Forall_nil | apply Hbytes; lia | | exact Ho'].
    intros x _. cbn. lia.
Defined.

(** ** Last address of a CIDR block *)

Section Cidr.

Lemma cidr_last_v4_bits addr mask k :
  1 <= mask <= 32 -> 0 <= k < 32 ->
  addr_bit4 (v4 (cidr_last_v4 addr mask)) k
  = if k <? mask then addr_bit4 (v4 addr) k else true.
Proof.
  intros Hm Hk. unfold cidr_last_v4, addr_bit4. cbn [v4].
  destruct (Z.eqb_spec mask 0); [lia|]. cbn [negb].
  rewrite Z.shiftl_1_l.
  assert (0 < 2 ^ (32 - mask) <= 2 ^ 31).
  { split; [apply Z.pow_pos_nonneg; lia | apply Z.pow_le_mono_r; lia]. }
  rewrite Z.mod_small by lia.
  replace (2 ^ (32 - mask) - 1) with (Z.ones (32 - mask))
    by (rewrite Z.ones_equiv; lia).
  rewrite Z.lor_spec.
  destruct (Z.ltb_spec k mask).
  - rewrite Z.ones_spec_high by lia. apply orb_false_r.
  - rewrite Z.ones_spec_low by lia. apply orb_true_r.
Qed.

Lemma byte_at_replicate n j : byte_at (replicate n 0) j = 0.
Proof.
  unfold byte_at. destruct (replicate n 0 !! j) eqn:E; [|reflexivity].
  apply lookup_replicate in E as [-> _]. reflexivity.
Qed.

Lemma cidr_last_v6_bitmask_byte n : forall i j,
  (j < n)%nat ->
  byte_at (cidr_last_v6_bitmask i (replicate n 0)) j = mask_byte (i - 8 * Z.of_nat j).
Proof.
  induction n as [|n IH]; intros i j Hj; [lia|].
  cbn [replicate cidr_last_v6_bitmask]. destruct (Z.ltb_spec 0 i) as [Hi|Hi].
  - destruct j as [|j].
    + unfold byte_at, mask_byte. cbn [lookup list_lookup default].
      replace (i - 8 * Z.of_nat 0) with i by lia.
      destruct (Z.ltb_spec 0 i); [reflexivity|lia].
    + change (byte_at (?h :: ?t) (S j)) with (byte_at t j).
      rewrite IH by lia. f_equal. lia.
  - change (0 :: replicate n 0) with (replicate (S n) 0).
    rewrite byte_at_replicate. unfold mask_byte.
    destruct (Z.ltb_spec 0 (i - 8 * Z.of_nat j)); [lia|reflexivity].
Qed.

Lemma byte_at_insert (l : list Z) i j b :
  (i < length l)%nat ->
  byte_at (<[i := b]> l) j = if decide (j = i) then b else byte_at l j.
Proof.
  intros Hi. unfold byte_at. destruct (decide (j = i)) as [->|Hne].
  - now rewrite list_lookup_insert_eq.
  - now rewrite list_lookup_insert_ne by congruence.
Qed.

Lemma cidr_last_v6_or_byte bitmask n : forall addr i j,
  (i + n <= length addr)%nat ->
  byte_at (cidr_last_v6_or addr bitmask i n) j
  = if (i <=? j)%nat && (j <? i + n)%nat
    then Z.lor (byte_at addr j) (Z.lnot (byte_at bitmask j)) mod 256
    else byte_at addr j.
Proof.
  induction n as [|n IH]; intros addr i j Hlen; cbn [cidr_last_v6_or].
  - destruct (Nat.leb_spec i j); destruct (Nat.ltb_spec j (i + 0)); try reflexivity; lia.
  - rewrite IH by (rewrite length_insert; lia).
    rewrite byte_at_insert by lia.
    destruct (decide (j = i)) as [Hji|Hne];
      destruct (Nat.leb_spec (S i) j); destruct (Nat.leb_spec i j);
      destruct (Nat.ltb_spec j (S i + n)); destruct (Nat.ltb_spec j (i + S n));
      cbn [andb]; try subst j; try reflexivity; lia.
Qed.

Lemma cidr_last_v6_or_length bitmask n : forall addr i,
  length (cidr_last_v6_or addr bitmask i n) = length addr.
Proof.
  induction n as [|n IH]; intros addr i; cbn [cidr_last_v6_or]; [reflexivity|].
  now rewrite IH, length_insert.
Qed.

(** The bits of a mask byte: the upper [i] of the eight. *)
Lemma mask_byte_bit i b :
  0 <= b < 8 -> Z.testbit (mask_byte i) b = (0 <? i) && (8 - i <=? b).
Proof.
  intros Hb. unfold mask_byte. destruct (Z.ltb_spec 0 i) as [Hi|Hi]; cbn [andb].
  - destruct (Z.leb_spec 8 i).
    + change 255 with (Z.ones 8). rewrite Z.ones_spec_low by lia.
      destruct (Z.leb_spec (8 - i) b); [reflexivity|lia].
    + change 256 with (2 ^ 8). rewrite Z.mod_pow2_bits_low by lia.
      rewrite Z.shiftl_spec by lia. change 255 with (Z.ones 8).
      destruct (Z.leb_spec (8 - i) b).
      * apply Z.ones_spec_low. lia.
      * apply Z.testbit_neg_r. lia.
  - apply Z.bits_0.
Qed.

Lemma cidr_last_v6_bits addr mask k :
  length (v6 addr) = 16%nat -> 0 <= mask <= 128 -> 0 <= k < 128 ->
  addr_bit6 (v6 (cidr_last_v6 addr mask)) k
  = if k <? mask then addr_bit6 (v6 addr) k else true.
Proof.
  intros Hlen Hm Hk. unfold cidr_last_v6, addr_bit6. cbn [v6].
  pose proof (Z.div_mod k 8 ltac:(lia)) as Hdm.
  pose proof (Z.mod_pos_bound k 8 ltac:(lia)) as Hmod.
  assert (Hj : (Z.to_nat (k / 8) < 16)%nat).
  { assert (k / 8 < 16) by (apply Z.div_lt_upper_bound; lia).
    assert (0 <= k / 8) by (apply Z.div_pos; lia). lia. }
  rewrite cidr_last_v6_or_byte by lia.
  destruct (Nat.leb_spec 0 (Z.to_nat (k / 8))); [|lia].
  destruct (Nat.ltb_spec (Z.to_nat (k / 8)) (0 + 16)); [|lia]. cbn [andb].
  change 256 with (2 ^ 8). rewrite Z.mod_pow2_bits_low by lia.
  rewrite Z.lor_spec, Z.lnot_spec by lia.
  rewrite cidr_last_v6_bitmask_byte by assumption.
  rewrite mask_byte_bit by lia.
  assert (0 <= k / 8) by (apply Z.div_pos; lia).
  rewrite Z2Nat.id by assumption.
  destruct (Z.ltb_spec k mask);
    destruct (Z.ltb_spec 0 (mask - 8 * (k / 8)));
    destruct (Z.leb_spec (8 - (mask - 8 * (k / 8))) (7 - k mod 8));
    cbn [andb negb]; try lia; try apply orb_false_r; apply orb_true_r.
Qed.

Lemma cidr_last_v6_wf addr mask :
  length (v6 addr) = 16%nat ->
  wf_addr IPv6 (cidr_last_v6 addr mask).
Proof.
  intros Hlen. unfold cidr_last_v6. cbn [wf_addr v6]. split.
  - now rewrite cidr_last_v6_or_length.
  - apply Forall_lookup. intros j x Hx.
    pose proof (lookup_lt_Some _ _ _ Hx) as Hj. rewrite cidr_last_v6_or_length in Hj.
    pose proof (cidr_last_v6_or_byte (cidr_last_v6_bitmask mask (replicate 16 0)) 16
                  (v6 addr) 0 j ltac:(lia)) as Hb.
    assert (Hbx : byte_at (cidr_last_v6_or (v6 addr)
                    (cidr_last_v6_bitmask mask (replicate 16 0)) 0 16) j = x)
      by (unfold byte_at; now rewrite Hx).
    rewrite Hbx in Hb.
    destruct (Nat.leb_spec 0 j); [|lia]. destruct (Nat.ltb_spec j (0 + 16)); [|lia].
    cbn [andb] in Hb. rewrite Hb. apply Z.mod_pos_bound. lia.
Qed.

End Cidr.

(** C5 (what the code does for an IPv4 /0): [cidr_last_v4] takes the
    netmask 0 when the mask length is 0 and returns the base address, not
    the all-ones address; [cidr_last_v6] returns all ones for a mask
    length of 0. *)
Theorem cidr_last_v4_mask_zero :
  (forall addr, cidr_last_v4 addr 0 = addr) /\
  v4 (cidr_last_v4 (ipv4 10 0 0 0) 0) = v4 (ipv4 10 0 0 0) /\
  v4 (cidr_last_v4 (ipv4 10 0 0 0) 0) <> 2 ^ 32 - 1 /\
  v6 (cidr_last_v6 (mk_ipaddr 0 (replicate 16 0)) 0) = replicate 16 255.
Proof.
  split; [|repeat split; [discriminate]].
  intros [x bytes]. unfold cidr_last_v4. cbn [v4 v6 Z.eqb negb]. now rewrite Z.lor_0_r.
Qed.

(** ** The size of IPv6 ranges *)

Lemma be_value_app l1 l2 :
  be_value (l1 ++ l2) = be_value l1 * 256 ^ Z.of_nat (length l2) + be_value l2.
Proof. unfold be_value at 1. rewrite fold_left_app. apply be_value_acc. Qed.

(** A longer number has the longer prefixes. *)
Lemma be_value_take a b i :
  length a = length b -> Forall is_byte a -> Forall is_byte b ->
  be_value a <= be_value b -> be_value (take i a) <= be_value (take i b).
Proof.
  intros Hlen Ha Hb Hle.
  rewrite <- (take_drop i a), <- (take_drop i b), !be_value_app in Hle.
  assert (Hd : length (drop i a) = length (drop i b)) by (rewrite !length_drop; lia).
  rewrite Hd in Hle.
  pose proof (be_value_bound (drop i a) (Forall_drop _ _ _ Ha)) as Ba.
  pose proof (be_value_bound (drop i b) (Forall_drop _ _ _ Hb)) as Bb.
  rewrite Hd in Ba. nia.
Qed.

Section RangeSizeV6.

Variable r : range_t.
Hypothesis r_wf : wf_range IPv6 r.
Hypothesis r_ordered : ipcomp_v6 (first_ip r) (last_ip r) <= 0.

Lemma prefix_diff_nonneg i : 0 <= prefix_diff r i.
Proof.
  destruct r_wf as [[Lf Hf] [Ll Hl]]. unfold prefix_diff.
  pose proof (ipcomp_le IPv6 (first_ip r) (last_ip r) (proj1 r_wf) (proj2 r_wf)) as H.
  cbn [ipcomp addr_value] in H. apply H in r_ordered.
  pose proof (be_value_take (v6 (first_ip r)) (v6 (last_ip r)) i ltac:(lia) Hf Hl r_ordered).
  lia.
Qed.

Lemma prefix_diff_0 : prefix_diff r 0 = 0.
Proof. reflexivity. Qed.

Lemma prefix_diff_16 :
  prefix_diff r 16 = be_value (v6 (last_ip r)) - be_value (v6 (first_ip r)).
Proof.
  destruct r_wf as [[Lf _] [Ll _]]. unfold prefix_diff.
  now rewrite !take_ge by lia.
Qed.

Lemma byte_at_wf a i : wf_addr IPv6 a -> (i < 16)%nat ->
  v6 a !! i = Some (byte_at (v6 a) i) /\ is_byte (byte_at (v6 a) i).
Proof.
  intros [La Ha] Hi. unfold byte_at.
  destruct (lookup_lt_is_Some_2 (v6 a) i ltac:(lia)) as [x Hx]. rewrite Hx.
  split; [reflexivity|]. rewrite Forall_forall in Ha. apply Ha.
  eapply list_elem_of_lookup_2; eauto.
Qed.

Lemma prefix_diff_S i : (i < 16)%nat ->
  prefix_diff r (S i)
  = prefix_diff r i * 256
    + (byte_at (v6 (last_ip r)) i - byte_at (v6 (first_ip r)) i).
Proof.
  intros Hi. destruct r_wf as [Hf Hl]. unfold prefix_diff.
  rewrite (take_S_r _ _ _ (proj1 (byte_at_wf _ i Hf Hi))).
  rewrite (take_S_r _ _ _ (proj1 (byte_at_wf _ i Hl Hi))).
  rewrite !be_value_snoc. lia.
Qed.

Lemma size_invariant_step i size : (i < 16)%nat ->
  size_invariant r i size ->
  size_invariant r (S i)
    (dadd (dmul size 256)
          (byte_at (v6 (last_ip r)) i - byte_at (v6 (first_ip r)) i)).
Proof.
  intros Hi Hinv. destruct r_wf as [Hf Hl].
  destruct (byte_at_wf _ i Hf Hi) as [_ Bf]. destruct (byte_at_wf _ i Hl Hi) as [_ Bl].
  unfold is_byte in Bf, Bl.
  pose proof (prefix_diff_nonneg i) as P0. pose proof (prefix_diff_nonneg (S i)) as P1.
  pose proof (prefix_diff_S i Hi) as HS.
  assert (Hd : -255 <= byte_at (v6 (last_ip r)) i - byte_at (v6 (first_ip r)) i <= 255)
    by lia.
  set (d := byte_at (v6 (last_ip r)) i - byte_at (v6 (first_ip r)) i) in *.
  unfold size_invariant, dadd, dmul.
  destruct Hinv as [[-> Hlt]|[Hs Hp]].
  - assert (Hmul : rnd53 (prefix_diff r i * 256) = prefix_diff r i * 256)
      by (apply (rnd53_scaled _ 8); lia).
    rewrite Hmul, <- HS.
    destruct (Z_lt_le_dec (prefix_diff r (S i)) (2 ^ 53)).
    + left. split; [apply rnd53_small; lia | assumption].
    + right. split; [apply (rnd53_ge_pow2 _ 53); lia | assumption].
  - right. split; [|lia].
    apply (rnd53_ge_pow2 _ 53); [lia|].
    assert (2 ^ 61 <= rnd53 (size * 256)) by (apply (rnd53_ge_pow2 _ 61); lia). lia.
Qed.

Lemma size_invariant_loop n : forall i size,
  (i + n <= 16)%nat -> size_invariant r i size ->
  size_invariant r (i + n) (get_range_size_v6_loop r i n size).
Proof.
  induction n as [|n IH]; intros i size Hi Hinv; cbn [get_range_size_v6_loop].
  - now rewrite Nat.add_0_r.
  - replace (i + S n)%nat with (S i + n)%nat by lia.
    apply IH; [lia|]. apply size_invariant_step; [lia|assumption].
Qed.

Lemma get_range_size_v6_spec :
  0 < get_range_size_v6 r /\
  (addresses_in IPv6 r <= 2 ^ 53 -> get_range_size_v6 r = addresses_in IPv6 r).
Proof.
  pose proof (size_invariant_loop 16 0 0 ltac:(lia)) as H.
  pose proof (prefix_diff_nonneg 16) as P.
  unfold get_range_size_v6, addresses_in, dadd. cbn [addr_value].
  rewrite <- prefix_diff_16.
  destruct H as [[Hs Hlt]|[Hs Hp]].
  - left. split; [reflexivity|]. rewrite prefix_diff_0. lia.
  - cbn [Nat.add] in *. rewrite Hs. split.
    + destruct (Z_lt_le_dec (prefix_diff r 16 + 1) (2 ^ 53)).
      * rewrite rnd53_small by lia. lia.
      * pose proof (rnd53_ge_pow2 (prefix_diff r 16 + 1) 53 ltac:(lia) ltac:(lia)). lia.
    + intros Hfit. rewrite rnd53_exact by lia. lia.
  - cbn [Nat.add] in *. split.
    + pose proof (rnd53_ge_pow2 (get_range_size_v6_loop r 0 16 0 + 1) 53
                    ltac:(lia) ltac:(lia)). lia.
    + intros Hfit. lia.
Qed.

End RangeSizeV6.

(** The integer model of the doubles gives, on the ranges used below, the
    number that primitive binary64 arithmetic gives. *)
Lemma get_range_size_v6_binary64_agrees :
  Forall (fun r => PrimFloat.eqb (get_range_size_v6_binary64 r)
                                 (to_float (get_range_size_v6 r)) = true)
         [half_range; inexact_range; shorter_range; longer_range].
Proof. repeat constructor. Qed.

(** C9 (as the code has it): for an IPv6 range whose first address is not
    above its last, [get_range_size_v6] is strictly positive; it is the
    exact number of addresses whenever that number is at most 2^53, the
    integers a double holds exactly; ::/1 gives 2^127; and among ranges of
    at most 2^53 addresses a range inside another is not larger. *)
Theorem get_range_size_v6_positive_exact :
  (forall r,
     wf_range IPv6 r -> ipcomp_v6 (first_ip r) (last_ip r) <= 0 ->
     0 < get_range_size_v6 r /\
     (addresses_in IPv6 r <= 2 ^ 53 -> get_range_size_v6 r = addresses_in IPv6 r)) /\
  get_range_size_v6 half_range = 2 ^ 127 /\
  (forall r r',
     wf_range IPv6 r -> ipcomp_v6 (first_ip r) (last_ip r) <= 0 ->
     wf_range IPv6 r' -> ipcomp_v6 (first_ip r') (last_ip r') <= 0 ->
     addresses_in IPv6 r' <= 2 ^ 53 ->
     addr_value IPv6 (first_ip r') <= addr_value IPv6 (first_ip r) ->
     addr_value IPv6 (last_ip r) <= addr_value IPv6 (last_ip r') ->
     get_range_size_v6 r <= get_range_size_v6 r').
Proof.
  split; [exact get_range_size_v6_spec|]. split; [reflexivity|].
  intros r r' Hr Ho Hr' Ho' Hfit Hf Hl.
  destruct (get_range_size_v6_spec r Hr Ho) as [_ He].
  destruct (get_range_size_v6_spec r' Hr' Ho') as [_ He'].
  unfold addresses_in in *. rewrite He, He' by lia. lia.
Qed.

Lemma get_range_size_v6_positive_exact_witness :
  0 < get_range_size_v6 inexact_range /\
  get_range_size_v6 (range6 (replicate 16 0) (replicate 15 0 ++ [3])) = 4.
Proof.
  assert (W : forall bytes, length bytes = 16%nat -> forallb (fun b => (0 <=? b) && (b <? 256)) bytes = true ->
              wf_addr IPv6 (mk_ipaddr 0 bytes)).
  { intros bytes Hl Hb. split; [exact Hl|]. apply Forall_forall. intros x Hx.
    rewrite forallb_forall in Hb. apply list_elem_of_In in Hx. specialize (Hb x Hx).
    unfold is_byte. lia. }
  split.
  - refine (proj1 (proj1 get_range_size_v6_positive_exact inexact_range _ _)).
    + split; apply W; reflexivity.
    + vm_compute. discriminate.
  - refine (proj2 (proj1 get_range_size_v6_positive_exact
                     (range6 (replicate 16 0) (replicate 15 0 ++ [3])) _ _) _).
    + split; apply W; reflexivity.
    + vm_compute. discriminate.
    + vm_compute. discriminate.
Defined.

(** C9 as stated fails beyond 2^53.  The range to 2000:0:0:100:: reaches
    further than the range to 2000:0:0:ff:: from the same first address and
    is reported smaller; and the 2^53 + 1 addresses from :: to ::20:0:0:0,
    a number that fits in 64 bits, are reported as 2^53. *)
Lemma get_range_size_v6_counterexample :
  first_ip longer_range = first_ip shorter_range /\
  ipcomp_v6 (first_ip shorter_range) (last_ip shorter_range) <= 0 /\
  ipcomp_v6 (last_ip shorter_range) (last_ip longer_range) < 0 /\
  get_range_size_v6 longer_range < get_range_size_v6 shorter_range /\
  ipcomp_v6 (first_ip inexact_range) (last_ip inexact_range) <= 0 /\
  addresses_in IPv6 inexact_range = 2 ^ 53 + 1 /\
  addresses_in IPv6 inexact_range < 2 ^ 64 /\
  get_range_size_v6 inexact_range = 2 ^ 53.
Proof.
  repeat split; try reflexivity; vm_compute; discriminate.
Qed.

(** * Further properties of the code *)

(** ** Address comparison and range size *)

(** X1: on addresses of one family, [ipcomp] is a three-way comparison of
    the numbers the addresses denote: negative, zero or positive as the
    first is smaller, equal or larger, and swapping the arguments swaps the
    sign. *)
Theorem ipcomp_numeric_order version a b :
  wf_addr version a -> wf_addr version b ->
  (ipcomp version a b < 0 <-> addr_value version a < addr_value version b) /\
  (ipcomp version a b = 0 <-> addr_value version a = addr_value version b) /\
  (0 < ipcomp version a b <-> addr_value version b < addr_value version a) /\
  Z.sgn (ipcomp version b a) = - Z.sgn (ipcomp version a b).
Proof.
  intros Ha Hb.
  pose proof (ipcomp_sgn version a b Ha Hb). pose proof (ipcomp_sgn version b a Hb Ha).
  repeat split; lia.
Qed.

Lemma ipcomp_numeric_order_witness :
  ipcomp IPv6 (mk_ipaddr 0 (replicate 15 0 ++ [255])) (mk_ipaddr 0 (replicate 14 0 ++ [1; 0])) < 0
  <-> 255 < 256.
Proof.
  refine (proj1 (ipcomp_numeric_order IPv6 (mk_ipaddr 0 (replicate 15 0 ++ [255]))
                   (mk_ipaddr 0 (replicate 14 0 ++ [1; 0])) _ _)).
  - split; [reflexivity|]. repeat constructor; unfold is_byte; lia.
  - split; [reflexivity|]. repeat constructor; unfold is_byte; lia.
Defined.

(** X2: for a range whose first address is not above its last and which is
    not the whole IPv4 address space, [get_range_size_v4] is the number of
    addresses from the first to the last; on the whole address space the
    32-bit difference wraps and the size is 0. *)
Theorem get_range_size_v4_counts r :
  wf_range IPv4 r -> v4 (first_ip r) <= v4 (last_ip r) ->
  (v4 (last_ip r) - v4 (first_ip r) + 1 < 2 ^ 32 ->
   get_range_size_v4 r = v4 (last_ip r) - v4 (first_ip r) + 1) /\
  (v4 (last_ip r) - v4 (first_ip r) + 1 = 2 ^ 32 -> get_range_size_v4 r = 0).
Proof.
  intros [Hf Hl] Hle. cbn [wf_addr] in Hf, Hl. unfold get_range_size_v4. split; intros H.
  - apply Z.mod_small. lia.
  - rewrite H. reflexivity.
Qed.

Lemma get_range_size_v4_counts_witness :
  get_range_size_v4 (mk_range 1 (ipv4 10 0 0 0) (ipv4 10 0 0 3) 0 0 0) = 4.
Proof.
  refine (proj1 (get_range_size_v4_counts (mk_range 1 (ipv4 10 0 0 0) (ipv4 10 0 0 3) 0 0 0)
                   _ _) _).
  - split; vm_compute; intuition discriminate.
  - vm_compute. discriminate.
  - vm_compute. reflexivity.
Defined.

(** ** CIDR blocks *)

Lemma lor_ones_value a n :
  0 <= n -> Z.lor a (Z.ones n) = a + Z.ones n - a mod 2 ^ n.
Proof.
  intros Hn. pose proof (Z.add_lor_land a (Z.ones n)) as H.
  rewrite Z.land_ones in H by lia. lia.
Qed.

Lemma cidr_last_v4_value addr mask :
  1 <= mask <= 32 ->
  v4 (cidr_last_v4 addr mask)
  = v4 addr + (2 ^ (32 - mask) - 1) - v4 addr mod 2 ^ (32 - mask).
Proof.
  intros Hm. unfold cidr_last_v4. cbn [v4].
  destruct (Z.eqb_spec mask 0); [lia|]. cbn [negb]. rewrite Z.shiftl_1_l.
  assert (0 < 2 ^ (32 - mask) <= 2 ^ 31).
  { split; [apply Z.pow_pos_nonneg; lia | apply Z.pow_le_mono_r; lia]. }
  rewrite Z.mod_small by lia.
  replace (2 ^ (32 - mask) - 1) with (Z.ones (32 - mask)) at 1
    by (rewrite Z.ones_equiv; lia).
  rewrite lor_ones_value by lia. rewrite Z.ones_equiv. lia.
Qed.

(** X3: for mask lengths 1 to 32, [cidr_last_v4] returns a 32-bit address
    that keeps the first [mask] bits of the base and has every bit after
    them set; it is never below the base. *)
Theorem cidr_last_v4_block addr mask :
  wf_addr IPv4 addr -> 1 <= mask <= 32 ->
  wf_addr IPv4 (cidr_last_v4 addr mask) /\
  ipcomp_v4 addr (cidr_last_v4 addr mask) <= 0 /\
  forall k, 0 <= k < 32 ->
    addr_bit4 (v4 (cidr_last_v4 addr mask)) k
    = if k <? mask then addr_bit4 (v4 addr) k else true.
Proof.
  intros Ha Hm. cbn [wf_addr] in *.
  pose proof (cidr_last_v4_value addr mask Hm) as Hv.
  assert (Hp : 0 < 2 ^ (32 - mask)) by (apply Z.pow_pos_nonneg; lia).
  pose proof (Z.mod_pos_bound (v4 addr) (2 ^ (32 - mask)) Hp) as Hmod.
  pose proof (Z.div_mod (v4 addr) (2 ^ (32 - mask)) ltac:(lia)) as Hdm.
  assert (Hq : v4 addr / 2 ^ (32 - mask) < 2 ^ mask).
  { apply Z.div_lt_upper_bound; [lia|]. rewrite <- Z.pow_add_r by lia.
    replace (32 - mask + mask) with 32 by lia. lia. }
  assert (Hsplit : 2 ^ 32 = 2 ^ (32 - mask) * 2 ^ mask).
  { rewrite <- Z.pow_add_r by lia. f_equal. lia. }
  split; [|split].
  - rewrite Hv. split; [lia|]. nia.
  - pose proof (ipcomp_le IPv4 addr (cidr_last_v4 addr mask)) as Hle.
    cbn [ipcomp addr_value wf_addr] in Hle. apply Hle; [lia| |lia].
    rewrite Hv. split; [lia|nia].
  - intros k Hk. now apply cidr_last_v4_bits.
Qed.

Lemma cidr_last_v4_block_witness :
  ipcomp_v4 (ipv4 192 168 1 77) (cidr_last_v4 (ipv4 192 168 1 77) 24) <= 0.
Proof.
  refine (proj1 (proj2 (cidr_last_v4_block (ipv4 192 168 1 77) 24 _ _))).
  - vm_compute. intuition discriminate.
  - lia.
Defined.

Lemma lor_ge_l a b : 0 <= a -> 0 <= b -> a <= Z.lor a b.
Proof.
  intros Ha Hb.
  assert (H : Z.lor a b = a + Z.ldiff b a).
  { pose proof (Z.add_lor_land a (Z.ldiff b a)) as H.
    replace (Z.land a (Z.ldiff b a)) with 0 in H.
    - replace (Z.lor a (Z.ldiff b a)) with (Z.lor a b) in H; [lia|].
      apply Z.bits_inj'. intros n Hn.
      rewrite !Z.lor_spec, Z.ldiff_spec. now destruct (Z.testbit a n), (Z.testbit b n).
    - symmetry. apply Z.bits_inj'. intros n Hn.
      rewrite Z.land_spec, Z.ldiff_spec, Z.bits_0.
      now destruct (Z.testbit a n), (Z.testbit b n). }
  assert (0 <= Z.ldiff b a) by (apply Z.ldiff_nonneg; lia). lia.
Qed.

(** What [addr->v6[i] |= ~bitmask.v6[i]] stores is not below the byte it
    replaces. *)
Lemma lor_lnot_byte_ge a m : is_byte a -> a <= Z.lor a (Z.lnot m) mod 256.
Proof.
  intros Ha. unfold is_byte in Ha.
  change 256 with (2 ^ 8). rewrite <- Z.land_ones by lia.
  rewrite Z.land_lor_distr_l, !Z.land_ones by lia.
  rewrite (Z.mod_small a) by (change (2 ^ 8) with 256; lia).
  apply lor_ge_l; [lia|]. apply Z.mod_pos_bound. lia.
Qed.

Lemma be_value_mono a : forall b,
  Forall2 Z.le a b -> be_value a <= be_value b.
Proof.
  induction a as [|x a IH]; intros b H; inversion H as [|? y ? b' Hxy Hab]; subst.
  - lia.
  - rewrite !be_value_cons. rewrite (Forall2_length _ _ _ Hab).
    specialize (IH _ Hab).
    assert (0 <= 256 ^ Z.of_nat (length b')) by (apply Z.pow_nonneg; lia). nia.
Qed.

(** X4: for mask lengths 0 to 128, [cidr_last_v6] returns 16 bytes that
    keep the first [mask] bits of the base and have every bit after them
    set; the address is never below the base. *)
Theorem cidr_last_v6_block addr mask :
  wf_addr IPv6 addr -> 0 <= mask <= 128 ->
  wf_addr IPv6 (cidr_last_v6 addr mask) /\
  ipcomp_v6 addr (cidr_last_v6 addr mask) <= 0 /\
  forall k, 0 <= k < 128 ->
    addr_bit6 (v6 (cidr_last_v6 addr mask)) k
    = if k <? mask then addr_bit6 (v6 addr) k else true.
Proof.
  intros Ha Hm. pose proof Ha as [Hlen Hbytes].
  pose proof (cidr_last_v6_wf addr mask Hlen) as Hwf.
  split; [exact Hwf|split].
  - apply (ipcomp_le IPv6 addr (cidr_last_v6 addr mask) Ha Hwf).
    cbn [addr_value]. apply be_value_mono.
    destruct Hwf as [Hlen' _].
    apply Forall2_same_length_lookup_2; [congruence|].
    intros j x y Hx Hy.
    assert (Hj : (j < 16)%nat) by (apply lookup_lt_Some in Hx; lia).
    assert (Ey : y = byte_at (v6 (cidr_last_v6 addr mask)) j)
      by (unfold byte_at; now rewrite Hy).
    assert (Ex : x = byte_at (v6 addr) j) by (unfold byte_at; now rewrite Hx).
    unfold cidr_last_v6 in Ey. cbn [v6] in Ey.
    rewrite cidr_last_v6_or_byte in Ey by lia.
    assert (Hx' : is_byte x).
    { rewrite Forall_forall in Hbytes. apply Hbytes. eapply list_elem_of_lookup_2; eauto. }
    destruct ((0 <=? j)%nat && (j <? 0 + 16)%nat).
    + rewrite Ey, <- Ex. now apply lor_lnot_byte_ge.
    + rewrite Ey, <- Ex. lia.
  - intros k Hk. now apply cidr_last_v6_bits.
Qed.

Lemma cidr_last_v6_block_witness :
  ipcomp_v6 (mk_ipaddr 0 ([32; 1; 13; 184] ++ replicate 12 0))
            (cidr_last_v6 (mk_ipaddr 0 ([32; 1; 13; 184] ++ replicate 12 0)) 33) <= 0.
Proof.
  refine (proj1 (proj2 (cidr_last_v6_block
            (mk_ipaddr 0 ([32; 1; 13; 184] ++ replicate 12 0)) 33 _ _))).
  - split; [reflexivity|]. repeat constructor; unfold is_byte; lia.
  - lia.
Defined.

(** X5: an IPv4 range that [parse_cidr] builds from a base address and a
    mask length from 1 to 32 has 2^(32 - mask) addresses less the offset of
    the base in its block; from an aligned base that is the whole block of
    2^(32 - mask) addresses. *)
Theorem cidr_range_size_v4 r mask :
  wf_addr IPv4 (first_ip r) -> 1 <= mask <= 32 ->
  last_ip r = cidr_last_v4 (first_ip r) mask ->
  get_range_size_v4 r = 2 ^ (32 - mask) - v4 (first_ip r) mod 2 ^ (32 - mask) /\
  (v4 (first_ip r) mod 2 ^ (32 - mask) = 0 -> get_range_size_v4 r = 2 ^ (32 - mask)).
Proof.
  intros Ha Hm Hl. cbn [wf_addr] in Ha.
  assert (Hp : 0 < 2 ^ (32 - mask) <= 2 ^ 31).
  { split; [apply Z.pow_pos_nonneg; lia | apply Z.pow_le_mono_r; lia]. }
  pose proof (Z.mod_pos_bound (v4 (first_ip r)) (2 ^ (32 - mask)) ltac:(lia)) as Hmod.
  assert (E : get_range_size_v4 r
              = 2 ^ (32 - mask) - v4 (first_ip r) mod 2 ^ (32 - mask)).
  { unfold get_range_size_v4. rewrite Hl, cidr_last_v4_value by lia.
    rewrite Z.mod_small by lia. lia. }
  split; [exact E|]. intros H0. rewrite E, H0. lia.
Qed.

Lemma cidr_range_size_v4_witness :
  get_range_size_v4
    (mk_range 1 (ipv4 10 1 2 0) (cidr_last_v4 (ipv4 10 1 2 0) 23) 0 0 0) = 2 ^ 9.
Proof.
  refine (proj2 (cidr_range_size_v4
            (mk_range 1 (ipv4 10 1 2 0) (cidr_last_v4 (ipv4 10 1 2 0) 23) 0 0 0) 23 _ _ _) _).
  - vm_compute. intuition discriminate.
  - lia.
  - reflexivity.
  - reflexivity.
Defined.

(** The loop of [get_range_size_v6] reads the addresses through the
    differences of their bytes only. *)
Lemma get_range_size_v6_loop_diffs r : forall n i size,
  get_range_size_v6_loop r i n size
  = fold_left (fun s d => dadd (dmul s 256) d)
      (map (fun j => byte_at (v6 (last_ip r)) j - byte_at (v6 (first_ip r)) j) (seq i n))
      size.
Proof.
  induction n as [|n IH]; intros i size; [reflexivity|].
  cbn [get_range_size_v6_loop seq map fold_left]. apply IH.
Qed.

(** The byte differences of an aligned block depend on the mask only, and
    for each of the 129 masks the loop ends in the size of the block. *)
Lemma block_sizes_v6 mask :
  0 <= mask <= 128 ->
  dadd (fold_left (fun s d => dadd (dmul s 256) d)
          (map (fun j => Z.lnot (mask_byte (mask - 8 * Z.of_nat j)) mod 256) (seq 0 16)) 0) 1
  = 2 ^ (128 - mask).
Proof.
  intros Hm.
  assert (H : forallb (fun m =>
            dadd (fold_left (fun s d => dadd (dmul s 256) d)
                    (map (fun j => Z.lnot (mask_byte (m - 8 * Z.of_nat j)) mod 256)
                         (seq 0 16)) 0) 1
            =? 2 ^ (128 - m)) (map Z.of_nat (seq 0 129)) = true)
    by (vm_compute; reflexivity).
  rewrite forallb_forall in H. apply Z.eqb_eq, H.
  apply in_map_iff. exists (Z.to_nat mask). split; [lia|].
  apply in_seq. lia.
Qed.

(** In an aligned base the bits that the block sets are clear, so the
    byte of the last address is the byte of the base plus what is set. *)
Lemma aligned_byte_diff a mask j :
  wf_addr IPv6 a -> (j < 16)%nat ->
  (forall k, mask <= k < 128 -> addr_bit6 (v6 a) k = false) ->
  Z.lor (byte_at (v6 a) j) (Z.lnot (mask_byte (mask - 8 * Z.of_nat j))) mod 256
  - byte_at (v6 a) j
  = Z.lnot (mask_byte (mask - 8 * Z.of_nat j)) mod 256.
Proof.
  intros Ha Hj Hal. destruct (byte_at_wf a j Ha Hj) as [_ Hb]. unfold is_byte in Hb.
  set (x := byte_at (v6 a) j) in *. set (m := mask_byte (mask - 8 * Z.of_nat j)).
  change 256 with (2 ^ 8). rewrite <- !Z.land_ones by lia.
  rewrite Z.land_lor_distr_l. rewrite (Z.land_ones x) by lia.
  rewrite (Z.mod_small x) by (change (2 ^ 8) with 256; lia).
  set (c := Z.land (Z.lnot m) (Z.ones 8)).
  pose proof (Z.add_lor_land x c) as Hadd.
  replace (Z.land x c) with 0 in Hadd; [lia|].
  symmetry. apply Z.bits_inj'. intros b Hb0. rewrite Z.bits_0, Z.land_spec.
  destruct (Z.ltb_spec b 8) as [Hb8|Hb8].
  - unfold c. rewrite Z.land_spec, Z.lnot_spec, Z.ones_spec_low by lia.
    unfold m. rewrite mask_byte_bit by lia. rewrite andb_true_r.
    destruct (Z.ltb_spec 0 (mask - 8 * Z.of_nat j)) as [Hi|Hi];
      destruct (Z.leb_spec (8 - (mask - 8 * Z.of_nat j)) b) as [Hle|Hle];
      cbn [andb negb]; try apply andb_false_r.
    all: rewrite andb_true_r.
    all: specialize (Hal (8 * Z.of_nat j + (7 - b)) ltac:(lia)).
    all: unfold addr_bit6 in Hal.
    all: replace ((8 * Z.of_nat j + (7 - b)) / 8) with (Z.of_nat j) in Hal
        by (apply (Z.div_unique _ 8 _ (7 - b)); lia).
    all: replace ((8 * Z.of_nat j + (7 - b)) mod 8) with (7 - b) in Hal
        by (apply (Z.mod_unique _ 8 (Z.of_nat j) (7 - b)); lia).
    all: rewrite Nat2Z.id in Hal.
    all: replace (7 - (7 - b)) with b in Hal by lia.
    all: exact Hal.
  - replace (Z.testbit x b) with false; [reflexivity|].
    symmetry. apply Z.bits_above_log2; [lia|].
    destruct (Z.eq_dec x 0) as [->|Hx0]; [cbn; lia|].
    apply Z.log2_lt_pow2; [lia|].
    apply Z.lt_le_trans with (2 ^ 8); [change (2 ^ 8) with 256; lia|].
    apply Z.pow_le_mono_r; lia.
Qed.

(** X6: the size that [get_range_size_v6] returns for the range of an
    aligned IPv6 block, from the base to [cidr_last_v6] of the base, is
    exactly 2^(128 - mask) for every mask length from 0 to 128, also where
    the intermediate sums pass 2^53. *)
Theorem cidr_range_size_v6 r mask :
  wf_addr IPv6 (first_ip r) -> 0 <= mask <= 128 ->
  last_ip r = cidr_last_v6 (first_ip r) mask ->
  (forall k, mask <= k < 128 -> addr_bit6 (v6 (first_ip r)) k = false) ->
  get_range_size_v6 r = 2 ^ (128 - mask).
Proof.
  intros Ha Hm Hl Hal. rewrite <- (block_sizes_v6 mask Hm).
  unfold get_range_size_v6. rewrite get_range_size_v6_loop_diffs.
  f_equal. f_equal. apply map_ext_in. intros j Hj. apply in_seq in Hj.
  rewrite Hl. unfold cidr_last_v6. cbn [v6].
  destruct Ha as [Hlen Hbytes].
  rewrite cidr_last_v6_or_byte by lia.
  destruct (Nat.leb_spec 0 j); [|lia]. destruct (Nat.ltb_spec j (0 + 16)); [|lia].
  cbn [andb]. rewrite cidr_last_v6_bitmask_byte by lia.
  apply aligned_byte_diff; [split; assumption | lia | exact Hal].
Qed.

Lemma cidr_range_size_v6_witness :
  get_range_size_v6
    (mk_range 1 (mk_ipaddr 0 ([32; 1; 13; 184] ++ replicate 12 0))
       (cidr_last_v6 (mk_ipaddr 0 ([32; 1; 13; 184] ++ replicate 12 0)) 32) 0 0 0)
  = 2 ^ 96.
Proof.
  refine (cidr_range_size_v6
    (mk_range 1 (mk_ipaddr 0 ([32; 1; 13; 184] ++ replicate 12 0))
       (cidr_last_v6 (mk_ipaddr 0 ([32; 1; 13; 184] ++ replicate 12 0)) 32) 0 0 0)
    32 _ _ _ _).
  - split; [reflexivity|]. repeat constructor; unfold is_byte; lia.
  - lia.
  - reflexivity.
  - intros k Hk. unfold addr_bit6. cbn [v6 first_ip].
    assert (Hq : 4 <= k / 8 < 16).
    { split; [apply Z.div_le_lower_bound; lia | apply Z.div_lt_upper_bound; lia]. }
    assert (E : byte_at ([32; 1; 13; 184] ++ replicate 12 0) (Z.to_nat (k / 8)) = 0).
    { unfold byte_at. rewrite lookup_app_r by (cbn; lia).
      apply byte_at_replicate. }
    rewrite E. apply Z.bits_0.
Defined.

(** ** Reconciliation: what stays and what each network receives *)

Lemma do_counting_range_keeps version ls r l nets :
  let '(r', _, nets') := do_counting_range version ls r l nets in
  shared_net r' = shared_net r /\ first_ip r' = first_ip r /\ last_ip r' = last_ip r.
Proof.
  unfold do_counting_range.
  set (l2 := match match l with
                   | Some (before, c, after) => rewind version r before c after
                   | None => None
                   end with
             | None => leases_head ls
             | Some _ => _
             end).
  destruct l2 as [[[before c] after]|].
  - pose proof (scan_keeps version after r before c) as H.
    destruct (scan version r before c after) as [r' l']. exact H.
  - auto.
Qed.

Lemma do_counting_loop_keeps version ls : forall rs l nets,
  let '(rs', _, _) := do_counting_loop version ls rs l nets in
  map shared_net rs' = map shared_net rs /\
  map first_ip rs' = map first_ip rs /\
  map last_ip rs' = map last_ip rs.
Proof.
  induction rs as [|r rs IH]; intros l nets; cbn [do_counting_loop].
  - auto.
  - pose proof (do_counting_range_keeps version ls r l nets) as H1.
    destruct (do_counting_range version ls r l nets) as [[r' l'] nets1].
    destruct H1 as (S1 & F1 & L1).
    specialize (IH l' nets1).
    destruct (do_counting_loop version ls rs l' nets1) as [[rs' l''] nets2].
    destruct IH as (S2 & F2 & L2). cbn [map].
    now rewrite S1, F1, L1, S2, F2, L2.
Qed.

Lemma add_range_names version r nets :
  map name (add_range version r nets) = map name nets.
Proof.
  assert (H : forall g i (ns : list shared_network_t),
    (forall n, name (g n) = name n) -> map name (alter g i ns) = map name ns).
  { intros g i ns Hg. revert i. induction ns as [|n ns IH]; intros [|i]; cbn; try reflexivity.
    - now rewrite Hg.
    - f_equal. apply IH. }
  unfold add_range. destruct (decide _); rewrite !H; reflexivity.
Qed.

Lemma add_ranges_names version rs : forall nets,
  map name (fold_left (fun ns r' => add_range version r' ns) rs nets) = map name nets.
Proof.
  induction rs as [|r rs IH]; intros nets; cbn [fold_left]; [reflexivity|].
  now rewrite IH, add_range_names.
Qed.

(** X7: [do_counting] writes the counters of the ranges and the totals of
    the networks and nothing else: the leases, the address family and the
    sort settings stay, every range keeps its network and its two bounds,
    and the networks keep their number, order and names. *)
Theorem do_counting_frame state :
  leases (do_counting state) = leases state /\
  ip_version (do_counting state) = ip_version state /\
  sorts (do_counting state) = sorts state /\
  reverse_order (do_counting state) = reverse_order state /\
  map shared_net (ranges (do_counting state)) = map shared_net (ranges state) /\
  map first_ip (ranges (do_counting state)) = map first_ip (ranges state) /\
  map last_ip (ranges (do_counting state)) = map last_ip (ranges state) /\
  map name (shared_nets (do_counting state)) = map name (shared_nets state).
Proof.
  pose proof (do_counting_nets state) as [Hnets _].
  pose proof (add_ranges_names (ip_version state) (ranges (do_counting state))
                (shared_nets state)) as Hnames.
  rewrite <- Hnets in Hnames. revert Hnames. clear Hnets.
  unfold do_counting.
  pose proof (do_counting_loop_keeps (ip_version state) (leases state) (ranges state)
                (leases_head (leases state)) (shared_nets state)) as H.
  destruct (do_counting_loop _ _ _ _ _) as [[rs' l'] nets'].
  cbn [leases ip_version sorts reverse_order ranges shared_nets].
  intros Hnames. destruct H as (H1 & H2 & H3). repeat split; assumption.
Qed.

Lemma do_counting_loop_no_leases version : forall rs nets,
  (do_counting_loop version [] rs None nets).1.1 = rs.
Proof.
  induction rs as [|r rs IH]; intros nets; cbn [do_counting_loop]; [reflexivity|].
  cbn [do_counting_range leases_head].
  specialize (IH (add_range version r nets)). unfold add_range in IH.
  destruct (do_counting_loop version [] rs None _) as [[rs' l'] nets'].
  cbn [fst] in *. now rewrite IH.
Qed.

(** X8: with an empty lease list [do_counting] leaves every range as it
    is, counters included, whatever the ranges hold. *)
Theorem do_counting_no_leases state :
  leases state = [] -> ranges (do_counting state) = ranges state.
Proof.
  intros H. unfold do_counting. rewrite H. cbn [leases_head].
  pose proof (do_counting_loop_no_leases (ip_version state) (ranges state)
                (shared_nets state)) as E.
  destruct (do_counting_loop _ _ _ _ _) as [[rs' l'] nets']. exact E.
Qed.

Lemma do_counting_no_leases_witness :
  ranges (do_counting root_range_state) = ranges root_range_state.
Proof. refine (do_counting_no_leases root_range_state _). reflexivity. Defined.

(** One field [f] of the totals again, now network by network. *)
Section NetworkTotals.

Variable version : dhcp_version.
Variable f : shared_network_t -> double.
Variable c : range_t -> double.
Hypothesis f_add : forall r n,
  f (add_totals (get_range_size version r) r n) = dadd (f n) (c r).

Lemma add_range_lookup r nets i :
  add_range version r nets !! i
  = if decide (i = shared_net_root \/ i = shared_net r)
    then add_totals (get_range_size version r) r <$> nets !! i
    else nets !! i.
Proof.
  unfold add_range, shared_net_root.
  destruct (decide (shared_net r = 0%nat)) as [E|E].
  - rewrite E. destruct (decide (i = 0%nat \/ i = 0%nat)) as [[->| ->]|H].
    + apply list_lookup_alter_eq.
    + apply list_lookup_alter_eq.
    + apply list_lookup_alter_ne. lia.
  - destruct (decide (i = 0%nat)) as [->|H0].
    + rewrite decide_True by now left.
      rewrite list_lookup_alter_eq, list_lookup_alter_ne by lia. reflexivity.
    + rewrite list_lookup_alter_ne by lia.
      destruct (decide (i = shared_net r)) as [->|Hs].
      * rewrite decide_True by now right. apply list_lookup_alter_eq.
      * rewrite decide_False by lia. apply list_lookup_alter_ne. lia.
Qed.

(** After the ranges [rs], the network at position [i] holds the sum over
    its ranges, and 'all networks' the sum over all ranges. *)
Lemma network_totals_invariant nets0 : forall rs,
  Forall (fun n => f n = 0) nets0 ->
  abs_sum c rs <= 2 ^ 53 ->
  forall i n,
    fold_left (fun ns r' => add_range version r' ns) rs nets0 !! i = Some n ->
    f n = range_sum c (if decide (i = shared_net_root) then rs else ranges_of i rs) /\
    Z.abs (f n) <= abs_sum c rs.
Proof.
  intros rs H0. induction rs as [|r rs IH] using rev_ind; intros Hfit i n Hi.
  - cbn [fold_left] in Hi. rewrite Forall_forall in H0.
    rewrite (H0 n (list_elem_of_lookup_2 _ _ _ Hi)).
    unfold abs_sum, ranges_of. rewrite filter_nil.
    destruct (decide _); cbn; lia.
  - assert (Hsum : abs_sum c (rs ++ [r]) = abs_sum c rs + Z.abs (c r)).
    { unfold abs_sum. rewrite range_sum_app. cbn [range_sum foldr]. lia. }
    pose proof (abs_sum_nonneg c rs) as Hpos.
    rewrite fold_left_app in Hi. cbn [fold_left] in Hi.
    rewrite add_range_lookup in Hi.
    assert (Hsplit : range_sum c (if decide (i = shared_net_root) then rs ++ [r]
                                  else ranges_of i (rs ++ [r]))
      = range_sum c (if decide (i = shared_net_root) then rs else ranges_of i rs)
        + (if decide (i = shared_net_root \/ i = shared_net r) then c r else 0)).
    { destruct (decide (i = shared_net_root)) as [E|E].
      - rewrite decide_True by now left. rewrite range_sum_app. cbn [range_sum foldr]. lia.
      - rewrite ranges_of_app, range_sum_app. unfold ranges_of at 2.
        rewrite filter_cons, filter_nil.
        destruct (decide (shared_net r = i)) as [Er|Er].
        + rewrite decide_True by (right; congruence). cbn [range_sum foldr]. lia.
        + rewrite decide_False by (intros [?|?]; congruence). cbn [range_sum foldr]. lia. }
    rewrite Hsplit, Hsum.
    destruct (decide (i = shared_net_root \/ i = shared_net r)) as [E|E].
    + destruct (fold_left _ rs nets0 !! i) as [m|] eqn:Em; [|discriminate].
      cbn in Hi. injection Hi as <-.
      destruct (IH ltac:(lia) i m Em) as [Hm Hb].
      rewrite f_add, dadd_exact by lia. lia.
    + destruct (IH ltac:(lia) i n Hi) as [Hm Hb]. lia.
Qed.

End NetworkTotals.

(** X9: after [do_counting], started with all totals zero, each of the
    four totals of a shared network is the sum of that quantity over the
    ranges of the network, and each total of 'all networks' is the sum over
    all ranges; the sums are exact as long as all that is added up stays
    within 2^53. *)
Theorem do_counting_network_totals state :
  Forall zero_totals (shared_nets state) ->
  sum_of_parts (ip_version state) (ranges (do_counting state)) <= 2 ^ 53 ->
  forall i n, shared_nets (do_counting state) !! i = Some n ->
    let own := if decide (i = shared_net_root) then ranges (do_counting state)
               else ranges_of i (ranges (do_counting state)) in
    available n = range_sum (get_range_size (ip_version state)) own /\
    used n = range_sum count own /\
    sn_touched n = range_sum touched own /\
    sn_backups n = range_sum backups own.
Proof.
  intros Hzero Hfit i n Hi own. subst own.
  destruct (do_counting_nets state) as [Hnets _].
  rewrite Hnets in Hi. clear Hnets.
  set (rs' := ranges (do_counting state)) in *.
  assert (Hall : forall (f : shared_network_t -> double) (c : range_t -> double),
    (forall r n, f (add_totals (get_range_size (ip_version state) r) r n) = dadd (f n) (c r)) ->
    Forall (fun n => f n = 0) (shared_nets state) ->
    (forall r, Z.abs (c r) <= Z.abs (get_range_size (ip_version state) r) + Z.abs (count r)
                              + Z.abs (touched r) + Z.abs (backups r)) ->
    f n = range_sum c (if decide (i = shared_net_root) then rs' else ranges_of i rs')).
  { intros f c Hf Hf0 Hc.
    apply (network_totals_invariant (ip_version state) f c Hf (shared_nets state) rs' Hf0).
    - pose proof (abs_sum_parts (ip_version state) c rs' Hc). lia.
    - exact Hi. }
  repeat split.
  - apply Hall; [reflexivity| |intros; lia].
    eapply Forall_impl; [exact Hzero|]. now intros m (? & _).
  - apply Hall; [reflexivity| |intros; lia].
    eapply Forall_impl; [exact Hzero|]. now intros m (_ & ? & _).
  - apply Hall; [reflexivity| |intros; lia].
    eapply Forall_impl; [exact Hzero|]. now intros m (_ & _ & ? & _).
  - apply Hall; [reflexivity| |intros; lia].
    eapply Forall_impl; [exact Hzero|]. now intros m (_ & _ & _ & ?).
Qed.

Lemma do_counting_network_totals_witness :
  exists lan,
    shared_nets (do_counting two_ranges_state) !! 1%nat = Some lan /\
    available lan = range_sum (get_range_size IPv4)
                      (ranges_of 1 (ranges (do_counting two_ranges_state))) /\
    used lan = range_sum count (ranges_of 1 (ranges (do_counting two_ranges_state))).
Proof.
  eexists. split; [reflexivity|].
  pose proof (do_counting_network_totals two_ranges_state
                ltac:(repeat constructor) ltac:(vm_compute; discriminate)
                1%nat _ eq_refl) as (Ha & Hu & _).
  split; [exact Ha | exact Hu].
Defined.

(** ** The comparison of doubles *)

Lemma is_nan_Prim2SF x : PrimFloat.is_nan x = false <-> Prim2SF x <> S754_nan.
Proof.
  unfold PrimFloat.is_nan. rewrite FloatAxioms.eqb_spec. unfold SFeqb.
  destruct (Prim2SF x) as [s|s| |s m e]; cbn.
  - split; [discriminate|reflexivity].
  - destruct s; cbn; (split; [discriminate|reflexivity]).
  - split; [discriminate|congruence].
  - assert (E : PosDef.Pos.compare_cont Eq m m = Eq) by apply Pos.compare_cont_refl.
    rewrite Z.compare_refl, E.
    destruct s; cbn; (split; [discriminate|reflexivity]).
Qed.

Lemma SFltb_rank f1 f2 :
  f1 <> S754_nan -> f2 <> S754_nan ->
  SFltb f1 f2 = true <-> rank_lt (float_rank f1) (float_rank f2).
Proof.
  intros H1 H2. unfold SFltb, SFcompare, rank_lt.
  destruct f1 as [s1|s1| |s1 m1 e1]; [| |congruence|];
    destruct f2 as [s2|s2| |s2 m2 e2]; try congruence;
    repeat match goal with s : bool |- _ => destruct s end; cbn;
    try (split; [discriminate | lia]); try (split; [lia | lia]);
    try (split; [intros _; lia | reflexivity]).
  - destruct (Z.compare_spec e1 e2) as [E|E|E].
    + subst.
      assert (Em : PosDef.Pos.compare_cont Eq m1 m2
                   = Pos.switch_Eq Eq (m1 ?= m2)%positive)
        by apply Pos.compare_cont_spec.
      rewrite Em. unfold Pos.switch_Eq.
      destruct (Pos.compare_spec m1 m2); cbn; (split; [try discriminate; lia | try reflexivity; lia]).
    + split; [discriminate|lia].
    + split; [lia|reflexivity].
  - destruct (Z.compare_spec e1 e2) as [E|E|E].
    + subst.
      assert (Em : PosDef.Pos.compare_cont Eq m1 m2
                   = Pos.switch_Eq Eq (m1 ?= m2)%positive)
        by apply Pos.compare_cont_spec.
      rewrite Em. unfold Pos.switch_Eq.
      destruct (Pos.compare_spec m1 m2); cbn; (split; [try discriminate; lia | try reflexivity; lia]).
    + split; [lia|reflexivity].
    + split; [discriminate|lia].
Qed.

Lemma ltb_rank x y :
  PrimFloat.is_nan x = false -> PrimFloat.is_nan y = false ->
  PrimFloat.ltb x y = true <-> rank_lt (float_rank (Prim2SF x)) (float_rank (Prim2SF y)).
Proof.
  intros Hx Hy. rewrite FloatAxioms.ltb_spec. apply SFltb_rank; now apply is_nan_Prim2SF.
Qed.

Lemma comp_double_rank x y :
  PrimFloat.is_nan x = false -> PrimFloat.is_nan y = false ->
  (comp_double x y = -1 /\ rank_lt (float_rank (Prim2SF x)) (float_rank (Prim2SF y))) \/
  (comp_double x y = 1 /\ rank_lt (float_rank (Prim2SF y)) (float_rank (Prim2SF x))) \/
  (comp_double x y = 0 /\ float_rank (Prim2SF x) = float_rank (Prim2SF y)).
Proof.
  intros Hx Hy. pose proof (ltb_rank x y Hx Hy) as Hxy. pose proof (ltb_rank y x Hy Hx) as Hyx.
  unfold comp_double.
  destruct (float_rank (Prim2SF x)) as [[a1 a2] a3], (float_rank (Prim2SF y)) as [[b1 b2] b3].
  unfold rank_lt in *. cbn [fst snd] in *.
  destruct (PrimFloat.ltb x y); [left; split; [reflexivity|now apply Hxy]|].
  destruct (PrimFloat.ltb y x); [right; left; split; [reflexivity|now apply Hyx]|].
  right; right. split; [reflexivity|].
  assert (N1 : ~ (a1 < b1 \/ a1 = b1 /\ (a2 < b2 \/ a2 = b2 /\ a3 < b3)))
    by (intros K; apply Hxy in K; discriminate).
  assert (N2 : ~ (b1 < a1 \/ b1 = a1 /\ (b2 < a2 \/ b2 = a2 /\ b3 < a3)))
    by (intros K; apply Hyx in K; discriminate).
  assert (a1 = b1 /\ a2 = b2 /\ a3 = b3) as (-> & -> & ->) by lia. reflexivity.
Qed.

Lemma comp_double_order x y z :
  PrimFloat.is_nan x = false -> PrimFloat.is_nan y = false ->
  PrimFloat.is_nan z = false ->
  comp_double y x = - comp_double x y /\
  (comp_double x y <= 0 -> comp_double y z <= 0 -> comp_double x z <= 0) /\
  (comp_double x y = 0 -> comp_double y z = 0 -> comp_double x z = 0).
Proof.
  intros Hx Hy Hz.
  pose proof (comp_double_rank x y Hx Hy) as Hxy.
  pose proof (comp_double_rank y x Hy Hx) as Hyx.
  pose proof (comp_double_rank y z Hy Hz) as Hyz.
  pose proof (comp_double_rank x z Hx Hz) as Hxz.
  destruct (float_rank (Prim2SF x)) as [[a1 a2] a3], (float_rank (Prim2SF y)) as [[b1 b2] b3],
    (float_rank (Prim2SF z)) as [[c1 c2] c3].
  unfold rank_lt in *. cbn [fst snd] in *.
  assert (Hinj : forall p q r s t u : Z, (p, q, r) = (s, t, u) -> p = s /\ q = t /\ r = u)
    by (intros p q r s t u H; injection H; auto).
  repeat match goal with
  | H : _ \/ _ |- _ => destruct H as [H|H]
  | H : _ /\ _ |- _ => destruct H as [? H]
  | H : (_, _, _) = (_, _, _) |- _ => apply Hinj in H
  end; repeat split; intros; lia.
Qed.

(** X10: on doubles that are not NaN, [comp_double] is a consistent
    three-way comparison: swapping the arguments negates the result, and
    both "not after" and "equal" are transitive. *)
Theorem comp_double_consistent x y z :
  PrimFloat.is_nan x = false -> PrimFloat.is_nan y = false ->
  PrimFloat.is_nan z = false ->
  comp_double y x = - comp_double x y /\
  (comp_double x y <= 0 -> comp_double y z <= 0 -> comp_double x z <= 0) /\
  (comp_double x y = 0 -> comp_double y z = 0 -> comp_double x z = 0).
Proof. apply comp_double_order. Qed.

Lemma comp_double_consistent_witness :
  comp_double (to_float 3) (to_float 2) = - comp_double (to_float 2) (to_float 3).
Proof.
  refine (proj1 (comp_double_consistent (to_float 2) (to_float 3) (to_float 5) _ _ _));
    reflexivity.
Defined.

Lemma is_nan_true x : PrimFloat.is_nan x = true -> Prim2SF x = S754_nan.
Proof.
  intros H. destruct (Prim2SF x) as [s|s| |s m e] eqn:E; [| |reflexivity|];
    assert (Hn : PrimFloat.is_nan x = false)
      by (apply is_nan_Prim2SF; rewrite E; discriminate);
    congruence.
Qed.

(** X11: a NaN compares as equal to every double, on either side; the
    percent keys are NaN for a range of size 0 with nothing counted. *)
Theorem comp_double_nan x y :
  PrimFloat.is_nan x = true -> comp_double x y = 0 /\ comp_double y x = 0.
Proof.
  intros H. apply is_nan_true in H. unfold comp_double.
  rewrite !FloatAxioms.ltb_spec, H. unfold SFltb, SFcompare.
  destruct (Prim2SF y); auto.
Qed.

Lemma comp_double_nan_witness :
  comp_double (ret_percent IPv4 whole_v4) (to_float 1) = 0.
Proof.
  refine (proj1 (comp_double_nan (ret_percent IPv4 whole_v4) (to_float 1) _)).
  reflexivity.
Defined.

(** ** The order under a chain of comparators *)

Lemma N_of_ascii_inj x y : N_of_ascii x = N_of_ascii y -> x = y.
Proof.
  intros H. rewrite <- (ascii_N_embedding x), <- (ascii_N_embedding y). now rewrite H.
Qed.

Lemma strcmp_swap a : forall b, strcmp b a = - strcmp a b.
Proof.
  induction a as [|x a IH]; intros [|y b]; cbn [strcmp]; try lia.
  rewrite (Ascii.eqb_sym y x). destruct (Ascii.eqb x y); [apply IH | lia].
Qed.

Lemma strcmp_trans a : forall b c,
  c_string a = true -> c_string b = true -> c_string c = true ->
  strcmp a b <= 0 -> strcmp b c <= 0 -> strcmp a c <= 0.
Proof.
  assert (Hnz : forall x, negb (Ascii.eqb x Ascii.zero) = true -> 0 < Z.of_N (N_of_ascii x)).
  { intros x Hx. destruct (Ascii.eqb_spec x Ascii.zero) as [|Hne]; [discriminate|].
    assert (N_of_ascii x <> 0%N) by (intros E; apply Hne, N_of_ascii_inj; exact E). lia. }
  induction a as [|x a IH]; intros [|y b] [|z c] Ca Cb Cc Hab Hbc;
    cbn [strcmp c_string] in *; try lia;
    repeat match goal with
    | H : _ && _ = true |- _ => apply andb_true_iff in H as [? ?]
    end.
  - specialize (Hnz x ltac:(assumption)). exfalso. lia.
  - specialize (Hnz y ltac:(assumption)). exfalso. clear - Hnz Hbc. lia.
  - assert (Hne : forall u v : ascii, u <> v -> Z.of_N (N_of_ascii u) <> Z.of_N (N_of_ascii v)).
    { intros u v Huv E. apply Huv, N_of_ascii_inj. lia. }
    destruct (Ascii.eqb_spec x y) as [Exy|Hxy], (Ascii.eqb_spec y z) as [Eyz|Hyz],
      (Ascii.eqb_spec x z) as [Exz|Hxz]; try congruence.
    + now apply (IH b c).
    + subst. apply Hne in Hxy. exfalso. lia.
    + apply Hne in Hxy, Hyz, Hxz. lia.
Qed.

Lemma merge_sorts_chain state p x y :
  merge_sorts state p x y = (chain_compare state p x y <? 0).
Proof.
  induction p as [|func p IH]; cbn [merge_sorts chain_compare]; [reflexivity|].
  fold (sort_entry state func x y). set (ret := sort_entry state func x y).
  destruct (Z.ltb_spec 0 ret) as [Hpos|Hpos]; destruct (Z.eqb_spec ret 0) as [E0|N0]; try lia.
  - destruct (Z.ltb_spec ret 0); [lia | exact IH].
  - destruct (Z.ltb_spec ret 0); [reflexivity | lia].
Qed.

Lemma consistent_lex P c1 c2 :
  consistent P c1 -> consistent P c2 ->
  consistent P (fun x y => if c1 x y =? 0 then c2 x y else c1 x y).
Proof.
  intros [A1 T1] [A2 T2]. split.
  - intros x y Px Py. specialize (A1 x y Px Py). specialize (A2 x y Px Py).
    destruct (Z.eqb_spec (c1 y x) 0), (Z.eqb_spec (c1 x y) 0); lia.
  - intros x y z Px Py Pz Hxy Hyz.
    pose proof (A1 x y Px Py). pose proof (A1 y z Py Pz). pose proof (A1 x z Px Pz).
    pose proof (T1 x y z Px Py Pz). pose proof (T1 y z x Py Pz Px).
    pose proof (T1 z x y Pz Px Py). pose proof (T1 z y x Pz Py Px).
    pose proof (T1 y x z Py Px Pz). pose proof (T1 x z y Px Pz Py).
    pose proof (T2 x y z Px Py Pz).
    destruct (Z.eqb_spec (c1 x y) 0), (Z.eqb_spec (c1 y z) 0), (Z.eqb_spec (c1 x z) 0); lia.
Qed.

Lemma consistent_chain state P p :
  Forall (fun func => consistent P (sort_entry state func)) p ->
  consistent P (chain_compare state p).
Proof.
  induction 1 as [|func p Hf _ IH]; cbn [chain_compare].
  - split; intros; lia.
  - apply (consistent_lex P (sort_entry state func) (chain_compare state p) Hf IH).
Qed.

(** A consistent chain makes [merge] a strict order with transitive ties. *)
Lemma consistent_merge state P :
  consistent P (chain_compare state (sorts state)) ->
  (forall x y, P x -> P y -> merge state x y = true -> merge state y x = false) /\
  (forall x y z, P x -> P y -> P z ->
     merge state y x = false -> merge state z y = false -> merge state z x = false).
Proof.
  intros [A T]. unfold merge. split.
  - intros x y Px Py. rewrite !merge_sorts_chain. specialize (A x y Px Py).
    destruct (Z.ltb_spec (chain_compare state (sorts state) x y) 0);
      destruct (Z.ltb_spec (chain_compare state (sorts state) y x) 0); try reflexivity; lia.
  - intros x y z Px Py Pz. rewrite !merge_sorts_chain.
    pose proof (A x y Px Py). pose proof (A y z Py Pz). pose proof (A x z Px Pz).
    pose proof (T x y z Px Py Pz).
    destruct (Z.ltb_spec (chain_compare state (sorts state) y x) 0);
      destruct (Z.ltb_spec (chain_compare state (sorts state) z y) 0);
      destruct (Z.ltb_spec (chain_compare state (sorts state) z x) 0);
      try reflexivity; try discriminate; lia.
Qed.

Section Ordered.

Variable state : conf_t.
Variable P : range_t -> Prop.
Hypothesis merge_asym :
  forall x y, P x -> P y -> merge state x y = true -> merge state y x = false.
Hypothesis merge_ties :
  forall x y z, P x -> P y -> P z ->
    merge state y x = false -> merge state z y = false -> merge state z x = false.

Lemma ordered_rev l :
  StronglySorted (fun x y => merge state x y = false) l -> ordered state (rev l).
Proof.
  induction 1 as [|x l Hl IH Hx]; simpl; [constructor|].
  apply StronglySorted_app_2; [|assumption|repeat constructor].
  intros x1 x2 H1 H2. apply list_elem_of_singleton in H2 as ->.
  rewrite list_elem_of_In, <- in_rev, <- list_elem_of_In in H1.
  rewrite Forall_forall in Hx. now apply Hx.
Qed.

Lemma insert_back_ordered hold before :
  P hold -> Forall P before ->
  StronglySorted (fun x y => merge state x y = false) before ->
  StronglySorted (fun x y => merge state x y = false) (insert_back state hold before).
Proof.
  intros Hh HP Hd. induction Hd as [|x rest Hrest IH Hx]; simpl.
  - repeat constructor.
  - inversion HP as [|? ? Px HP']; subst.
    destruct (merge state x hold) eqn:Hm.
    + constructor; [now constructor|].
      constructor; [now apply merge_asym|].
      rewrite Forall_forall in Hx, HP'. apply Forall_forall. intros y Hy.
      apply (merge_ties y x hold); auto.
    + constructor; [now apply IH|].
      rewrite insert_back_perm. now constructor.
Qed.

Lemma insert_all_ordered rest : forall before,
  Forall P before -> Forall P rest ->
  StronglySorted (fun x y => merge state x y = false) before ->
  ordered state (insert_all state before rest).
Proof.
  induction rest as [|hold rest IH]; intros before Hb Hr Hd; simpl.
  - now apply ordered_rev.
  - inversion Hr; subst. apply IH; [|assumption|].
    + rewrite insert_back_perm. now constructor.
    + now apply insert_back_ordered.
Qed.

Lemma merge_runs_ordered lo : forall hi,
  Forall P lo -> Forall P hi -> ordered state lo -> ordered state hi ->
  ordered state (merge_runs state lo hi).
Proof.
  unfold ordered.
  induction lo as [|a lo IHlo]; intros hi Plo Phi Hlo Hhi; [assumption|].
  induction hi as [|b hi IHhi]; [now rewrite merge_runs_nil_r|].
  rewrite merge_runs_cons.
  inversion Plo as [|? ? Pa Plo']; inversion Phi as [|? ? Pb Phi']; subst.
  inversion Hlo as [|? ? Hlo' Ha]; inversion Hhi as [|? ? Hhi' Hb]; subst.
  destruct (merge state a b) eqn:Hm.
  - constructor; [now apply IHlo|].
    rewrite merge_runs_perm. apply Forall_app. split; [assumption|].
    constructor; [now apply merge_asym|].
    rewrite Forall_forall in Hb, Phi'. apply Forall_forall. intros y Hy.
    apply (merge_ties a b y); auto.
  - constructor; [now apply IHhi|].
    rewrite merge_runs_perm. apply Forall_app. split; [|assumption].
    constructor; [assumption|].
    rewrite Forall_forall in Ha, Plo'. apply Forall_forall. intros y Hy.
    apply (merge_ties b a y); auto.
Qed.

Lemma mergesort_ranges_in_order orig :
  Forall P orig -> ordered state (mergesort_ranges state orig).
Proof.
  remember (length orig) as n eqn:Hn. revert orig Hn.
  induction n as [n IH] using lt_wf_ind. intros orig Hn HP.
  rewrite mergesort_ranges_lists. destruct (decide _) as [Hs|Hs].
  - apply insert_all_ordered; [constructor | assumption | constructor].
  - unfold MIN_MERGE_SIZE in Hs. destruct (half_lengths orig) as [Hl Hd].
    assert (Forall P (take (length orig / 2) orig)) by now apply Forall_take.
    assert (Forall P (drop (length orig / 2) orig)) by now apply Forall_drop.
    pose proof (Nat.div_mod_eq (length orig) 2).
    pose proof (Nat.mod_upper_bound (length orig) 2).
    apply merge_runs_ordered.
    + now rewrite mergesort_ranges_perm.
    + now rewrite mergesort_ranges_perm.
    + eapply IH; [|reflexivity|assumption]. lia.
    + eapply IH; [|reflexivity|assumption]. lia.
Qed.

End Ordered.

Lemma comp_double_key_consistent (P : range_t -> Prop) (k : range_t -> float) :
  (forall r, P r -> PrimFloat.is_nan (k r) = false) ->
  consistent P (fun x y => comp_double (k x) (k y)).
Proof.
  intros Hk. split.
  - intros x y Px Py.
    destruct (comp_double_order (k x) (k y) (k y) (Hk x Px) (Hk y Py) (Hk y Py)) as [H _].
    rewrite H. lia.
  - intros x y z Px Py Pz.
    now destruct (comp_double_order (k x) (k y) (k z) (Hk x Px) (Hk y Py) (Hk z Pz))
      as (_ & H & _).
Qed.

(** Every comparator that [field_selector] returns is consistent on the
    ranges it can compare. *)
Lemma field_selector_consistent state c func :
  field_selector c = Returned func ->
  consistent (sortable state) (sort_entry state func).
Proof.
  unfold field_selector.
  repeat match goal with
  | |- (if ?b then _ else _) = _ -> _ => destruct b
  end; intros H; try discriminate; injection H as <-; cbn [sort_entry].
  - split.
    + intros x y _ _. unfold sort_entry. rewrite strcmp_swap. lia.
    + intros x y z (_ & Cx & _) (_ & Cy & _) (_ & Cz & _). unfold sort_entry.
      now apply strcmp_trans.
  - unfold comp_ip. split.
    + intros x y (Wx & _) (Wy & _). unfold sort_entry.
      rewrite !ipcomp_sgn by assumption. lia.
    + intros x y z (Wx & _) (Wy & _) (Wz & _). unfold sort_entry.
      rewrite !ipcomp_le by assumption. lia.
  - apply (comp_double_key_consistent _
             (fun r => to_float (get_range_size (ip_version state) r))).
    now intros r (_ & _ & H & _).
  - apply (comp_double_key_consistent _ (fun r => to_float (count r))).
    now intros r (_ & _ & _ & H & _).
  - apply (comp_double_key_consistent _ (ret_percent (ip_version state))).
    now intros r (_ & _ & _ & _ & H & _).
  - apply (comp_double_key_consistent _ (fun r => to_float (touched r))).
    now intros r (_ & _ & _ & _ & _ & H & _).
  - apply (comp_double_key_consistent _ (fun r => to_float (ret_tc r))).
    now intros r (_ & _ & _ & _ & _ & _ & H & _).
  - apply (comp_double_key_consistent _ (ret_tcperc (ip_version state))).
    now intros r (_ & _ & _ & _ & _ & _ & _ & H).
Qed.

Lemma selected_chain_merge state :
  Forall (fun func => exists c, field_selector c = Returned func) (sorts state) ->
  (forall x y, sortable state x -> sortable state y ->
     merge state x y = true -> merge state y x = false) /\
  (forall x y z, sortable state x -> sortable state y -> sortable state z ->
     merge state y x = false -> merge state z y = false -> merge state z x = false).
Proof.
  intros H. apply consistent_merge, consistent_chain.
  eapply Forall_impl; [exact H|]. cbv beta. intros func [c Hc].
  now apply (field_selector_consistent state c).
Qed.

(** X12: for every chain made of comparators that [field_selector]
    returns, [mergesort_ranges] leaves the array in the order of the chain:
    [merge] puts no range before one that stands earlier in the result.
    The ranges are such that every key can be compared: first addresses of
    the family, network names without NUL, no NaN among the keys. *)
Theorem mergesort_ranges_ordered state orig :
  Forall (fun func => exists c, field_selector c = Returned func) (sorts state) ->
  Forall (sortable state) orig ->
  ordered state (mergesort_ranges state orig).
Proof.
  intros Hs HP. destruct (selected_chain_merge state Hs) as [Ha Ht].
  now apply (mergesort_ranges_in_order state (sortable state)).
Qed.

Ltac selected_by c := apply List.Forall_cons; [now exists c|].

Ltac all_sortable :=
  repeat (apply List.Forall_cons;
    [split; [vm_compute; intuition discriminate | split; [reflexivity|]];
     repeat split; reflexivity|]);
  apply List.Forall_nil.

Lemma mergesort_ranges_ordered_witness :
  ordered chain_state (mergesort_ranges chain_state (ranges chain_state)).
Proof.
  refine (mergesort_ranges_ordered chain_state (ranges chain_state) _ _).
  - selected_by "n"%char. selected_by "p"%char. selected_by "i"%char. apply List.Forall_nil.
  - all_sortable.
Defined.

(** ** The option [--sort] and the sorting step of [main] *)

Lemma sort_option_app a : forall state b,
  sort_option state (a ++ b)
  = match sort_option state a with
    | Parsed state' => sort_option state' b
    | Exited status message => Exited status message
    end.
Proof.
  induction a as [|c a IH]; intros state b; cbn [sort_option String.append]; [reflexivity|].
  destruct (field_selector c); [apply IH | reflexivity].
Qed.

Lemma set_sorts_app state p q :
  set_sorts (set_sorts state (sorts state ++ p)) (sorts (set_sorts state (sorts state ++ p)) ++ q)
  = set_sorts state (sorts state ++ p ++ q).
Proof. unfold set_sorts. cbn. now rewrite app_assoc. Qed.

Lemma sort_option_parsed optarg : forall state state',
  sort_option state optarg = Parsed state' ->
  exists funcs,
    state' = set_sorts state (sorts state ++ funcs) /\
    Forall2 (fun c func => field_selector c = Returned func)
            (list_ascii_of_string optarg) funcs.
Proof.
  induction optarg as [|c rest IH]; intros state state' H; cbn [sort_option] in H.
  - injection H as <-. exists []. split; [|constructor].
    destruct state. unfold set_sorts. cbn. now rewrite app_nil_r.
  - destruct (field_selector c) as [func|] eqn:Ec; [|discriminate].
    destruct (IH _ _ H) as (funcs & -> & HF).
    exists (func :: funcs). split.
    + apply (set_sorts_app state [func] funcs).
    + cbn [list_ascii_of_string]. now constructor.
Qed.

Lemma sort_option_selected optarg state state' :
  sort_option state optarg = Parsed state' ->
  Forall (fun func => exists c, field_selector c = Returned func) (sorts state) ->
  Forall (fun func => exists c, field_selector c = Returned func) (sorts state').
Proof.
  intros H Hs. destruct (sort_option_parsed optarg state state' H) as (funcs & -> & HF).
  cbn [set_sorts sorts]. apply Forall_app. split; [exact Hs|].
  clear -HF. induction HF as [|c func cs funcs Hc _ IH]; constructor; [|exact IH].
  now exists c.
Qed.

Lemma sort_option_accepts state optarg :
  Forall (fun c => In c sort_keys) (list_ascii_of_string optarg) ->
  exists funcs,
    sort_option state optarg = Parsed (set_sorts state (sorts state ++ funcs)) /\
    Forall2 (fun c func => field_selector c = Returned func)
            (list_ascii_of_string optarg) funcs.
Proof.
  revert state. induction optarg as [|c rest IH]; intros state H.
  - exists []. split; [|constructor]. cbn [sort_option].
    destruct state. unfold set_sorts. cbn. now rewrite app_nil_r.
  - cbn [list_ascii_of_string] in H. inversion H as [|? ? Hc Hrest]; subst.
    assert (Ec : exists func, field_selector c = Returned func).
    { cbn in Hc. destruct Hc as [<-|[<-|[<-|[<-|[<-|[<-|[<-|[<-|[]]]]]]]]];
        eexists; reflexivity. }
    destruct Ec as [func Ec].
    destruct (IH (set_sorts state (sorts state ++ [func])) Hrest) as (funcs & E & HF).
    exists (func :: funcs). split.
    + cbn [sort_option]. rewrite Ec, E. f_equal.
      apply (set_sorts_app state [func] funcs).
    + cbn [list_ascii_of_string]. now constructor.
Qed.

(** X13: the option [--sort] with an argument made of sort keys puts one
    entry behind the chain for each character, in the order of the
    characters, each with the comparator [field_selector] returns for the
    character, and changes nothing else in the state. *)
Theorem sort_option_keys state optarg :
  Forall (fun c => In c sort_keys) (list_ascii_of_string optarg) ->
  exists funcs,
    sort_option state optarg = Parsed (set_sorts state (sorts state ++ funcs)) /\
    Forall2 (fun c func => field_selector c = Returned func)
            (list_ascii_of_string optarg) funcs.
Proof. apply sort_option_accepts. Qed.

Lemma sort_option_keys_witness :
  exists funcs,
    sort_option chain_state "Te" = Parsed (set_sorts chain_state (sorts chain_state ++ funcs)) /\
    Forall2 (fun c func => field_selector c = Returned func) ["T"; "e"]%char funcs.
Proof.
  refine (sort_option_keys chain_state "Te" _).
  repeat (apply List.Forall_cons; [cbn; tauto|]). apply List.Forall_nil.
Defined.

(** X14: if the argument of [--sort] has a character that is not a sort
    key, the process ends with [EXIT_FAILURE] at the first such character,
    whatever follows it: through the call of [error] in [field_selector],
    with its format and that character as the string handed to [quote].
    No state is left. *)
Theorem sort_option_unknown state pre c post :
  Forall (fun k => In k sort_keys) (list_ascii_of_string pre) ->
  ~ In c sort_keys ->
  sort_option state (pre ++ String c post)
  = Exited EXIT_FAILURE
      (mk_error_message "field_selector: unknown sort order: %s" (String c EmptyString)).
Proof.
  intros Hpre Hc. rewrite sort_option_app.
  destruct (sort_option_accepts state pre Hpre) as (funcs & -> & _).
  cbn [sort_option].
  assert (E : field_selector c
              = Fatal EXIT_FAILURE
                  (mk_error_message "field_selector: unknown sort order: %s"
                                    (String c EmptyString))).
  { unfold field_selector.
    repeat match goal with
    | |- (if Ascii.eqb c ?k then _ else _) = _ =>
        destruct (Ascii.eqb_spec c k) as [->|_]; [exfalso; apply Hc; cbn; tauto|]
    end. reflexivity. }
  now rewrite E.
Qed.

Lemma sort_option_unknown_witness :
  sort_option chain_state "ix"
  = Exited EXIT_FAILURE (mk_error_message "field_selector: unknown sort order: %s" "x").
Proof.
  refine (sort_option_unknown chain_state "i" "x"%char "" _ _).
  - apply List.Forall_cons; [cbn; tauto|]. apply List.Forall_nil.
  - cbn. intuition discriminate.
Defined.

(** X15: two [--sort] options in a row have the effect of one option with
    the two arguments put together, also where one of them ends the
    process. *)
Theorem sort_option_twice state a b :
  sort_option state (a ++ b)
  = match sort_option state a with
    | Parsed state' => sort_option state' b
    | Exited status message => Exited status message
    end.
Proof. apply sort_option_app. Qed.

Lemma StronglySorted_rev {A} (R : A -> A -> Prop) l :
  StronglySorted R l -> StronglySorted (fun x y => R y x) (rev l).
Proof.
  induction 1 as [|x l Hl IH Hx]; simpl; [constructor|].
  apply StronglySorted_app_2; [|assumption|repeat constructor].
  intros x1 x2 H1 H2. apply list_elem_of_singleton in H2 as ->.
  rewrite list_elem_of_In, <- in_rev, <- list_elem_of_In in H1.
  rewrite Forall_forall in Hx. now apply Hx.
Qed.

(** X16: the sorting step of [main] after a [--sort] option made of sort
    keys: the array is rearranged, nothing else in the state changes, and
    the array is left in the order of the chain, or in the opposite order
    when [--reverse] is set. *)
Theorem sort_ranges_ordered state0 optarg state :
  sorts state0 = [] -> optarg <> EmptyString ->
  sort_option state0 optarg = Parsed state ->
  Forall (sortable state) (ranges state) ->
  ranges (sort_ranges state) ≡ₚ ranges state /\
  sort_ranges state = set_ranges state (ranges (sort_ranges state)) /\
  (if reverse_order state
   then StronglySorted (fun x y => merge state x y = false) (ranges (sort_ranges state))
   else ordered state (ranges (sort_ranges state))).
Proof.
  intros H0 Hne Hopt HP.
  assert (Hsel : Forall (fun func => exists c, field_selector c = Returned func)
                        (sorts state)).
  { apply (sort_option_selected optarg state0 state Hopt). rewrite H0. constructor. }
  assert (Hs : sorts state <> []).
  { destruct (sort_option_parsed optarg state0 state Hopt) as (funcs & -> & HF).
    cbn [set_sorts sorts]. rewrite H0. cbn [app].
    destruct optarg as [|c rest]; [congruence|].
    cbn [list_ascii_of_string] in HF. inversion HF. discriminate. }
  destruct (selected_chain_merge state Hsel) as [Ha Ht].
  pose proof (mergesort_ranges_in_order state (sortable state) Ha Ht (ranges state) HP)
    as Hord.
  pose proof (mergesort_ranges_perm state (ranges state)) as Hperm.
  unfold sort_ranges. destruct (sorts state) as [|f p] eqn:Es; [congruence|].
  cbn [set_ranges reverse_order].
  destruct (reverse_order state) eqn:Er.
  - rewrite flip_ranges_set. cbn [set_ranges ranges shared_nets leases ip_version sorts
                                   reverse_order].
    split; [|split].
    + now rewrite <- Permutation_rev.
    + unfold set_ranges. cbn. now rewrite Es, Er.
    + now apply StronglySorted_rev in Hord.
  - cbn [ranges]. split; [|split].
    + exact Hperm.
    + unfold set_ranges. cbn. now rewrite Es, Er.
    + exact Hord.
Qed.

Lemma sort_ranges_ordered_witness :
  StronglySorted (fun x y => merge chain_state x y = false)
                 (ranges (sort_ranges chain_state)).
Proof.
  refine (proj2 (proj2 (sort_ranges_ordered (set_sorts chain_state []) "npi" chain_state
                          _ _ _ _))).
  - reflexivity.
  - discriminate.
  - reflexivity.
  - all_sortable.
Defined.

(** ** Keywords of the lease file *)

Lemma memcmp_zero_prefix n : forall a b,
  (n <= length a)%nat -> (n <= length b)%nat ->
  memcmp a b n = 0 -> take n b = take n a.
Proof.
  induction n as [|n IH]; intros a b La Lb H; [reflexivity|].
  destruct a as [|x a]; [cbn in La; lia|]. destruct b as [|y b]; [cbn in Lb; lia|].
  cbn [memcmp] in H. cbn [length] in La, Lb.
  destruct (Z.eqb_spec x y) as [->|Hne]; [|lia].
  cbn [take]. f_equal. apply IH; [lia | lia | exact H].
Qed.

Lemma starts_with_split literal str n :
  (n <= length (bytes_of literal))%nat -> (n <= length str)%nat ->
  starts_with literal str n = true ->
  exists rest, str = take n (bytes_of literal) ++ rest.
Proof.
  intros Ll Ls H. unfold starts_with in H. apply Z.eqb_eq in H.
  exists (drop n str). rewrite <- (memcmp_zero_prefix n _ _ Ll Ls H).
  symmetry. apply take_drop.
Qed.

Ltac keyword_case lit n E :=
  destruct (starts_with lit _ n) eqn:E;
  [apply starts_with_split in E as [? ->]; [reflexivity | cbn; lia | lia]|].

Ltac no_keyword :=
  repeat match goal with
  | |- context [if ?b then _ else _] => destruct b
  end; reflexivity.

Lemma xstrstr_v4_table str :
  (25 <= length str)%nat -> xstrstr_v4 str = keyword_of keywords_v4 str.
Proof.
  intros Hlen. unfold keywords_v4, keyword_of.
  keyword_case "  binding state free;"%string 21%nat E1.
  keyword_case "  binding state active;"%string 23%nat E2.
  keyword_case "  binding state abandoned"%string 25%nat E3.
  keyword_case "  binding state expired;"%string 24%nat E4.
  keyword_case "  binding state released;"%string 25%nat E5.
  keyword_case "  binding state backup;"%string 23%nat E6.
  keyword_case "  hardware ethernet"%string 19%nat E7.
  keyword_case "lease "%string 6%nat E8.
  assert (E3' : starts_with "  binding state abandoned;" str 25 = false) by exact E3.
  unfold xstrstr_v4. rewrite E1, E2, E3', E4, E5, E6, E7, E8. no_keyword.
Qed.

Lemma xstrstr_v6_table str :
  (27 <= length str)%nat -> xstrstr_v6 str = keyword_of keywords_v6 str.
Proof.
  intros Hlen. unfold keywords_v6, keyword_of.
  keyword_case "    binding state free;"%string 23%nat E1.
  keyword_case "    binding state active;"%string 25%nat E2.
  keyword_case "    binding state abandoned"%string 27%nat E3.
  keyword_case "    binding state expired;"%string 26%nat E4.
  keyword_case "    binding state released;"%string 27%nat E5.
  keyword_case "    binding state backup;"%string 25%nat E6.
  keyword_case "  iaaddr "%string 9%nat E8.
  assert (E3' : starts_with "    binding state abandoned;" str 27 = false) by exact E3.
  unfold xstrstr_v6. rewrite E1, E2, E3', E4, E5, E6, E8.
  destruct (starts_with "  hardware ethernet" str 19) eqn:E7; [|no_keyword].
  apply starts_with_split in E7 as [rest ->]; [reflexivity | cbn; lia | lia].
Qed.

(** X17: on a line buffer of at least 25 bytes, the quick path of
    [xstrstr_v4] (the string length, the switch on the byte at 16) changes
    nothing: the result is the first keyword of the table the line begins
    with, and [NUM_OF_PREFIX] if it begins with none.  For the abandoned
    state the bytes before the semicolon count only. *)
Theorem xstrstr_v4_keywords str :
  (25 <= length str)%nat -> xstrstr_v4 str = keyword_of keywords_v4 str.
Proof. apply xstrstr_v4_table. Qed.

Lemma xstrstr_v4_keywords_witness :
  xstrstr_v4 (line "  binding state abandoned: x" 40)
  = keyword_of keywords_v4 (line "  binding state abandoned: x" 40).
Proof.
  refine (xstrstr_v4_keywords (line "  binding state abandoned: x" 40) _).
  vm_compute. lia.
Defined.

(** X18: on a line buffer of at least 27 bytes, [xstrstr_v6] returns the
    first keyword of its table that the line begins with; the table has no
    entry for the hardware address, and [PREFIX_HARDWARE_ETHERNET] is never
    returned: the switch reaches that comparison for the letter n at byte
    18, where the keyword has a t. *)
Theorem xstrstr_v6_keywords str :
  (27 <= length str)%nat ->
  xstrstr_v6 str = keyword_of keywords_v6 str /\
  xstrstr_v6 str <> PREFIX_HARDWARE_ETHERNET.
Proof.
  intros Hlen. pose proof (xstrstr_v6_table str Hlen) as E. split; [exact E|].
  rewrite E. unfold keywords_v6, keyword_of.
  repeat match goal with
  | |- context [if ?b then _ else _] => destruct b
  end; discriminate.
Qed.

Lemma xstrstr_v6_keywords_witness :
  xstrstr_v6 (line "  hardware ethernet 00:11:22:33:44:55;" 40) <> PREFIX_HARDWARE_ETHERNET.
Proof.
  refine (proj2 (xstrstr_v6_keywords (line "  hardware ethernet 00:11:22:33:44:55;" 40) _)).
  vm_compute. lia.
Defined.

(** X19: before an address family is known, [xstrstr] recognises the
    first line of a lease only, and with it selects the family: "lease "
    IPv4, "  iaaddr " IPv6.  The function of the family it selected gives
    the same answer on that line; on every other line the state is left as
    it is. *)
Theorem xstrstr_init_selects state str :
  (27 <= length str)%nat -> ip_version state = IPvUNKNOWN ->
  (exists version,
     xstrstr state str = (set_ipv_functions state version, PREFIX_LEASE) /\
     version <> IPvUNKNOWN /\
     (version = IPv4 <-> starts_with "lease " str 6 = true) /\
     xstrstr (set_ipv_functions state version) str
     = (set_ipv_functions state version, PREFIX_LEASE)) \/
  (xstrstr state str = (state, NUM_OF_PREFIX) /\
   starts_with "lease " str 6 = false /\ starts_with "  iaaddr " str 9 = false).
Proof.
  intros Hlen Hv. unfold xstrstr at 1 3. rewrite Hv. unfold xstrstr_init.
  destruct (starts_with "lease " str 6) eqn:E4.
  - left. exists IPv4. repeat split; try discriminate.
    unfold xstrstr. cbn [set_ipv_functions ip_version]. f_equal.
    apply starts_with_split in E4 as [rest ->]; [reflexivity | cbn; lia | lia].
  - destruct (starts_with "  iaaddr " str 9) eqn:E6.
    + left. exists IPv6. repeat split; try discriminate.
      unfold xstrstr. cbn [set_ipv_functions ip_version]. f_equal.
      apply starts_with_split in E6 as [rest ->]; [reflexivity | cbn; lia | lia].
    + right. repeat split.
Qed.

Lemma xstrstr_init_selects_witness :
  (exists version,
     xstrstr (set_ipv_functions chain_state IPvUNKNOWN) (line "  iaaddr 2001:db8::1 {" 40)
     = (set_ipv_functions (set_ipv_functions chain_state IPvUNKNOWN) version, PREFIX_LEASE) /\
     version <> IPvUNKNOWN /\
     (version = IPv4 <-> starts_with "lease " (line "  iaaddr 2001:db8::1 {" 40) 6 = true) /\
     xstrstr (set_ipv_functions (set_ipv_functions chain_state IPvUNKNOWN) version)
             (line "  iaaddr 2001:db8::1 {" 40)
     = (set_ipv_functions (set_ipv_functions chain_state IPvUNKNOWN) version, PREFIX_LEASE)) \/
  (xstrstr (set_ipv_functions chain_state IPvUNKNOWN) (line "  iaaddr 2001:db8::1 {" 40)
   = (set_ipv_functions chain_state IPvUNKNOWN, NUM_OF_PREFIX) /\
   starts_with "lease " (line "  iaaddr 2001:db8::1 {" 40) 6 = false /\
   starts_with "  iaaddr " (line "  iaaddr 2001:db8::1 {" 40) 9 = false).
Proof.
  refine (xstrstr_init_selects (set_ipv_functions chain_state IPvUNKNOWN)
            (line "  iaaddr 2001:db8::1 {" 40) _ _).
  - vm_compute. lia.
  - reflexivity.
Defined.

(** ** The option [--limit] *)

Lemma return_limit_digit c v :
  return_limit c = Limit v <-> 0 <= v < 8 /\ c = digit v.
Proof.
  unfold return_limit, digit. change (chr "0") with 48. change (chr "8") with 56. split.
  - destruct (Z.leb_spec 48 (chr c)) as [Hlo|Hlo];
      destruct (Z.ltb_spec (chr c) 56) as [Hhi|Hhi]; cbn [andb];
      intros K; try discriminate K. injection K as <-. split; [lia|].
    unfold chr. replace (48 + (Z.of_N (N_of_ascii c) - 48)) with (Z.of_N (N_of_ascii c)) by lia.
    now rewrite N2Z.id, ascii_N_embedding.
  - intros [Hv ->].
    assert (E : v = 0 \/ v = 1 \/ v = 2 \/ v = 3 \/ v = 4 \/ v = 5 \/ v = 6 \/ v = 7) by lia.
    repeat destruct E as [->|E]; try subst v; reflexivity.
Qed.

(** X20: [return_limit] accepts the characters 0 to 7 and nothing else
    and returns their value, so the option [--limit] is accepted exactly
    for arguments that begin with two such digits; both limits are then
    below 8, the value that marks a limit that was not given. *)
Theorem limit_option_digits optarg header_limit number_limit :
  limit_option optarg = Some (header_limit, number_limit) <->
  0 <= header_limit < 8 /\ 0 <= number_limit < 8 /\
  exists rest, optarg = String (digit header_limit) (String (digit number_limit) rest).
Proof.
  unfold limit_option. split.
  - destruct (return_limit (char_at optarg 0)) as [h|] eqn:E0; [|discriminate].
    destruct (return_limit (char_at optarg 1)) as [n|] eqn:E1; [|discriminate].
    intros H. injection H as <- <-.
    apply return_limit_digit in E0 as [Hh E0], E1 as [Hn E1].
    split; [exact Hh|]. split; [exact Hn|].
    destruct optarg as [|c0 [|c1 rest]]; cbn in E0, E1.
    + exfalso. clear E1. revert E0. unfold digit. change (chr "0") with 48.
      assert (E : h = 0 \/ h = 1 \/ h = 2 \/ h = 3 \/ h = 4 \/ h = 5 \/ h = 6 \/ h = 7) by lia.
      repeat destruct E as [->|E]; try subst h; discriminate.
    + exfalso. clear E0. revert E1. unfold digit. change (chr "0") with 48.
      assert (E : n = 0 \/ n = 1 \/ n = 2 \/ n = 3 \/ n = 4 \/ n = 5 \/ n = 6 \/ n = 7) by lia.
      repeat destruct E as [->|E]; try subst n; discriminate.
    + exists rest. now rewrite E0, E1.
  - intros (Hh & Hn & rest & ->). cbn [char_at String.get].
    rewrite (proj2 (return_limit_digit (digit header_limit) header_limit)) by auto.
    change (char_at _ 1) with (digit number_limit).
    now rewrite (proj2 (return_limit_digit (digit number_limit) number_limit)) by auto.
Qed.

(** X21: [flip_ranges] moves the range at position [j] to position
    [num_ranges - 1 - j] for every [j], keeps the number of ranges, and
    changes nothing else in the state. *)
Theorem flip_ranges_positions state :
  flip_ranges state = set_ranges state (ranges (flip_ranges state)) /\
  num_ranges (flip_ranges state) = num_ranges state /\
  forall j, (j < num_ranges state)%nat ->
    ranges (flip_ranges state) !! (num_ranges state - 1 - j)%nat = ranges state !! j.
Proof.
  rewrite flip_ranges_set. unfold num_ranges. cbn [set_ranges ranges].
  split; [reflexivity|]. split; [apply length_rev|].
  intros j Hj. rewrite rev_alt. change (rev_append (ranges state) []) with (reverse (ranges state)).
  rewrite reverse_lookup by lia. f_equal. lia.
Qed.

(** X22: where no two different ranges tie under the chain, the result
    of [mergesort_ranges] depends on the ranges in the array only, not on
    the order they come in: two arrangements of the same ranges are sorted
    into the same array, and sorting a sorted array changes nothing. *)
Theorem mergesort_ranges_canonical state orig1 orig2 :
  Forall (fun func => exists c, field_selector c = Returned func) (sorts state) ->
  Forall (sortable state) orig1 ->
  (forall x y, x ∈ orig1 -> y ∈ orig1 ->
     merge state x y = false -> merge state y x = false -> x = y) ->
  orig1 ≡ₚ orig2 ->
  mergesort_ranges state orig1 = mergesort_ranges state orig2 /\
  mergesort_ranges state (mergesort_ranges state orig1) = mergesort_ranges state orig1.
Proof.
  intros Hs HP Hties Hperm. destruct (selected_chain_merge state Hs) as [Ha Ht].
  assert (Hsame : forall l, orig1 ≡ₚ l ->
            mergesort_ranges state orig1 = mergesort_ranges state l).
  { intros l Hl.
    assert (HPl : Forall (sortable state) l) by now rewrite <- Hl.
    apply (StronglySorted_unique_strong (fun x y => merge state y x = false)).
    - intros x y Hx Hy Hxy Hyx.
      rewrite mergesort_ranges_perm in Hx. rewrite mergesort_ranges_perm, <- Hl in Hy.
      symmetry. now apply Hties.
    - now apply (mergesort_ranges_in_order state (sortable state)).
    - now apply (mergesort_ranges_in_order state (sortable state)).
    - now rewrite !mergesort_ranges_perm. }
  split; [now apply Hsame|].
  symmetry. apply Hsame. symmetry. apply mergesort_ranges_perm.
Qed.

Lemma mergesort_ranges_canonical_witness :
  mergesort_ranges chain_state (ranges chain_state)
  = mergesort_ranges chain_state (rev (ranges chain_state)).
Proof.
  refine (proj1 (mergesort_ranges_canonical chain_state (ranges chain_state)
                   (rev (ranges chain_state)) _ _ _ _)).
  - selected_by "n"%char. selected_by "p"%char. selected_by "i"%char. apply List.Forall_nil.
  - all_sortable.
  - intros x y Hx Hy. apply list_elem_of_In in Hx, Hy. simpl in Hx, Hy.
    destruct Hx as [<-|[<-|[<-|[<-|[]]]]], Hy as [<-|[<-|[<-|[<-|[]]]]];
      vm_compute; intros; try reflexivity; discriminate.
  - apply Permutation_rev.
Defined.
